(** * MarkdownFormatter: selection-based Markdown transformations

    A shallow embedding of the transformation engine of the Reddit Markdown
    toolbar (the [MarkdownFormatter] module) together with the heading handler
    of the toolbar, and the properties of the engine stated over it.

    Data model.
    - A JavaScript string is a sequence of UTF-16 code units: [jsstr] is a
      list of code units, a code unit is a number ([N]).
    - JavaScript numbers used as offsets are integers: [Z].  The string
      methods clamp their index arguments the way ECMAScript prescribes.
    - The textarea is the record of the three properties the engine reads and
      writes: [value], [selectionStart], [selectionEnd].  [focus()] and the
      dispatched [input] event touch none of the three and are left out. *)

From Stdlib Require Import List ZArith NArith Lia Bool.
From Stdlib Require Ascii String DecimalString DecimalNat.
Import String.StringSyntax.
Import ListNotations.

Local Open Scope string_scope.
Local Open Scope Z_scope.

(** ** JavaScript strings *)

Module JS.

Definition codeunit := N.
Definition jsstr := list codeunit.

(** String literals of the source, as code units. *)
Definition lit (s : String.string) : jsstr :=
  map Ascii.N_of_ascii (String.list_ascii_of_string s).

Definition LF : codeunit := 10%N.
Definition SP : codeunit := 32%N.
Definition nl : jsstr := [LF].

(** [s.length] *)
Definition len (s : jsstr) : Z := Z.of_nat (length s).

Definition eqb (a b : jsstr) : bool :=
  if list_eq_dec N.eq_dec a b then true else false.

(** An index argument clamped into [0, s.length]. *)
Definition clampIdx (s : jsstr) (i : Z) : nat :=
  Z.to_nat (Z.min (Z.max i 0) (len s)).

(** [s.substring(a, b)]: both arguments clamped, swapped when a > b. *)
Definition substring (s : jsstr) (a b : Z) : jsstr :=
  let a' := clampIdx s a in
  let b' := clampIdx s b in
  firstn (Nat.max a' b' - Nat.min a' b') (skipn (Nat.min a' b') s).

(** [s.substring(a)] *)
Definition substringFrom (s : jsstr) (a : Z) : jsstr :=
  skipn (clampIdx s a) s.

(** A relative index of [slice]: negative counts from the end. *)
Definition sliceIdx (s : jsstr) (i : Z) : nat :=
  if i <? 0 then Z.to_nat (Z.max (len s + i) 0)
  else Z.to_nat (Z.min i (len s)).

(** [s.slice(a, b)] *)
Definition slice (s : jsstr) (a b : Z) : jsstr :=
  let from := sliceIdx s a in
  let to := sliceIdx s b in
  firstn (to - from) (skipn from s).

(** [s.slice(a)] *)
Definition sliceFrom (s : jsstr) (a : Z) : jsstr :=
  skipn (sliceIdx s a) s.

(** [s.startsWith(p)] *)
Fixpoint startsWith (s p : jsstr) {struct p} : bool :=
  match p, s with
  | [], _ => true
  | _ :: _, [] => false
  | c :: p', d :: s' => N.eqb c d && startsWith s' p'
  end.

(** [s.endsWith(p)] *)
Definition endsWith (s p : jsstr) : bool :=
  startsWith (rev s) (rev p).

(** [s.indexOf(p)], as an offset from [i]; -1 when [p] does not occur. *)
Fixpoint indexOfFrom (p s : jsstr) (i : Z) : Z :=
  if startsWith s p then i
  else match s with
       | [] => -1
       | _ :: s' => indexOfFrom p s' (i + 1)
       end.

Definition indexOf (s p : jsstr) : Z := indexOfFrom p s 0.

(** [s.lastIndexOf(p)]: the last position at which [p] occurs. *)
Fixpoint lastIndexOfFrom (p s : jsstr) (i : Z) : option Z :=
  match s with
  | [] => if startsWith [] p then Some i else None
  | _ :: s' =>
      match lastIndexOfFrom p s' (i + 1) with
      | Some r => Some r
      | None => if startsWith s p then Some i else None
      end
  end.

Definition lastIndexOf (s p : jsstr) : Z :=
  match lastIndexOfFrom p s 0 with
  | Some r => r
  | None => -1
  end.

(** The code units that [trim], [trimStart] and the regular expression
    class [\s] treat as white space (WhiteSpace and LineTerminator). *)
Definition isWhite (c : codeunit) : bool :=
  ((9 <=? c) && (c <=? 13) || (c =? 32) || (c =? 160) || (c =? 5760)
   || ((8192 <=? c) && (c <=? 8202)) || (c =? 8232) || (c =? 8233)
   || (c =? 8239) || (c =? 8287) || (c =? 12288) || (c =? 65279))%N.

(** Line terminators: what [.] refuses and what [^] looks back at under
    the [m] flag. *)
Definition isLineTerminator (c : codeunit) : bool :=
  ((c =? 10) || (c =? 13) || (c =? 8232) || (c =? 8233))%N.

Definition isDigit (c : codeunit) : bool := ((48 <=? c) && (c <=? 57))%N.

(** [s.trimStart()] *)
Fixpoint trimStart (s : jsstr) : jsstr :=
  match s with
  | c :: s' => if isWhite c then trimStart s' else s
  | [] => []
  end.

(** [s.trimEnd()] *)
Definition trimEnd (s : jsstr) : jsstr := rev (trimStart (rev s)).

(** [s.trim()] *)
Definition trim (s : jsstr) : jsstr := trimEnd (trimStart s).

(** [s.repeat(n)] for a count that is a natural number. *)
Fixpoint repeatStr (s : jsstr) (n : nat) : jsstr :=
  match n with
  | O => []
  | S k => s ++ repeatStr s k
  end.

(** The longest string of the engine, [2^29 - 24] code units in V8, which
    runs the Chromium-based browsers the extension is written for.  The
    limit is modelled where an argument decides the length of a string, in
    [repeatZ] and [concatZ] for the prefix of a heading; the buffers that
    the operations build from a textarea are taken to stay below it. *)
Definition maxStringLength : Z := 536870888.

(** [s.repeat(n)]: a RangeError ([None]) when the count is negative and
    when the result would be longer than the longest string. *)
Definition repeatZ (s : jsstr) (n : Z) : option jsstr :=
  if (n <? 0) || (maxStringLength <? n * len s) then None
  else Some (repeatStr s (Z.to_nat n)).

(** [s + t]: a RangeError ([None]) when the result would be longer than
    the longest string. *)
Definition concatZ (s t : jsstr) : option jsstr :=
  if maxStringLength <? len s + len t then None else Some (s ++ t).

(** [parts.join(sep)] *)
Fixpoint join (sep : jsstr) (parts : list jsstr) : jsstr :=
  match parts with
  | [] => []
  | [p] => p
  | p :: rest => p ++ sep ++ join sep rest
  end.

(** [s.split(sep)] for a non-empty separator: the pieces between the
    occurrences of [sep], found left to right without overlap.  [skip]
    counts the code units of a separator that is being stepped over and
    [cur] holds the current piece, reversed. *)
Fixpoint splitGo (sep s : jsstr) (skip : nat) (cur : jsstr) : list jsstr :=
  match s with
  | [] => [rev cur]
  | c :: s' =>
      match skip with
      | S k => splitGo sep s' k cur
      | O =>
          if startsWith s sep
          then rev cur :: splitGo sep s' (length sep - 1) []
          else splitGo sep s' 0 (c :: cur)
      end
  end.

(** [s.split(sep)]; an empty separator splits into the code units. *)
Definition split (s sep : jsstr) : list jsstr :=
  match sep with
  | [] => map (fun c => [c]) s
  | _ => splitGo sep s 0 []
  end.

(** Template-literal interpolation of a non-negative integer. *)
Definition ofNat (n : nat) : jsstr :=
  lit (DecimalString.NilZero.string_of_uint (Nat.to_uint n)).

(** [x | 0]: ToInt32 of an integer. *)
Definition toInt32 (x : Z) : Z :=
  let m := x mod 4294967296 in
  if m <? 2147483648 then m else m - 4294967296.

End JS.

Import JS.

(** ** The textarea *)

Record textarea := mkTextarea {
  value : jsstr;
  selectionStart : Z;
  selectionEnd : Z
}.

(** The selection invariant of the data model. *)
Definition validSelection (ta : textarea) : Prop :=
  0 <= selectionStart ta /\ selectionStart ta <= selectionEnd ta
  /\ selectionEnd ta <= len (value ta).

(** Modelled from the spec: the host primitive behind
    [textarea.setSelectionRange], which is the platform's and not code of
    this repository.  It sets the new selection "clamped into
    [0, length(buffer')]"; as on the platform, an end before the start
    collapses the selection at the end. *)
Definition setSelectionRange (ta : textarea) (s e : Z) : textarea :=
  let s' := Z.min (Z.max s 0) (len (value ta)) in
  let e' := Z.min (Z.max e 0) (len (value ta)) in
  mkTextarea (value ta) (Z.min s' e') e'.

(** Assignment to [textarea.value]: the whole buffer is replaced; the
    platform then puts the caret at the end of the new text. *)
Definition setValue (ta : textarea) (v : jsstr) : textarea :=
  mkTextarea v (len v) (len v).

(** ** Selection primitives and the wrap operation *)

Definition replaceSelection (ta : textarea) (replacement : jsstr)
    (selectReplacement : bool) : textarea :=
  let start := selectionStart ta in
  let end_ := selectionEnd ta in
  let beforeText := substring (value ta) 0 start in
  let afterText := substringFrom (value ta) end_ in
  let ta1 := setValue ta (beforeText ++ replacement ++ afterText) in
  if selectReplacement
  then setSelectionRange ta1 start (start + len replacement)
  else setSelectionRange ta1 (start + len replacement) (start + len replacement).

Definition wrapText (ta : textarea) (prefix suffix placeholder : jsstr)
    : textarea :=
  let start := selectionStart ta in
  let end_ := selectionEnd ta in
  let selectedText := substring (value ta) start end_ in
  let beforeText := substring (value ta) 0 start in
  let afterText := substringFrom (value ta) end_ in
  match selectedText with
  | _ :: _ =>
      let alreadyWrapped :=
        endsWith beforeText prefix && startsWith afterText suffix in
      if alreadyWrapped && JS.eqb prefix suffix then
        let unwrapped :=
          slice beforeText 0 (- len prefix) ++ selectedText
          ++ sliceFrom afterText (len suffix) in
        setSelectionRange (setValue ta unwrapped)
          (start - len prefix) (end_ - len prefix)
      else
        let newText := beforeText ++ prefix ++ selectedText ++ suffix ++ afterText in
        setSelectionRange (setValue ta newText)
          (start + len prefix) (end_ + len prefix)
  | [] =>
      let newText := beforeText ++ prefix ++ placeholder ++ suffix ++ afterText in
      let newCursorPos := start + len prefix in
      setSelectionRange (setValue ta newText)
        newCursorPos (newCursorPos + len placeholder)
  end.

(** ** Regular expressions

    The patterns of the source are written as terms of [regex] and run by a
    backtracking matcher that follows the ECMAScript semantics: alternatives
    and iterations are tried in priority order against a continuation, a
    greedy iteration tries one more round first, a lazy one tries the
    continuation first, and an iteration that consumes nothing is refused. *)

Module Regex.

Inductive regex :=
| Eps
| Chr (cls : codeunit -> bool)
| Seq (r1 r2 : regex)
| Alt (r1 r2 : regex)
| Star (greedy : bool) (r : regex)
| Group (n : nat) (r : regex)
| Bol.

(** A position in the input: the offset, the input from there on, the code
    unit just before, and the captures made so far. *)
Record mstate := mkState {
  pos : nat;
  rest : jsstr;
  prev : option codeunit;
  caps : list (nat * jsstr)
}.

Definition atLineStart (multiline : bool) (st : mstate) : bool :=
  match prev st with
  | None => true
  | Some c => multiline && isLineTerminator c
  end.

Definition setCap (n : nat) (text : jsstr) (st : mstate) : mstate :=
  mkState (pos st) (rest st) (prev st) ((n, text) :: caps st).

Fixpoint getCap (n : nat) (cs : list (nat * jsstr)) : jsstr :=
  match cs with
  | [] => []
  | (m, text) :: cs' => if Nat.eqb n m then text else getCap n cs'
  end.

(** The matcher, in continuation-passing style.  The iteration count of
    [Star] is bounded by the input that is left, since every round has to
    consume at least one code unit. *)
Fixpoint run (multiline : bool) (r : regex) (k : mstate -> option mstate)
    (st : mstate) {struct r} : option mstate :=
  match r with
  | Eps => k st
  | Chr cls =>
      match rest st with
      | c :: s' =>
          if cls c then k (mkState (S (pos st)) s' (Some c) (caps st)) else None
      | [] => None
      end
  | Seq r1 r2 => run multiline r1 (fun st' => run multiline r2 k st') st
  | Alt r1 r2 =>
      match run multiline r1 k st with
      | Some out => Some out
      | None => run multiline r2 k st
      end
  | Star greedy r1 =>
      (fix loop (fuel : nat) (st0 : mstate) {struct fuel} : option mstate :=
         match fuel with
         | O => k st0
         | S fuel' =>
             if greedy then
               match run multiline r1
                       (fun st' => if (pos st0 <? pos st')%nat
                                   then loop fuel' st' else None) st0 with
               | Some out => Some out
               | None => k st0
               end
             else
               match k st0 with
               | Some out => Some out
               | None =>
                   run multiline r1
                     (fun st' => if (pos st0 <? pos st')%nat
                                 then loop fuel' st' else None) st0
               end
         end) (S (length (rest st))) st
  | Group n r1 =>
      run multiline r1
        (fun st' => k (setCap n (firstn (pos st' - pos st) (rest st)) st')) st
  | Bol => if atLineStart multiline st then k st else None
  end.

(** One attempt at a given position. *)
Definition matchAt (multiline : bool) (r : regex) (p : nat)
    (before : option codeunit) (s : jsstr) : option mstate :=
  run multiline r Some (mkState p s before []).

(** The leftmost match at or after a position: its start and final state. *)
Fixpoint search (multiline : bool) (r : regex) (p : nat)
    (before : option codeunit) (s : jsstr) : option (nat * mstate) :=
  match matchAt multiline r p before s with
  | Some st => Some (p, st)
  | None =>
      match s with
      | [] => None
      | c :: s' => search multiline r (S p) (Some c) s'
      end
  end.

(** [re.test(s)] for a pattern without the [g] flag. *)
Definition test (multiline : bool) (r : regex) (s : jsstr) : bool :=
  match search multiline r 0 None s with
  | Some _ => true
  | None => false
  end.

(** Replacement strings: literal text and [$n] references. *)
Inductive rpiece :=
| RLit (text : jsstr)
| RGroup (n : nat).

Definition expand (repl : list rpiece) (cs : list (nat * jsstr)) : jsstr :=
  concat (map (fun p => match p with
                        | RLit text => text
                        | RGroup n => getCap n cs
                        end) repl).

(** [s.replace(re, repl)] for a pattern without the [g] flag: the leftmost
    match only. *)
Definition replaceFirst (multiline : bool) (r : regex) (repl : list rpiece)
    (s : jsstr) : jsstr :=
  match search multiline r 0 None s with
  | Some (i, st) => firstn i s ++ expand repl (caps st) ++ rest st
  | None => s
  end.

(** [s.replace(re, repl)] for a pattern with the [g] flag: every match, left
    to right, the search resuming where the last match ended (one code unit
    further after an empty match).  [skip] counts the code units of a match
    that is being stepped over. *)
Fixpoint replaceGo (multiline : bool) (r : regex) (repl : list rpiece)
    (p : nat) (before : option codeunit) (s : jsstr) (skip : nat) : jsstr :=
  match skip with
  | S skip' =>
      match s with
      | [] => []
      | c :: s' => replaceGo multiline r repl (S p) (Some c) s' skip'
      end
  | O =>
      match matchAt multiline r p before s with
      | Some st =>
          expand repl (caps st) ++
          match (pos st - p)%nat, s with
          | _, [] => []
          | O, c :: s' => c :: replaceGo multiline r repl (S p) (Some c) s' 0
          | S n, c :: s' => replaceGo multiline r repl (S p) (Some c) s' n
          end
      | None =>
          match s with
          | [] => []
          | c :: s' => c :: replaceGo multiline r repl (S p) (Some c) s' 0
          end
      end
  end.

Definition replaceAll (multiline : bool) (r : regex) (repl : list rpiece)
    (s : jsstr) : jsstr :=
  replaceGo multiline r repl 0 None s 0.

(** Derived forms. *)
Definition one (c : N) : regex := Chr (N.eqb c).
Definition notOne (c : N) : regex := Chr (fun d => negb (N.eqb c d)).
Definition anyUnit : regex := Chr (fun _ => true).
Definition dot : regex := Chr (fun c => negb (isLineTerminator c)).
Definition white : regex := Chr isWhite.
Definition digit : regex := Chr isDigit.
Definition plus (r : regex) : regex := Seq r (Star true r).
Definition opt (r : regex) : regex := Alt r Eps.

Fixpoint str (s : jsstr) : regex :=
  match s with
  | [] => Eps
  | c :: s' => Seq (one c) (str s')
  end.

(** A letter under the [i] flag. *)
Definition letterCI (lower upper : N) : regex :=
  Chr (fun c => N.eqb c lower || N.eqb c upper).

Fixpoint times (n : nat) (r : regex) : regex :=
  match n with
  | O => Eps
  | S k => Seq r (times k r)
  end.

Fixpoint upTo (n : nat) (r : regex) : regex :=
  match n with
  | O => Eps
  | S k => Alt (Seq r (upTo k r)) Eps
  end.

(** [r{lo,hi}], greedy. *)
Definition between (lo hi : nat) (r : regex) : regex :=
  Seq (times lo r) (upTo (hi - lo) r).

End Regex.

Import Regex.

(** ** Line-prefix operation *)

(** The line block around a selection.  [prefixLines] and
    [insertNumberedList] both compute it with the same three statements:
    [lineStart] is one past the last line feed before [start]; [lineEnd] is
    the first line feed from [end] on, or the end of the buffer when
    [indexOf] answers -1. *)
Definition lineStartOf (fullText : jsstr) (start : Z) : Z :=
  let beforeCursor := substring fullText 0 start in
  lastIndexOf beforeCursor nl + 1.

Definition lineEndOf (fullText : jsstr) (end_ : Z) : Z :=
  let afterCursor := substringFrom fullText end_ in
  let lineEndPos := end_ + indexOf afterCursor nl in
  if lineEndPos =? end_ - 1 then len fullText else lineEndPos.

(** The lines of the block. *)
Definition blockLines (ta : textarea) : list jsstr :=
  let fullText := value ta in
  let lineStart := lineStartOf fullText (selectionStart ta) in
  let lineEnd := lineEndOf fullText (selectionEnd ta) in
  split (substring fullText lineStart lineEnd) nl.

(** The toggle decision of [prefixLines]. *)
Definition allPrefixed (prefix : jsstr) (toggleable : bool)
    (lines : list jsstr) : bool :=
  toggleable && forallb (fun line => startsWith (trim line) (trim prefix)) lines.

(** The removal branch, on one line. *)
Definition removePrefix (prefix line : jsstr) : jsstr :=
  let trimmed := trimStart line in
  if startsWith trimmed (trim prefix) then
    let spaces := (length line - length trimmed)%nat in
    repeatStr [SP] spaces ++ substringFrom trimmed (len (trim prefix))
  else line.

(** The addition branch, on one line. *)
Definition addPrefix (prefix line : jsstr) : jsstr :=
  match trim line with
  | [] => line
  | _ => prefix ++ line
  end.

Definition prefixLines (ta : textarea) (prefix : jsstr) (toggleable : bool)
    : textarea :=
  let fullText := value ta in
  let lineStart := lineStartOf fullText (selectionStart ta) in
  let lineEnd := lineEndOf fullText (selectionEnd ta) in
  let lines := blockLines ta in
  let newLines :=
    if allPrefixed prefix toggleable lines
    then map (removePrefix prefix) lines
    else map (addPrefix prefix) lines in
  let newSelection := join nl newLines in
  let newText :=
    substring fullText 0 lineStart ++ newSelection
    ++ substringFrom fullText lineEnd in
  setSelectionRange (setValue ta newText)
    lineStart (lineStart + len newSelection).

(** ** Numbered list *)

(** [/^\d+\.\s/] *)
Definition reNumbered : regex :=
  Seq Bol (Seq (plus digit) (Seq (one 46) white)).

(** [/^\s*\d+\.\s/] *)
Definition reLeadingNumber : regex :=
  Seq Bol (Seq (Star true white) (Seq (plus digit) (Seq (one 46) white))).

(** The addition branch: [counter] is bumped on non-blank lines only. *)
Fixpoint numberLines (counter : nat) (lines : list jsstr) : list jsstr :=
  match lines with
  | [] => []
  | line :: rest =>
      match trim line with
      | [] => line :: numberLines counter rest
      | _ => (ofNat counter ++ lit ". " ++ line) :: numberLines (S counter) rest
      end
  end.

Definition insertNumberedList (ta : textarea) : textarea :=
  let start := selectionStart ta in
  let end_ := selectionEnd ta in
  let fullText := value ta in
  let beforeCursor := substring fullText 0 start in
  let selection := substring fullText start end_ in
  let afterCursor := substringFrom fullText end_ in
  match selection with
  | [] =>
      let newText := beforeCursor ++ lit "1. item" ++ afterCursor in
      setSelectionRange (setValue ta newText) (start + 3) (start + 7)
  | _ :: _ =>
      let lineStart := lineStartOf fullText start in
      let lineEnd := lineEndOf fullText end_ in
      let lines := blockLines ta in
      let alreadyNumbered :=
        forallb (fun line => test false reNumbered (trim line)) lines in
      let newLines :=
        if alreadyNumbered
        then map (replaceFirst false reLeadingNumber []) lines
        else numberLines 1 lines in
      let newSelection := join nl newLines in
      let newText :=
        substring fullText 0 lineStart ++ newSelection
        ++ substringFrom fullText lineEnd in
      setSelectionRange (setValue ta newText)
        lineStart (lineStart + len newSelection)
  end.

(** ** Link insertion *)

(** What the prompt capability receives: a message, a default value and
    the callback, which runs later on the textarea as it then is, with the
    entered string or [None] for a cancelled prompt.  A callback answers
    [None] when it throws. *)
Record promptRequest := mkPrompt {
  message : jsstr;
  defaultValue : jsstr;
  callback : option jsstr -> textarea -> option textarea
}.

(** [/^https?:\/\/.+/i] *)
Definition urlRegex : regex :=
  Seq Bol
    (Seq (letterCI 104 72)
       (Seq (letterCI 116 84)
          (Seq (letterCI 116 84)
             (Seq (letterCI 112 80)
                (Seq (opt (letterCI 115 83))
                   (Seq (str (lit "://")) (plus dot))))))).

Definition insertLink (ta : textarea) : promptRequest :=
  let start := selectionStart ta in
  let end_ := selectionEnd ta in
  let selectedText := substring (value ta) start end_ in
  let isUrl := test false urlRegex (trim selectedText) in
  if isUrl then
    mkPrompt (lit "Link text:") (lit "link text")
      (fun answer live =>
         match answer with
         | Some text =>
             let markdown :=
               lit "[" ++ text ++ lit "](" ++ trim selectedText ++ lit ")" in
             let beforeText := substring (value live) 0 start in
             let afterText := substringFrom (value live) end_ in
             Some (setSelectionRange
                     (setValue live (beforeText ++ markdown ++ afterText))
                     start (start + len markdown))
         | None => Some live
         end)
  else
    let linkText :=
      match selectedText with [] => lit "link text" | _ => selectedText end in
    mkPrompt (lit "Enter URL:") (lit "https://")
      (fun answer live =>
         match answer with
         | Some url =>
             match trim url with
             | [] => Some live
             | _ =>
                 let markdown :=
                   lit "[" ++ linkText ++ lit "](" ++ trim url ++ lit ")" in
                 let beforeText := substring (value live) 0 start in
                 let afterText := substringFrom (value live) end_ in
                 let ta1 := setValue live (beforeText ++ markdown ++ afterText) in
                 Some (match selectedText with
                       | [] => setSelectionRange ta1
                                 (start + 1) (start + 1 + len linkText)
                       | _ => setSelectionRange ta1 start (start + len markdown)
                       end)
             end
         | None => Some live
         end).

(** ** Structural insertions *)

Definition insertHorizontalRule (ta : textarea) : textarea :=
  let start := selectionStart ta in
  let end_ := selectionEnd ta in
  let fullText := value ta in
  let before := substring fullText 0 start in
  let after := substringFrom fullText end_ in
  let insertion := lit "---" in
  let insertion :=
    if negb (endsWith before (nl ++ nl)) && (0 <? len before)
    then (if endsWith before nl then nl else nl ++ nl) ++ insertion
    else insertion in
  let insertion :=
    if negb (startsWith after (nl ++ nl)) && (0 <? len after)
    then insertion ++ (if startsWith after nl then nl else nl ++ nl)
    else if len after =? 0 then insertion ++ nl
    else insertion in
  replaceSelection ta insertion false.

(** [Math.max(lo, Math.min(hi, x | 0))] *)
Definition clampInt (lo hi x : Z) : Z := Z.max lo (Z.min hi (toInt32 x)).

(** [Array.from({ length: n }, (_, i) => f(i))] *)
Definition arrayFrom {A : Type} (n : Z) (f : nat -> A) : list A :=
  map f (seq 0 (Z.to_nat n)).

Definition tableRow (cells : list jsstr) : jsstr :=
  lit "| " ++ join (lit " | ") cells ++ lit " |".

Definition tableLines (cols rows : Z) : list jsstr :=
  let cols := clampInt 2 6 cols in
  let rows := clampInt 2 10 rows in
  let headers := arrayFrom cols (fun i => lit "Header " ++ ofNat (i + 1)) in
  let aligns := arrayFrom cols (fun _ => lit "---") in
  let body :=
    arrayFrom rows (fun r =>
      arrayFrom cols (fun c =>
        lit "Cell " ++ ofNat (r + 1) ++ lit "." ++ ofNat (c + 1))) in
  [tableRow headers; tableRow aligns] ++ map tableRow body.

Definition insertTable (ta : textarea) (cols rows : Z) : textarea :=
  replaceSelection ta (join nl (tableLines cols rows)) true.

(** ** Clear formatting *)

Definition backtick : N := 96.
Definition star : N := 42.
Definition tilde : N := 126.

(** A pass of [clearFormatting]: the pattern as the source writes it, its
    [m] flag and its term.  Every pass is a global replace by [$1]. *)
Record pass := mkPass {
  source : String.string;
  multiline : bool;
  pattern : regex
}.

(** The passes, in the order of the source. *)
Definition clearPasses : list pass :=
  [ mkPass "/```[^\n]*\n([\s\S]*?)\n```/g" false
      (Seq (str (lit "```"))
         (Seq (Star true (notOne LF))
            (Seq (one LF)
               (Seq (Group 1 (Star false anyUnit))
                  (Seq (one LF) (str (lit "```")))))));
    mkPass "/`([^`]+)`/g" false
      (Seq (one backtick)
         (Seq (Group 1 (plus (notOne backtick))) (one backtick)));
    mkPass "/\*\*([^*]+)\*\*/g" false
      (Seq (str (lit "**"))
         (Seq (Group 1 (plus (notOne star))) (str (lit "**"))));
    mkPass "/\*([^*\n]+)\*/g" false
      (Seq (one star)
         (Seq (Group 1 (plus (Chr (fun c =>
                                negb (N.eqb c star || N.eqb c LF)))))
            (one star)));
    mkPass "/~~([^~]+)~~/g" false
      (Seq (str (lit "~~"))
         (Seq (Group 1 (plus (notOne tilde))) (str (lit "~~"))));
    mkPass "/>!([\s\S]*?)!</g" false
      (Seq (str (lit ">!"))
         (Seq (Group 1 (Star false anyUnit)) (str (lit "!<"))));
    mkPass "/\[([^\]]+)\]\(([^)]+)\)/g" false
      (Seq (one 91)
         (Seq (Group 1 (plus (notOne 93)))
            (Seq (str (lit "]("))
               (Seq (Group 2 (plus (notOne 41))) (one 41)))));
    mkPass "/^(\s*)#{1,6}\s+/gm" true
      (Seq Bol (Seq (Group 1 (Star true white))
                  (Seq (between 1 6 (one 35)) (plus white))));
    mkPass "/^(\s*)>\s+/gm" true
      (Seq Bol (Seq (Group 1 (Star true white))
                  (Seq (one 62) (plus white))));
    mkPass "/^(\s*)-\s+/gm" true
      (Seq Bol (Seq (Group 1 (Star true white))
                  (Seq (one 45) (plus white))));
    mkPass "/^(\s*)\d+\.\s+/gm" true
      (Seq Bol (Seq (Group 1 (Star true white))
                  (Seq (plus digit) (Seq (one 46) (plus white))))) ].

Definition applyPass (out : jsstr) (p : pass) : jsstr :=
  replaceAll (multiline p) (pattern p) [RGroup 1] out.

Definition clearText (selected : jsstr) : jsstr :=
  fold_left applyPass clearPasses selected.

Definition clearFormatting (ta : textarea) : textarea :=
  let selected := substring (value ta) (selectionStart ta) (selectionEnd ta) in
  match selected with
  | [] => ta
  | _ => replaceSelection ta (clearText selected) true
  end.

(** ** Snippets *)

Definition insertSnippet (ta : textarea) (template : jsstr) : textarea :=
  let selected := substring (value ta) (selectionStart ta) (selectionEnd ta) in
  match template with
  | [] => ta
  | _ =>
      let out := join selected (split template (lit "{selection}")) in
      replaceSelection ta out true
  end.

(** ** Headings *)

(** [insertHeading(textarea, level = 3)]: [None] for [level] stands for
    an omitted argument; the result is [None] when
    ['#'.repeat(level) + ' '] throws. *)
Definition insertHeading (ta : textarea) (level : option Z) : option textarea :=
  let level := match level with Some l => l | None => 3 end in
  match repeatZ (lit "#") level with
  | Some hashes =>
      match concatZ hashes (lit " ") with
      | Some prefix => Some (prefixLines ta prefix false)
      | None => None
      end
  | None => None
  end.

(** [a || b] on numbers: [b] when [a] is 0 (or NaN, here [None]). *)
Definition orElse (a : option Z) (b : Z) : Z :=
  match a with
  | Some 0 | None => b
  | Some x => x
  end.

(** [Math.max(1, Math.min(6, (settings?.headingLevel | 0) || 3))], with
    [None] for a missing setting. *)
Definition defaultLevel (headingLevel : option Z) : Z :=
  let asInt := match headingLevel with Some x => toInt32 x | None => 0 end in
  Z.max 1 (Z.min 6 (orElse (Some asInt) 3)).

Fixpoint digitsValue (acc : Z) (s : jsstr) : Z :=
  match s with
  | c :: s' =>
      if isDigit c then digitsValue (10 * acc + (Z.of_N c - 48)) s' else acc
  | [] => acc
  end.

(** [parseInt(s, 10)]: leading white space, an optional sign, then the
    longest run of digits; NaN ([None]) when there is no digit. *)
Definition parseInt10 (s : jsstr) : option Z :=
  let s := trimStart s in
  let '(sign, s) :=
    match s with
    | 45%N :: s' => (-1, s')
    | 43%N :: s' => (1, s')
    | _ => (1, s)
    end in
  match s with
  | c :: _ => if isDigit c then Some (sign * digitsValue 0 s) else None
  | [] => None
  end.

(** The result of a toolbar action: the operation ran (and possibly
    threw), or a prompt was opened. *)
Inductive actionResult :=
| Ran (result : option textarea)
| Prompted (request : promptRequest).

(** The action of the heading button of the toolbar. *)
Definition headingAction (ta : textarea) (headingLevel : option Z)
    (shiftKey : bool) : actionResult :=
  let dflt := defaultLevel headingLevel in
  if shiftKey then
    Prompted
      (mkPrompt (lit "Heading level (1-6):") (ofNat (Z.to_nat dflt))
         (fun answer live =>
            match answer with
            | None => Some live
            | Some val =>
                let n := Z.max 1 (Z.min 6 (orElse (parseInt10 val) dflt)) in
                insertHeading live (Some n)
            end))
  else Ran (insertHeading ta (Some dflt)).

(** ** The exported operations *)

Definition bold ta := wrapText ta (lit "**") (lit "**") (lit "bold text").
Definition inlineCode ta := wrapText ta (lit "`") (lit "`") (lit "code").
Definition quote ta := prefixLines ta (lit "> ") true.
Definition spoiler ta := wrapText ta (lit ">!") (lit "!<") (lit "spoiler").

(** ** The operations as one type *)

(** The operations of the engine, with their arguments.  [OpLinkConfirm]
    is the callback of [insertLink] run with a confirmed prompt value. *)
Inductive operation :=
| OpWrap (prefix suffix placeholder : jsstr)
| OpPrefixLines (prefix : jsstr) (toggleable : bool)
| OpNumberedList
| OpHorizontalRule
| OpTable (cols rows : Z)
| OpClearFormatting
| OpSnippet (template : jsstr)
| OpLinkConfirm (answer : jsstr).

Definition applyOp (op : operation) (ta : textarea) : option textarea :=
  match op with
  | OpWrap prefix suffix placeholder =>
      Some (wrapText ta prefix suffix placeholder)
  | OpPrefixLines prefix toggleable => Some (prefixLines ta prefix toggleable)
  | OpNumberedList => Some (insertNumberedList ta)
  | OpHorizontalRule => Some (insertHorizontalRule ta)
  | OpTable cols rows => Some (insertTable ta cols rows)
  | OpClearFormatting => Some (clearFormatting ta)
  | OpSnippet template => Some (insertSnippet ta template)
  | OpLinkConfirm answer => callback (insertLink ta) (Some answer) ta
  end.

(** ** What an operation commits

    Every operation ends by assigning a new buffer to [textarea.value] and
    passing two offsets to [setSelectionRange].  The definitions below give
    that buffer and those offsets as the source computes them, before the
    host sees them. *)

(** The insertion of [insertHorizontalRule]: the rule with the line feeds
    that separate it from the text around it. *)
Definition ruleInsertion (before after : jsstr) : jsstr :=
  let insertion := lit "---" in
  let insertion :=
    if negb (endsWith before (nl ++ nl)) && (0 <? len before)
    then (if endsWith before nl then nl else nl ++ nl) ++ insertion
    else insertion in
  if negb (startsWith after (nl ++ nl)) && (0 <? len after)
  then insertion ++ (if startsWith after nl then nl else nl ++ nl)
  else if len after =? 0 then insertion ++ nl
  else insertion.

(** The commit of [replaceSelection]. *)
Definition replaceArgs (ta : textarea) (replacement : jsstr)
    (selectReplacement : bool) : jsstr * Z * Z :=
  let start := selectionStart ta in
  let newText :=
    substring (value ta) 0 start ++ replacement
    ++ substringFrom (value ta) (selectionEnd ta) in
  if selectReplacement
  then (newText, start, start + len replacement)
  else (newText, start + len replacement, start + len replacement).

(** The commit of an operation: the new buffer, then the two arguments of
    [setSelectionRange]; [None] when the operation returns without touching
    the textarea. *)
Definition commitArgs (op : operation) (ta : textarea)
    : option (jsstr * Z * Z) :=
  let start := selectionStart ta in
  let end_ := selectionEnd ta in
  let fullText := value ta in
  let selected := substring fullText start end_ in
  let before := substring fullText 0 start in
  let after := substringFrom fullText end_ in
  match op with
  | OpWrap prefix suffix placeholder =>
      match selected with
      | _ :: _ =>
          if endsWith before prefix && startsWith after suffix
             && JS.eqb prefix suffix
          then Some (slice before 0 (- len prefix) ++ selected
                     ++ sliceFrom after (len suffix),
                     start - len prefix, end_ - len prefix)
          else Some (before ++ prefix ++ selected ++ suffix ++ after,
                     start + len prefix, end_ + len prefix)
      | [] =>
          Some (before ++ prefix ++ placeholder ++ suffix ++ after,
                start + len prefix, start + len prefix + len placeholder)
      end
  | OpPrefixLines prefix toggleable =>
      let lineStart := lineStartOf fullText start in
      let lineEnd := lineEndOf fullText end_ in
      let lines := blockLines ta in
      let newSelection :=
        join nl (if allPrefixed prefix toggleable lines
                 then map (removePrefix prefix) lines
                 else map (addPrefix prefix) lines) in
      Some (substring fullText 0 lineStart ++ newSelection
            ++ substringFrom fullText lineEnd,
            lineStart, lineStart + len newSelection)
  | OpNumberedList =>
      match selected with
      | [] => Some (before ++ lit "1. item" ++ after, start + 3, start + 7)
      | _ :: _ =>
          let lineStart := lineStartOf fullText start in
          let lineEnd := lineEndOf fullText end_ in
          let lines := blockLines ta in
          let newSelection :=
            join nl
              (if forallb (fun line => test false reNumbered (trim line)) lines
               then map (replaceFirst false reLeadingNumber []) lines
               else numberLines 1 lines) in
          Some (substring fullText 0 lineStart ++ newSelection
                ++ substringFrom fullText lineEnd,
                lineStart, lineStart + len newSelection)
      end
  | OpHorizontalRule => Some (replaceArgs ta (ruleInsertion before after) false)
  | OpTable cols rows =>
      Some (replaceArgs ta (join nl (tableLines cols rows)) true)
  | OpClearFormatting =>
      match selected with
      | [] => None
      | _ => Some (replaceArgs ta (clearText selected) true)
      end
  | OpSnippet template =>
      match template with
      | [] => None
      | _ =>
          Some (replaceArgs ta
                  (join selected (split template (lit "{selection}"))) true)
      end
  | OpLinkConfirm answer =>
      if test false urlRegex (trim selected) then
        let markdown :=
          lit "[" ++ answer ++ lit "](" ++ trim selected ++ lit ")" in
        Some (before ++ markdown ++ after, start, start + len markdown)
      else
        match trim answer with
        | [] => None
        | _ =>
            let linkText :=
              match selected with [] => lit "link text" | _ => selected end in
            let markdown :=
              lit "[" ++ linkText ++ lit "](" ++ trim answer ++ lit ")" in
            match selected with
            | [] => Some (before ++ markdown ++ after,
                          start + 1, start + 1 + len linkText)
            | _ => Some (before ++ markdown ++ after,
                         start, start + len markdown)
            end
        end
  end.

(** The host's part in an operation: the commit handed to
    [setSelectionRange]. *)
Definition committed (ta : textarea) (args : option (jsstr * Z * Z))
    : textarea :=
  match args with
  | Some (newText, s, e) => setSelectionRange (setValue ta newText) s e
  | None => ta
  end.

(** The operations that [wrapText] is exported for pass a marker; with
    both markers empty its toggle-off branch computes offsets for the
    buffer as it was. *)
Definition marked (op : operation) : Prop :=
  match op with
  | OpWrap prefix suffix _ => prefix <> [] \/ suffix <> []
  | _ => True
  end.

(** ** Definitions used by the statements *)

(** The decision as the specification words it: every non-blank line of
    the block starts with [prefix.trim()] after its leading white space,
    blank lines not being looked at. *)
Definition everyNonBlankLinePrefixed (prefix : jsstr) (lines : list jsstr)
    : bool :=
  forallb (fun line =>
             match trim line with
             | [] => true
             | _ => startsWith (trimStart line) (trim prefix)
             end) lines.

(** What the removal branch leaves of a line that starts with
    [prefix.trim()] after its leading white space: as many spaces as the
    line had leading white-space code units, then the line without its
    leading white space and without the next [length(prefix.trim())] code
    units. *)
Definition stripped (prefix line : jsstr) : jsstr :=
  repeatStr [SP] (length line - length (trimStart line))
  ++ skipn (length (trim prefix)) (trimStart line).

(** The prefix of a heading of a given level. *)
Definition headingPrefix (level : Z) : jsstr :=
  repeatStr (lit "#") (Z.to_nat level) ++ lit " ".

(** The cells of the table, row by row, for clamped dimensions: the header
    cells, the separator cells, then the body cells. *)
Definition tableCells (cols rows : nat) : list (list jsstr) :=
  map (fun i => lit "Header " ++ ofNat i) (seq 1 cols)
  :: repeat (lit "---") cols
  :: map (fun r =>
            map (fun c => lit "Cell " ++ ofNat r ++ lit "." ++ ofNat c)
              (seq 1 cols))
       (seq 1 rows).

(** What splitting a table line at the pipes gives: an empty piece, each
    cell between two spaces, an empty piece. *)
Definition pipePieces (cells : list jsstr) : list jsstr :=
  [] :: map (fun cell => lit " " ++ cell ++ lit " ") cells ++ [[]].

(** The facts about the table block that depend on the clamped
    dimensions only, as one decidable check. *)
Definition tableShapeOk (cols rows : Z) : bool :=
  let c := Z.to_nat (clampInt 2 6 cols) in
  let r := Z.to_nat (clampInt 2 10 rows) in
  let lines := tableLines cols rows in
  (length lines =? 2 + r)%nat
  && (if list_eq_dec (list_eq_dec N.eq_dec)
           (split (join nl lines) nl) lines then true else false)
  && (if list_eq_dec (list_eq_dec (list_eq_dec N.eq_dec))
           (map (fun line => split line (lit "|")) lines)
           (map pipePieces (tableCells c r)) then true else false)
  && forallb (fun cells => (length cells =? c)%nat) (tableCells c r).

(** ** Definitions used by the further properties *)

(** The iteration that [run] performs for [Star], under a name. *)
Definition starLoop (ml : bool) (r1 : regex) (k : mstate -> option mstate)
    (greedy : bool) : nat -> mstate -> option mstate :=
  fix loop (fuel : nat) (st0 : mstate) {struct fuel} : option mstate :=
    match fuel with
    | O => k st0
    | S fuel' =>
        if greedy then
          match run ml r1
                  (fun st' => if (pos st0 <? pos st')%nat
                              then loop fuel' st' else None) st0 with
          | Some out => Some out
          | None => k st0
          end
        else
          match k st0 with
          | Some out => Some out
          | None =>
              run ml r1
                (fun st' => if (pos st0 <? pos st')%nat
                            then loop fuel' st' else None) st0
          end
    end.

(** The code unit before the position reached after reading [ds]. *)
Definition prevAfter (pv : option codeunit) (ds : jsstr) : option codeunit :=
  fold_left (fun _ d => Some d) ds pv.

(** The number of lines that are not blank. *)
Definition nonBlankCount (lines : list jsstr) : nat :=
  length (filter (fun line => match trim line with
                              | [] => false
                              | _ => true
                              end) lines).

(** [text] is a run of consecutive code units of [s]. *)
Definition Segment (text s : jsstr) : Prop :=
  exists l r, s = l ++ text ++ r.

(** [t] is [s] with some code units deleted. *)
Inductive Subseq : jsstr -> jsstr -> Prop :=
| SubseqNil : Subseq [] []
| SubseqKeep (c : codeunit) (t s : jsstr) :
    Subseq t s -> Subseq (c :: t) (c :: s)
| SubseqDrop (c : codeunit) (t s : jsstr) :
    Subseq t s -> Subseq t (c :: s).

(** A later position of the same match: [pre] was read in between and
    every capture made in between is a run of [pre]. *)
Definition Ext (st st' : mstate) : Prop :=
  exists pre,
    rest st = pre ++ rest st'
    /\ pos st' = (pos st + length pre)%nat
    /\ forall n text, In (n, text) (caps st') ->
                      In (n, text) (caps st) \/ Segment text pre.

(** Every match of the pattern reads a code unit of the class [P]. *)
Inductive Needs (P : codeunit -> bool) : regex -> Prop :=
| NeedsChr (cls : codeunit -> bool) :
    (forall c, cls c = true -> P c = true) -> Needs P (Chr cls)
| NeedsSeqL (r1 r2 : regex) : Needs P r1 -> Needs P (Seq r1 r2)
| NeedsSeqR (r1 r2 : regex) : Needs P r2 -> Needs P (Seq r1 r2)
| NeedsAlt (r1 r2 : regex) : Needs P r1 -> Needs P r2 -> Needs P (Alt r1 r2)
| NeedsGroup (n : nat) (r : regex) : Needs P r -> Needs P (Group n r).

(** The code units that start or carry the Markdown constructs which
    [clearFormatting] removes: backtick, star, tilde, greater-than, opening
    bracket, hash and hyphen. *)
Definition isMarkup (c : codeunit) : bool :=
  ((c =? 96) || (c =? 42) || (c =? 126) || (c =? 62) || (c =? 91)
   || (c =? 35) || (c =? 45))%N.

(** ** The toolbar: settings, buttons and keyboard shortcuts *)

(** A custom snippet entry of the settings. *)
Record snippet := mkSnippet {
  snEnabled : bool;
  snLabel : jsstr;
  snTemplate : jsstr
}.

(** The settings the toolbar reads: the ids of the disabled buttons, the
    default heading level ([None] when it is missing) and the snippets. *)
Record settings := mkSettings {
  sDisabledButtons : list jsstr;
  sHeadingLevel : option Z;
  sSnippets : list snippet
}.

(** A toolbar entry.  An action receives the textarea, the settings and
    the Shift state of the click; separators have none.  The markup of the
    link icon ([iconHtml]) is left out. *)
Record button := mkButton {
  buttonId : jsstr;
  isSeparator : bool;
  buttonLabel : jsstr;
  buttonIcon : jsstr;
  buttonTitle : jsstr;
  action : option (textarea -> settings -> bool -> actionResult)
}.

Definition separator (id : jsstr) : button :=
  mkButton id true [] [] [] None.

Definition ran (op : textarea -> textarea)
    : option (textarea -> settings -> bool -> actionResult) :=
  Some (fun ta _ _ => Ran (Some (op ta))).


(** [buildSnippetButtons]: a button for every enabled snippet whose
    trimmed label and whose template are not empty; [i] is the index of the
    snippet in the settings. *)
Fixpoint buildSnippetButtonsFrom (i : nat) (sns : list snippet) : list button :=
  match sns with
  | [] => []
  | sn :: more =>
      let others := buildSnippetButtonsFrom (S i) more in
      if negb (snEnabled sn) then others
      else
        let label := trim (snLabel sn) in
        let template := snTemplate sn in
        match label, template with
        | [], _ => others
        | _, [] => others
        | _, _ =>
            mkButton (lit "snippet-" ++ ofNat i) false label
              (if len label <=? 3 then label else slice label 0 3)
              (lit "Snippet: " ++ label)
              (ran (fun ta => insertSnippet ta template))
            :: others
        end
  end.

Definition buildSnippetButtons (st : settings) : list button :=
  buildSnippetButtonsFrom 0 (sSnippets st).








(** ** The options page *)

(** A snippet row of the options form. *)
Record snippetRow := mkRow {
  rowEnabled : bool;
  rowLabel : jsstr;
  rowTemplate : jsstr
}.

(** [Number.MAX_SAFE_INTEGER], [2^53 - 1]. *)
Definition maxSafeInteger : Z := 9007199254740991.

(** The decimal digits of an integer, after a minus sign when it is
    negative. *)
Definition decimal (z : Z) : jsstr :=
  if z <? 0 then lit "-" ++ ofNat (Z.to_nat (- z)) else ofNat (Z.to_nat z).

(** [String(n)] for an integer [n]: the engine prints the decimal digits
    of a safe integer.  Beyond the safe integers a number prints digits
    that are rounded and, from [1e21] on, a mantissa and an exponent
    (["1e+21"]); that is not modelled, the answer is [None] there. *)
Definition ofInt (z : Z) : option jsstr :=
  if Z.abs z <=? maxSafeInteger then Some (decimal z) else None.

(** [loadSettings]: what is put into the heading level field,
    [String(settings.headingLevel || 3)]. *)
Definition loadHeadingLevel (stored : option Z) : option jsstr :=
  ofInt (orElse stored 3).

(** [saveSettings]: the heading level that is stored,
    [Math.max(1, Math.min(6, parseInt(value, 10) || 3))]. *)
Definition saveHeadingLevel (field : jsstr) : Z :=
  Z.max 1 (Z.min 6 (orElse (parseInt10 field) 3)).

(** [saveSettings]: the snippets that are stored, one for every row of the
    form whose trimmed label or whose template is not empty. *)
Definition saveSnippets (rows : list snippetRow) : list snippet :=
  flat_map (fun row =>
              let label := trim (rowLabel row) in
              let template := rowTemplate row in
              match label, template with
              | [], [] => []
              | _, _ => [mkSnippet (rowEnabled row) label template]
              end) rows.

(** ** Injecting once *)

(** The textareas that were marked as processed (the keys of the weak map
    of the detector, here by an identifier) and the log of the calls of
    [ToolbarManager.inject]. *)
Record scanState := mkScan {
  processed : list nat;
  injected : list nat
}.

Definition isProcessed (st : scanState) (textareaId : nat) : bool :=
  existsb (Nat.eqb textareaId) (processed st).

(** [processTextarea] of the content script. *)
Definition processTextarea (st : scanState) (textareaId : nat) : scanState :=
  if isProcessed st textareaId then st
  else mkScan (textareaId :: processed st) (injected st ++ [textareaId]).

(** * Properties *)

(** ** Strings *)

Section StringFacts.

Lemma len_nonneg (s : jsstr) : 0 <= len s.
Proof. unfold len. lia. Qed.

Lemma len_app (s t : jsstr) : len (s ++ t) = len s + len t.
Proof. unfold len. rewrite length_app. lia. Qed.

Lemma len_nil : len [] = 0.
Proof. reflexivity. Qed.

Lemma len_cons (c : codeunit) (s : jsstr) : len (c :: s) = 1 + len s.
Proof. unfold len. cbn [length]. lia. Qed.

Lemma clampIdx_inside (s : jsstr) (i : Z) :
  0 <= i <= len s -> clampIdx s i = Z.to_nat i.
Proof. intros H. unfold clampIdx. f_equal. lia. Qed.

Lemma clampIdx_len (b t : jsstr) : clampIdx (b ++ t) (len b) = length b.
Proof.
  rewrite clampIdx_inside.
  - unfold len. apply Nat2Z.id.
  - rewrite len_app. pose proof (len_nonneg b). pose proof (len_nonneg t). lia.
Qed.

Lemma clampIdx_le (s : jsstr) (i : Z) : (clampIdx s i <= length s)%nat.
Proof. unfold clampIdx, len. lia. Qed.

Lemma skipn_len_app (b t : jsstr) : skipn (length b) (b ++ t) = t.
Proof.
  rewrite skipn_app, skipn_all, Nat.sub_diag. reflexivity.
Qed.

Lemma firstn_len_app (b t : jsstr) : firstn (length b) (b ++ t) = b.
Proof.
  rewrite firstn_app, firstn_all, Nat.sub_diag, firstn_O, app_nil_r.
  reflexivity.
Qed.

(** The three pieces every operation cuts the buffer into. *)
Lemma substring_before (b t : jsstr) : substring (b ++ t) 0 (len b) = b.
Proof.
  unfold substring. rewrite clampIdx_len.
  replace (clampIdx (b ++ t) 0) with 0%nat by (unfold clampIdx; lia).
  rewrite Nat.max_r, Nat.min_l, Nat.sub_0_r by lia.
  cbn [skipn]. apply firstn_len_app.
Qed.

Lemma substringFrom_after (b t : jsstr) : substringFrom (b ++ t) (len b) = t.
Proof.
  unfold substringFrom. rewrite clampIdx_len. apply skipn_len_app.
Qed.

Lemma substring_middle (b s t : jsstr) :
  substring (b ++ s ++ t) (len b) (len b + len s) = s.
Proof.
  unfold substring. rewrite clampIdx_len.
  replace (clampIdx (b ++ s ++ t) (len b + len s))
    with (length b + length s)%nat.
  - rewrite Nat.max_r, Nat.min_l by lia.
    rewrite skipn_len_app.
    replace (length b + length s - length b)%nat with (length s) by lia.
    apply firstn_len_app.
  - rewrite clampIdx_inside.
    + unfold len. lia.
    + rewrite !len_app.
      pose proof (len_nonneg b). pose proof (len_nonneg s).
      pose proof (len_nonneg t). lia.
Qed.

Lemma substringFrom_after2 (b s t : jsstr) :
  substringFrom (b ++ s ++ t) (len b + len s) = t.
Proof.
  rewrite app_assoc, <- len_app. apply substringFrom_after.
Qed.

Lemma substring_prefix_len (s : jsstr) (a : Z) :
  0 <= a <= len s -> len (substring s 0 a) = a.
Proof.
  intros H. unfold substring.
  rewrite (clampIdx_inside s a H).
  replace (clampIdx s 0) with 0%nat by (unfold clampIdx; lia).
  rewrite Nat.max_r, Nat.min_l, Nat.sub_0_r by lia.
  cbn [skipn]. unfold len in *. rewrite length_firstn. lia.
Qed.

Lemma substring_prefix_firstn (s : jsstr) (a : Z) :
  0 <= a <= len s -> substring s 0 a = firstn (Z.to_nat a) s.
Proof.
  intros H. unfold substring.
  rewrite (clampIdx_inside s a H).
  replace (clampIdx s 0) with 0%nat by (unfold clampIdx; lia).
  rewrite Nat.max_r, Nat.min_l, Nat.sub_0_r by lia.
  reflexivity.
Qed.

Lemma substringFrom_skipn (s : jsstr) (a : Z) :
  0 <= a <= len s -> substringFrom s a = skipn (Z.to_nat a) s.
Proof.
  intros H. unfold substringFrom. rewrite (clampIdx_inside s a H).
  reflexivity.
Qed.

(** A valid selection cuts the buffer into before, selected and after. *)
Lemma buffer_split (s : jsstr) (a e : Z) :
  0 <= a -> a <= e -> e <= len s ->
  s = substring s 0 a ++ substring s a e ++ substringFrom s e
  /\ len (substring s 0 a) = a
  /\ len (substring s a e) = e - a.
Proof.
  intros Ha Hae He.
  assert (Hmid : substring s a e
                 = firstn (Z.to_nat e - Z.to_nat a) (skipn (Z.to_nat a) s)).
  { unfold substring. rewrite !clampIdx_inside by lia.
    rewrite Nat.max_r, Nat.min_l by lia. reflexivity. }
  rewrite Hmid, substring_prefix_firstn, substringFrom_skipn by lia.
  repeat split.
  - replace (skipn (Z.to_nat e) s)
      with (skipn (Z.to_nat e - Z.to_nat a) (skipn (Z.to_nat a) s)).
    + rewrite !firstn_skipn. reflexivity.
    + rewrite skipn_skipn. f_equal. lia.
  - unfold len in *. rewrite length_firstn. lia.
  - unfold len in *. rewrite length_firstn, length_skipn. lia.
Qed.

Lemma startsWith_app (p t : jsstr) : startsWith (p ++ t) p = true.
Proof.
  induction p as [|c p IH]; cbn; [reflexivity|].
  rewrite N.eqb_refl. exact IH.
Qed.

Lemma startsWith_split (s p : jsstr) :
  startsWith s p = true -> exists t, s = p ++ t.
Proof.
  revert s. induction p as [|c p IH]; intros s H.
  - exists s. reflexivity.
  - destruct s as [|d s]; cbn in H; [discriminate|].
    apply andb_true_iff in H. destruct H as [Hc Hp].
    apply N.eqb_eq in Hc. subst d.
    destruct (IH s Hp) as [t ->]. exists t. reflexivity.
Qed.

Lemma endsWith_app (b p : jsstr) : endsWith (b ++ p) p = true.
Proof.
  unfold endsWith. rewrite rev_app_distr. apply startsWith_app.
Qed.

Lemma endsWith_split (s p : jsstr) :
  endsWith s p = true -> exists b, s = b ++ p.
Proof.
  unfold endsWith. intros H.
  destruct (startsWith_split _ _ H) as [t Ht].
  exists (rev t).
  rewrite <- (rev_involutive s), Ht, rev_app_distr, rev_involutive.
  reflexivity.
Qed.

Lemma eqb_refl (s : jsstr) : JS.eqb s s = true.
Proof. unfold JS.eqb. destruct (list_eq_dec N.eq_dec s s); congruence. Qed.

Lemma eqb_eq (s t : jsstr) : JS.eqb s t = true -> s = t.
Proof. unfold JS.eqb. destruct (list_eq_dec N.eq_dec s t); congruence. Qed.

Lemma slice_drop_suffix (b p : jsstr) :
  p <> [] -> slice (b ++ p) 0 (- len p) = b.
Proof.
  intros Hp. unfold slice, sliceIdx.
  assert (0 < len p) by (destruct p; [congruence | rewrite len_cons; pose proof (len_nonneg p); lia]).
  destruct (0 <? 0) eqn:E0; [discriminate|].
  destruct (- len p <? 0) eqn:E1; [|apply Z.ltb_ge in E1; lia].
  rewrite len_app.
  replace (Z.to_nat (Z.min 0 (len b + len p))) with 0%nat
    by (pose proof (len_nonneg b); lia).
  replace (Z.to_nat (Z.max (len b + len p + - len p) 0)) with (length b)
    by (unfold len; lia).
  rewrite Nat.sub_0_r. cbn [skipn]. apply firstn_len_app.
Qed.

Lemma sliceFrom_drop_prefix (p t : jsstr) : sliceFrom (p ++ t) (len p) = t.
Proof.
  unfold sliceFrom, sliceIdx.
  destruct (len p <? 0) eqn:E; [apply Z.ltb_lt in E; pose proof (len_nonneg p); lia|].
  rewrite len_app.
  replace (Z.to_nat (Z.min (len p) (len p + len t))) with (length p)
    by (unfold len; lia).
  apply skipn_len_app.
Qed.

End StringFacts.

(** ** Line boundaries *)

Section LineBounds.

Lemma startsWith_len (s p : jsstr) : startsWith s p = true -> len p <= len s.
Proof.
  intros H. destruct (startsWith_split _ _ H) as [t ->].
  rewrite len_app. pose proof (len_nonneg t). lia.
Qed.

Lemma indexOfFrom_bounds (p s : jsstr) (i : Z) :
  indexOfFrom p s i = -1 \/
  (i <= indexOfFrom p s i /\ indexOfFrom p s i + len p <= i + len s).
Proof.
  revert i. induction s as [|c s IH]; intros i; cbn [indexOfFrom].
  - destruct (startsWith [] p) eqn:E; [right | left; reflexivity].
    apply startsWith_len in E. lia.
  - destruct (startsWith (c :: s) p) eqn:E.
    + right. apply startsWith_len in E. lia.
    + destruct (IH (i + 1)) as [H | H]; [left; exact H | right].
      rewrite len_cons. lia.
Qed.

Lemma lastIndexOfFrom_bounds (p s : jsstr) (i r : Z) :
  lastIndexOfFrom p s i = Some r -> i <= r /\ r + len p <= i + len s.
Proof.
  revert i. induction s as [|c s IH]; intros i; cbn [lastIndexOfFrom].
  - destruct (startsWith [] p) eqn:E; [|discriminate].
    intros [= <-]. apply startsWith_len in E. lia.
  - destruct (lastIndexOfFrom p s (i + 1)) as [r'|] eqn:E.
    + intros [= <-]. apply IH in E. rewrite len_cons. lia.
    + destruct (startsWith (c :: s) p) eqn:E'; [|discriminate].
      intros [= <-]. apply startsWith_len in E'. lia.
Qed.

Lemma lineStartOf_bounds (s : jsstr) (a : Z) :
  0 <= a <= len s -> 0 <= lineStartOf s a <= a.
Proof.
  intros H. unfold lineStartOf, lastIndexOf.
  pose proof (substring_prefix_len s a H) as Hlen.
  destruct (lastIndexOfFrom nl (substring s 0 a) 0) as [r|] eqn:E; [|lia].
  apply lastIndexOfFrom_bounds in E.
  change (len nl) with 1 in E. lia.
Qed.

Lemma lineEndOf_bounds (s : jsstr) (e : Z) :
  0 <= e <= len s -> e <= lineEndOf s e <= len s.
Proof.
  intros H. unfold lineEndOf, indexOf.
  assert (Hlen : len (substringFrom s e) = len s - e).
  { rewrite substringFrom_skipn by exact H.
    unfold len in *. rewrite length_skipn. lia. }
  destruct (indexOfFrom_bounds nl (substringFrom s e) 0) as [E | E].
  - rewrite E. replace (e + -1 =? e - 1) with true; [lia|].
    symmetry. apply Z.eqb_eq. lia.
  - change (len nl) with 1 in E.
    destruct (e + indexOfFrom nl (substringFrom s e) 0 =? e - 1) eqn:T.
    + apply Z.eqb_eq in T. lia.
    + lia.
Qed.

End LineBounds.

(** ** The selection that an operation commits *)

Section Commit.

Lemma setSelectionRange_valid (ta : textarea) (s e : Z) :
  validSelection (setSelectionRange ta s e).
Proof.
  unfold validSelection, setSelectionRange. cbn.
  pose proof (len_nonneg (value ta)). lia.
Qed.

Lemma setSelectionRange_inside (ta : textarea) (s e : Z) :
  0 <= s -> s <= e -> e <= len (value ta) ->
  setSelectionRange ta s e = mkTextarea (value ta) s e.
Proof.
  intros Hs Hse He. unfold setSelectionRange. f_equal; lia.
Qed.

(** A textarea whose selection is valid, seen through its three pieces. *)
Lemma textarea_split (ta : textarea) :
  validSelection ta ->
  exists b s t,
    ta = mkTextarea (b ++ s ++ t) (len b) (len b + len s).
Proof.
  destruct ta as [v a e]. intros (Ha & Hae & He). cbn in *.
  destruct (buffer_split v a e Ha Hae He) as (Hv & Hb & Hs).
  exists (substring v 0 a), (substring v a e), (substringFrom v e).
  rewrite <- Hv, Hb, Hs. f_equal. lia.
Qed.

Lemma replaceSelection_pieces (b s t r : jsstr) (keep : bool) :
  replaceSelection (mkTextarea (b ++ s ++ t) (len b) (len b + len s)) r keep
  = if keep
    then mkTextarea (b ++ r ++ t) (len b) (len b + len r)
    else mkTextarea (b ++ r ++ t) (len b + len r) (len b + len r).
Proof.
  unfold replaceSelection. cbn [value selectionStart selectionEnd].
  rewrite substring_before, substringFrom_after2.
  pose proof (len_nonneg b). pose proof (len_nonneg r).
  pose proof (len_nonneg t).
  destruct keep; rewrite setSelectionRange_inside; unfold setValue;
    cbn [value]; rewrite ?len_app; try lia; reflexivity.
Qed.

(** Wrapping, on the pieces. *)
Lemma wrapText_wrap (b s t prefix suffix ph : jsstr) :
  s <> [] ->
  endsWith b prefix && startsWith t suffix && JS.eqb prefix suffix = false ->
  wrapText (mkTextarea (b ++ s ++ t) (len b) (len b + len s)) prefix suffix ph
  = mkTextarea (b ++ prefix ++ s ++ suffix ++ t)
      (len b + len prefix) (len b + len s + len prefix).
Proof.
  intros Hs Hno. unfold wrapText. cbn [value selectionStart selectionEnd].
  rewrite substring_before, substring_middle, substringFrom_after2.
  destruct s as [|c s]; [congruence|].
  rewrite Hno.
  pose proof (len_nonneg b). pose proof (len_nonneg prefix).
  pose proof (len_nonneg suffix). pose proof (len_nonneg t).
  pose proof (len_nonneg (c :: s)).
  rewrite setSelectionRange_inside; unfold setValue; cbn [value];
    rewrite ?len_app; try lia; reflexivity.
Qed.

(** Toggling off, on the pieces. *)
Lemma wrapText_unwrap (b s t m ph : jsstr) :
  s <> [] -> m <> [] ->
  wrapText (mkTextarea ((b ++ m) ++ s ++ (m ++ t))
              (len (b ++ m)) (len (b ++ m) + len s)) m m ph
  = mkTextarea (b ++ s ++ t) (len b) (len b + len s).
Proof.
  intros Hs Hm. unfold wrapText. cbn [value selectionStart selectionEnd].
  rewrite substring_before, substring_middle, substringFrom_after2.
  destruct s as [|c s]; [congruence|].
  rewrite endsWith_app, startsWith_app, eqb_refl. cbn [andb].
  rewrite slice_drop_suffix by exact Hm.
  rewrite sliceFrom_drop_prefix.
  pose proof (len_nonneg b). pose proof (len_nonneg m).
  pose proof (len_nonneg t). pose proof (len_nonneg (c :: s)).
  rewrite setSelectionRange_inside; unfold setValue; cbn [value];
    rewrite ?len_app; try lia.
  f_equal; lia.
Qed.

(** With an empty marker and a non-empty selection the toggle-off branch
    runs ([slice(0, -0)] is [slice(0, 0)]) and the offsets it computes lie
    beyond the shortened buffer: here the clamp of the host is what keeps
    the selection inside.  No exported operation passes an empty marker. *)
Lemma wrapText_empty_marker :
  wrapText (mkTextarea (lit "abcd") 2 4) [] [] (lit "text")
  = mkTextarea (lit "cd") 2 2.
Proof. reflexivity. Qed.

(** Inserting the template at a caret, on the pieces. *)
Lemma wrapText_caret (b t prefix suffix ph : jsstr) :
  wrapText (mkTextarea (b ++ t) (len b) (len b)) prefix suffix ph
  = mkTextarea (b ++ prefix ++ ph ++ suffix ++ t)
      (len b + len prefix) (len b + len prefix + len ph).
Proof.
  unfold wrapText. cbn [value selectionStart selectionEnd].
  pose proof (substring_middle b [] t) as Hmid.
  cbn [app] in Hmid. rewrite len_nil, Z.add_0_r in Hmid.
  rewrite Hmid, substring_before, substringFrom_after.
  pose proof (len_nonneg b). pose proof (len_nonneg prefix).
  pose proof (len_nonneg suffix). pose proof (len_nonneg t).
  pose proof (len_nonneg ph).
  rewrite setSelectionRange_inside; unfold setValue; cbn [value];
    rewrite ?len_app; try lia; reflexivity.
Qed.

End Commit.

(** ** Wrap round trip *)

(** C2.  For a buffer with a valid selection whose selected text is not
    empty, and a symmetric marker [m] that does not already surround the
    selection (the text before the selection ending with [m] and the text
    after it starting with [m]), [wrapText] with [(m, m)] followed by
    [wrapText] with [(m, m)] on the selection the first call returned gives
    back the original buffer and the original selection. *)
Theorem wrapText_round_trip (ta : textarea) (m ph ph' : jsstr) :
  validSelection ta ->
  substring (value ta) (selectionStart ta) (selectionEnd ta) <> [] ->
  ~ (endsWith (substring (value ta) 0 (selectionStart ta)) m = true /\
     startsWith (substringFrom (value ta) (selectionEnd ta)) m = true) ->
  wrapText (wrapText ta m m ph) m m ph' = ta.
Proof.
  intros Hvalid Hsel Hfree.
  destruct (textarea_split ta Hvalid) as (b & s & t & ->).
  cbn [value selectionStart selectionEnd] in Hsel, Hfree.
  rewrite substring_middle in Hsel.
  rewrite substring_before, substringFrom_after2 in Hfree.
  assert (Hm : m <> []).
  { intros ->. apply Hfree. split; [|reflexivity].
    unfold endsWith. reflexivity. }
  rewrite wrapText_wrap; [|exact Hsel|].
  - replace (mkTextarea (b ++ m ++ s ++ m ++ t)
               (len b + len m) (len b + len s + len m))
      with (mkTextarea ((b ++ m) ++ s ++ (m ++ t))
              (len (b ++ m)) (len (b ++ m) + len s)).
    + apply wrapText_unwrap; assumption.
    + rewrite len_app, <- !app_assoc. f_equal. lia.
  - destruct (endsWith b m) eqn:E1; [|reflexivity].
    destruct (startsWith t m) eqn:E2; [|reflexivity].
    exfalso. apply Hfree. split; reflexivity.
Qed.

Lemma wrapText_round_trip_witness :
  let ta := mkTextarea (lit "hello world") 0 5 in
  bold (bold ta) = ta.
Proof.
  apply (wrapText_round_trip (mkTextarea (lit "hello world") 0 5)
           (lit "**") (lit "bold text") (lit "bold text")).
  - vm_compute. repeat split; discriminate.
  - vm_compute. discriminate.
  - vm_compute. intros [H _]. discriminate H.
Defined.

(** ** Selection bounds *)

Lemma prefixLines_valid (ta : textarea) (prefix : jsstr) (toggleable : bool) :
  validSelection (prefixLines ta prefix toggleable).
Proof. unfold prefixLines. apply setSelectionRange_valid. Qed.

(** The lengths in the goal are not negative. *)
Ltac nonneg_lens :=
  repeat match goal with
         | |- context [len ?x] =>
             lazymatch goal with
             | _ : 0 <= len x |- _ => fail
             | _ => pose proof (len_nonneg x)
             end
         end.

Section Committed.

(** An operation is its commit, handed to the host. *)
Lemma applyOp_commits (op : operation) (ta : textarea) :
  applyOp op ta = Some (committed ta (commitArgs op ta)).
Proof.
  destruct op; unfold applyOp, commitArgs, committed.
  - unfold wrapText.
    destruct (substring (value ta) (selectionStart ta) (selectionEnd ta));
      [reflexivity|].
    match goal with |- context [if ?c then _ else _] => destruct c end;
      reflexivity.
  - reflexivity.
  - unfold insertNumberedList.
    destruct (substring (value ta) (selectionStart ta) (selectionEnd ta));
      reflexivity.
  - unfold insertHorizontalRule, replaceSelection, replaceArgs. reflexivity.
  - unfold insertTable, replaceSelection, replaceArgs. reflexivity.
  - unfold clearFormatting, replaceSelection, replaceArgs.
    destruct (substring (value ta) (selectionStart ta) (selectionEnd ta));
      reflexivity.
  - unfold insertSnippet, replaceSelection, replaceArgs.
    destruct template; reflexivity.
  - unfold insertLink.
    destruct (test false urlRegex
                (trim (substring (value ta) (selectionStart ta)
                         (selectionEnd ta))));
      cbn [callback]; [reflexivity|].
    destruct (trim answer); [reflexivity|].
    destruct (substring (value ta) (selectionStart ta) (selectionEnd ta));
      reflexivity.
Qed.

Lemma replaceArgs_inside (b s t r : jsstr) (keep : bool) :
  let '(v, a, e) :=
    replaceArgs (mkTextarea (b ++ s ++ t) (len b) (len b + len s)) r keep in
  0 <= a /\ a <= e /\ e <= len v.
Proof.
  unfold replaceArgs. cbn [value selectionStart selectionEnd].
  rewrite substring_before, substringFrom_after2.
  pose proof (len_nonneg b). pose proof (len_nonneg r).
  pose proof (len_nonneg t).
  destruct keep; rewrite !len_app; lia.
Qed.

Lemma block_inside (v nb : jsstr) (a e : Z) :
  0 <= a -> a <= e -> e <= len v ->
  let ls := lineStartOf v a in
  let le := lineEndOf v e in
  0 <= ls /\ ls <= ls + len nb
  /\ ls + len nb <= len (substring v 0 ls ++ nb ++ substringFrom v le).
Proof.
  intros Ha Hae He ls le.
  pose proof (lineStartOf_bounds v a ltac:(lia)) as Hls. fold ls in Hls.
  pose proof (substring_prefix_len v ls ltac:(lia)) as Hlen.
  pose proof (len_nonneg nb). pose proof (len_nonneg (substringFrom v le)).
  rewrite !len_app, Hlen. lia.
Qed.

(** The offsets an operation computes lie inside the buffer it assigns. *)
Lemma commitArgs_inside (op : operation) (ta : textarea) :
  validSelection ta -> marked op ->
  match commitArgs op ta with
  | Some (v, s, e) => 0 <= s /\ s <= e /\ e <= len v
  | None => True
  end.
Proof.
  intros Hvalid Hmark.
  pose proof Hvalid as (Ha & Hae & He).
  destruct op; unfold commitArgs.
  - (* wrap *)
    destruct (textarea_split ta Hvalid) as (b & s & t & ->).
    cbn [value selectionStart selectionEnd].
    rewrite substring_before, substring_middle, substringFrom_after2.
    pose proof (len_nonneg b). pose proof (len_nonneg prefix).
    pose proof (len_nonneg suffix). pose proof (len_nonneg t).
    pose proof (len_nonneg placeholder).
    destruct s as [|c s].
    + rewrite !len_app. lia.
    + pose proof (len_nonneg (c :: s)).
      destruct (endsWith b prefix && startsWith t suffix
                && JS.eqb prefix suffix) eqn:E.
      * apply andb_true_iff in E. destruct E as [E Eeq].
        apply andb_true_iff in E. destruct E as [Eb Et].
        apply eqb_eq in Eeq. subst suffix.
        assert (Hm : prefix <> []) by (cbn in Hmark; tauto).
        destruct (endsWith_split _ _ Eb) as [b' ->].
        destruct (startsWith_split _ _ Et) as [t' ->].
        rewrite slice_drop_suffix by exact Hm.
        rewrite sliceFrom_drop_prefix.
        pose proof (len_nonneg b'). pose proof (len_nonneg t').
        rewrite !len_app in *. lia.
      * rewrite !len_app. lia.
  - (* prefix lines *)
    apply block_inside; assumption.
  - (* numbered list *)
    destruct (substring (value ta) (selectionStart ta) (selectionEnd ta))
      eqn:Esel.
    + destruct (buffer_split (value ta) (selectionStart ta) (selectionEnd ta)
                  Ha Hae He) as (_ & Hb & _).
      pose proof (len_nonneg (substringFrom (value ta) (selectionEnd ta))).
      rewrite !len_app, Hb. change (len (lit "1. item")) with 7. lia.
    + apply block_inside; assumption.
  - (* horizontal rule *)
    destruct (textarea_split ta Hvalid) as (b & s & t & ->).
    apply replaceArgs_inside.
  - (* table *)
    destruct (textarea_split ta Hvalid) as (b & s & t & ->).
    apply replaceArgs_inside.
  - (* clear formatting *)
    destruct (substring (value ta) (selectionStart ta) (selectionEnd ta));
      [exact I|].
    destruct (textarea_split ta Hvalid) as (b & s & t & ->).
    apply replaceArgs_inside.
  - (* snippet *)
    destruct template; [exact I|].
    destruct (textarea_split ta Hvalid) as (b & s & t & ->).
    apply replaceArgs_inside.
  - (* link callback *)
    destruct (buffer_split (value ta) (selectionStart ta) (selectionEnd ta)
                Ha Hae He) as (_ & Hb & _).
    pose proof (len_nonneg (substringFrom (value ta) (selectionEnd ta))).
    destruct (test false urlRegex
                (trim (substring (value ta) (selectionStart ta)
                         (selectionEnd ta)))).
    + rewrite !len_app, Hb. nonneg_lens. lia.
    + destruct (trim answer) as [|c u]; [exact I|].
      destruct (substring (value ta) (selectionStart ta) (selectionEnd ta))
        as [|d sel]; rewrite !len_app, Hb; nonneg_lens;
        change (len (lit "[")) with 1; lia.
Qed.

End Committed.

(** C3.  Every operation of the engine, run on a buffer whose selection
    satisfies 0 <= start <= end <= length(buffer), returns normally and
    leaves a selection with 0 <= start' <= end' <= length(buffer').  The
    offsets that the operation itself computes and passes to
    [setSelectionRange] already lie in that range of the buffer it assigns,
    so the result holds the new buffer with exactly those offsets and the
    host has nothing to clamp; an operation that returns early leaves the
    textarea as it was.  The one case in which the range rests on the host
    is [wrapText] with both markers empty and a non-empty selection, which
    no exported operation passes: on ["abcd"] with ["cd"] selected it
    assigns ["cd"] and passes the offsets 2 and 4, which the host turns
    into 2 and 2. *)
Theorem selection_bounds_invariant (op : operation) (ta : textarea) :
  validSelection ta ->
  exists ta',
    applyOp op ta = Some ta'
    /\ validSelection ta'
    /\ (marked op ->
        match commitArgs op ta with
        | Some (newText, s, e) =>
            (0 <= s /\ s <= e /\ e <= len newText)
            /\ ta' = mkTextarea newText s e
        | None => ta' = ta
        end)
    /\ commitArgs (OpWrap [] [] []) (mkTextarea (lit "abcd") 2 4)
       = Some (lit "cd", 2, 4)
    /\ applyOp (OpWrap [] [] []) (mkTextarea (lit "abcd") 2 4)
       = Some (mkTextarea (lit "cd") 2 2).
Proof.
  intros Hvalid.
  exists (committed ta (commitArgs op ta)).
  split; [apply applyOp_commits|].
  split.
  { unfold committed. destruct (commitArgs op ta) as [[[v s] e]|];
      [apply setSelectionRange_valid | exact Hvalid]. }
  split; [|split; reflexivity].
  intros Hmark.
  pose proof (commitArgs_inside op ta Hvalid Hmark) as Hin.
  unfold committed.
  destruct (commitArgs op ta) as [[[v s] e]|]; [|reflexivity].
  split; [exact Hin|].
  destruct Hin as (Hs & Hse & He).
  rewrite setSelectionRange_inside; unfold setValue; cbn [value];
    [reflexivity | assumption..].
Qed.

Lemma selection_bounds_invariant_witness :
  exists ta',
    applyOp (OpWrap (lit "**") (lit "**") (lit "bold text"))
      (mkTextarea (lit "hello world") 0 5) = Some ta'
    /\ validSelection ta'
    /\ ta' = mkTextarea (lit "**hello** world") 2 7.
Proof.
  destruct (selection_bounds_invariant
              (OpWrap (lit "**") (lit "**") (lit "bold text"))
              (mkTextarea (lit "hello world") 0 5))
    as (ta' & Happ & Hval & Hargs & _).
  - vm_compute. repeat split; discriminate.
  - exists ta'. split; [exact Happ|]. split; [exact Hval|].
    apply Hargs. left. discriminate.
Defined.

(** ** Frame of the line operations *)

Section Frame.

(** What the two line operations commit: the buffer with the block between
    [lineStart] and [lineEnd] replaced, and the new block selected. *)
Lemma commit_block (ta0 : textarea) (v nb : jsstr) (ls le : Z) :
  0 <= ls <= len v -> 0 <= le <= len v ->
  setSelectionRange
    (setValue ta0 (substring v 0 ls ++ nb ++ substringFrom v le))
    ls (ls + len nb)
  = mkTextarea (firstn (Z.to_nat ls) v ++ nb ++ skipn (Z.to_nat le) v)
      ls (ls + len nb).
Proof.
  intros Hls Hle.
  pose proof (substring_prefix_len v ls Hls) as Hlen.
  rewrite setSelectionRange_inside; unfold setValue; cbn [value].
  - rewrite substring_prefix_firstn, substringFrom_skipn by assumption.
    reflexivity.
  - lia.
  - pose proof (len_nonneg nb). lia.
  - rewrite !len_app, Hlen.
    pose proof (len_nonneg (substringFrom v le)). lia.
Qed.

Lemma prefixLines_block (ta : textarea) (prefix : jsstr) (toggleable : bool) :
  validSelection ta ->
  let v := value ta in
  let ls := lineStartOf v (selectionStart ta) in
  let le := lineEndOf v (selectionEnd ta) in
  let lines := blockLines ta in
  prefixLines ta prefix toggleable
  = mkTextarea
      (firstn (Z.to_nat ls) v
       ++ join nl (if allPrefixed prefix toggleable lines
                   then map (removePrefix prefix) lines
                   else map (addPrefix prefix) lines)
       ++ skipn (Z.to_nat le) v)
      ls
      (ls + len (join nl (if allPrefixed prefix toggleable lines
                          then map (removePrefix prefix) lines
                          else map (addPrefix prefix) lines))).
Proof.
  intros (Ha & Hae & He) v ls le lines.
  pose proof (lineStartOf_bounds v (selectionStart ta)) as Hls.
  pose proof (lineEndOf_bounds v (selectionEnd ta)) as Hle.
  unfold prefixLines. apply commit_block; subst v; lia.
Qed.

Lemma insertNumberedList_block (ta : textarea) :
  validSelection ta ->
  substring (value ta) (selectionStart ta) (selectionEnd ta) <> [] ->
  let v := value ta in
  let ls := lineStartOf v (selectionStart ta) in
  let le := lineEndOf v (selectionEnd ta) in
  let lines := blockLines ta in
  let newLines :=
    if forallb (fun line => test false reNumbered (trim line)) lines
    then map (replaceFirst false reLeadingNumber []) lines
    else numberLines 1 lines in
  insertNumberedList ta
  = mkTextarea
      (firstn (Z.to_nat ls) v ++ join nl newLines ++ skipn (Z.to_nat le) v)
      ls (ls + len (join nl newLines)).
Proof.
  intros (Ha & Hae & He) Hsel v ls le lines newLines.
  pose proof (lineStartOf_bounds v (selectionStart ta)) as Hls.
  pose proof (lineEndOf_bounds v (selectionEnd ta)) as Hle.
  unfold insertNumberedList.
  destruct (substring (value ta) (selectionStart ta) (selectionEnd ta));
    [congruence|].
  apply commit_block; subst v; lia.
Qed.

End Frame.

(** C10.  [prefixLines], and [insertNumberedList] on a non-empty
    selection, rewrite only the block between [lineStart] and [lineEnd]:
    the boundaries satisfy 0 <= lineStart <= start and
    end <= lineEnd <= length, the result is the buffer with that block
    replaced by a new block, so that the characters before [lineStart] stay
    where they are and the characters from [lineEnd] on follow the new block
    unchanged and in order; the new block is what is selected. *)
Theorem line_operations_frame (ta : textarea) (prefix : jsstr)
    (toggleable : bool) :
  validSelection ta ->
  let v := value ta in
  let ls := lineStartOf v (selectionStart ta) in
  let le := lineEndOf v (selectionEnd ta) in
  (0 <= ls <= selectionStart ta /\ selectionEnd ta <= le <= len v)
  /\ v = firstn (Z.to_nat ls) v ++ substring v ls le ++ skipn (Z.to_nat le) v
  /\ forall ta',
       ta' = prefixLines ta prefix toggleable \/
       (substring v (selectionStart ta) (selectionEnd ta) <> [] /\
        ta' = insertNumberedList ta) ->
       exists newBlock,
         value ta' = firstn (Z.to_nat ls) v ++ newBlock ++ skipn (Z.to_nat le) v
         /\ selectionStart ta' = ls
         /\ selectionEnd ta' = ls + len newBlock
         /\ firstn (Z.to_nat ls) (value ta') = firstn (Z.to_nat ls) v
         /\ skipn (Z.to_nat (selectionEnd ta')) (value ta')
            = skipn (Z.to_nat le) v.
Proof.
  intros Hvalid v ls le.
  pose proof Hvalid as (Ha & Hae & He).
  pose proof (lineStartOf_bounds v (selectionStart ta)) as Hls.
  pose proof (lineEndOf_bounds v (selectionEnd ta)) as Hle.
  fold ls in Hls. fold le in Hle. subst v.
  assert (Hls' : 0 <= ls <= selectionStart ta) by lia.
  assert (Hle' : selectionEnd ta <= le <= len (value ta)) by lia.
  split; [split; assumption|].
  split.
  { destruct (buffer_split (value ta) ls le) as (Hv & _ & _); try lia.
    rewrite substring_prefix_firstn, substringFrom_skipn in Hv by lia.
    exact Hv. }
  assert (Hframe : forall nb ta',
             ta' = mkTextarea (firstn (Z.to_nat ls) (value ta) ++ nb
                               ++ skipn (Z.to_nat le) (value ta))
                     ls (ls + len nb) ->
             value ta' = firstn (Z.to_nat ls) (value ta) ++ nb
                         ++ skipn (Z.to_nat le) (value ta)
             /\ selectionStart ta' = ls
             /\ selectionEnd ta' = ls + len nb
             /\ firstn (Z.to_nat ls) (value ta')
                = firstn (Z.to_nat ls) (value ta)
             /\ skipn (Z.to_nat (selectionEnd ta')) (value ta')
                = skipn (Z.to_nat le) (value ta)).
  { intros nb ta' ->. cbn [value selectionStart selectionEnd].
    assert (Hfl : length (firstn (Z.to_nat ls) (value ta)) = Z.to_nat ls).
    { rewrite length_firstn. unfold len in *. lia. }
    repeat split.
    - rewrite <- Hfl at 1. rewrite firstn_len_app.
      reflexivity.
    - replace (Z.to_nat (ls + len nb))
        with (length (firstn (Z.to_nat ls) (value ta) ++ nb)).
      + rewrite app_assoc. apply skipn_len_app.
      + rewrite length_app, Hfl. unfold len. lia. }
  intros ta' [-> | [Hsel ->]].
  - eexists. apply Hframe. apply prefixLines_block. exact Hvalid.
  - eexists. apply Hframe. apply insertNumberedList_block; assumption.
Qed.

Lemma line_operations_frame_witness :
  let ta := mkTextarea (lit "x" ++ nl ++ lit "ab" ++ nl ++ lit "y") 3 4 in
  exists newBlock,
    value (prefixLines ta (lit "> ") true)
    = lit "x" ++ nl ++ newBlock ++ nl ++ lit "y".
Proof.
  intros ta.
  destruct (line_operations_frame ta (lit "> ") true) as (_ & _ & H).
  - vm_compute. repeat split; discriminate.
  - destruct (H (prefixLines ta (lit "> ") true) (or_introl eq_refl))
      as (nb & Hv & _).
    exists nb. exact Hv.
Defined.

(** ** Trimming *)

Section Trim.

Lemma trimStart_split (s : jsstr) :
  exists w, s = w ++ trimStart s /\ forallb isWhite w = true.
Proof.
  induction s as [|c s (w & Hs & Hw)]; cbn [trimStart].
  - exists []. split; reflexivity.
  - destruct (isWhite c) eqn:E.
    + exists (c :: w). cbn [forallb app]. rewrite E, Hw, <- Hs.
      split; reflexivity.
    + exists []. split; reflexivity.
Qed.

Lemma trimStart_head (s : jsstr) (c : codeunit) (t : jsstr) :
  trimStart s = c :: t -> isWhite c = false.
Proof.
  induction s as [|d s IH]; cbn [trimStart]; [discriminate|].
  destruct (isWhite d) eqn:E; [exact IH|].
  intros [= -> _]. exact E.
Qed.

Lemma trimStart_stops (a b : jsstr) (c : codeunit) :
  isWhite c = false -> exists a', trimStart (a ++ c :: b) = a' ++ c :: b.
Proof.
  intros Hc. induction a as [|d a (a' & IH)]; cbn [app trimStart].
  - rewrite Hc. exists []. reflexivity.
  - destruct (isWhite d).
    + exists a'. exact IH.
    + exists (d :: a). reflexivity.
Qed.

Lemma trimStart_white_prefix (w s : jsstr) :
  forallb isWhite w = true -> trimStart (w ++ s) = trimStart s.
Proof.
  induction w as [|c w IH]; cbn [forallb app trimStart]; [reflexivity|].
  intros H. apply andb_true_iff in H. destruct H as [Hc Hw].
  rewrite Hc. apply IH. exact Hw.
Qed.

Lemma trimStart_fixed (c : codeunit) (s : jsstr) :
  isWhite c = false -> trimStart (c :: s) = c :: s.
Proof. intros H. cbn [trimStart]. rewrite H. reflexivity. Qed.

(** [trimEnd] keeps a prefix of the string. *)
Lemma trimEnd_split (s : jsstr) : exists w, s = trimEnd s ++ w.
Proof.
  unfold trimEnd. destruct (trimStart_split (rev s)) as (w & Hs & _).
  exists (rev w).
  rewrite <- rev_app_distr, <- Hs, rev_involutive. reflexivity.
Qed.

(** A non-empty trimmed string starts and ends with a code unit that is
    not white space. *)
Lemma trim_head (s : jsstr) (c : codeunit) (t : jsstr) :
  trim s = c :: t -> isWhite c = false.
Proof.
  unfold trim. intros H.
  destruct (trimEnd_split (trimStart s)) as (w & Hw).
  rewrite H in Hw. cbn [app] in Hw.
  apply (trimStart_head s c (t ++ w)). exact Hw.
Qed.

Lemma trim_last (s : jsstr) :
  trim s = [] \/ exists t c, trim s = t ++ [c] /\ isWhite c = false.
Proof.
  unfold trim, trimEnd.
  destruct (trimStart (rev (trimStart s))) as [|c t] eqn:E.
  - left. reflexivity.
  - right. exists (rev t), c. split; [reflexivity|].
    apply (trimStart_head _ _ _ E).
Qed.

(** After its leading white space a line starts with a trimmed prefix
    exactly when the trimmed line does. *)
Lemma startsWith_trim_trimStart (line prefix : jsstr) :
  startsWith (trim line) (trim prefix)
  = startsWith (trimStart line) (trim prefix).
Proof.
  destruct (startsWith (trimStart line) (trim prefix)) eqn:E.
  - destruct (startsWith_split _ _ E) as [rest Hrest].
    unfold trim at 1. rewrite Hrest.
    destruct (trim_last prefix) as [-> | (t & c & -> & Hc)];
      [reflexivity|].
    unfold trimEnd. rewrite !rev_app_distr. cbn [rev app].
    destruct (trimStart_stops (rev rest) (rev t) c Hc) as (a' & ->).
    rewrite rev_app_distr. cbn [rev]. rewrite rev_involutive.
    apply startsWith_app.
  - destruct (startsWith (trim line) (trim prefix)) eqn:E'; [|reflexivity].
    destruct (startsWith_split _ _ E') as [rest Hrest].
    destruct (trimEnd_split (trimStart line)) as (w & Hw).
    fold (trim line) in Hw. rewrite Hrest, <- app_assoc in Hw.
    rewrite Hw, startsWith_app in E. discriminate.
Qed.

Lemma repeatStr_spaces (ws : jsstr) :
  Forall (eq SP) ws -> repeatStr [SP] (length ws) = ws.
Proof.
  induction 1 as [|c ws Hc _ IH]; cbn [length repeatStr app];
    [reflexivity|].
  rewrite IH, Hc. reflexivity.
Qed.

End Trim.

(** ** The toggle decision of the line-prefix operation *)

Section Toggle.

Lemma allPrefixed_spec (prefix : jsstr) (lines : list jsstr) :
  allPrefixed prefix true lines = true <->
  Forall (fun line => startsWith (trimStart line) (trim prefix) = true) lines.
Proof.
  unfold allPrefixed. cbn [andb].
  rewrite forallb_forall, Forall_forall.
  split; intros H line Hin; specialize (H line Hin).
  - rewrite <- startsWith_trim_trimStart. exact H.
  - rewrite startsWith_trim_trimStart. exact H.
Qed.

Lemma removePrefix_stripped (prefix line : jsstr) :
  startsWith (trimStart line) (trim prefix) = true ->
  removePrefix prefix line = stripped prefix line.
Proof.
  intros H. unfold removePrefix, stripped. rewrite H.
  f_equal. rewrite substringFrom_skipn.
  - unfold len. rewrite Nat2Z.id. reflexivity.
  - pose proof (startsWith_len _ _ H). pose proof (len_nonneg (trim prefix)).
    lia.
Qed.

Lemma stripped_spaces (prefix ws rest : jsstr) :
  trim prefix <> [] -> Forall (eq SP) ws ->
  stripped prefix (ws ++ trim prefix ++ rest) = ws ++ rest.
Proof.
  intros Hp Hws. unfold stripped.
  assert (Htrim : trimStart (ws ++ trim prefix ++ rest) = trim prefix ++ rest).
  { rewrite trimStart_white_prefix.
    - destruct (trim prefix) as [|c t] eqn:E; [congruence|].
      cbn [app]. apply trimStart_fixed. apply (trim_head prefix c t E).
    - apply forallb_forall. intros c Hc.
      rewrite Forall_forall in Hws. rewrite <- (Hws c Hc). reflexivity. }
  rewrite Htrim, skipn_len_app.
  replace (length (ws ++ trim prefix ++ rest) - length (trim prefix ++ rest))%nat
    with (length ws) by (rewrite (length_app ws); lia).
  rewrite repeatStr_spaces by exact Hws. reflexivity.
Qed.

Lemma blank_line_blocks_removal (prefix : jsstr) (lines : list jsstr) :
  trim prefix <> [] ->
  (exists line, In line lines /\ trim line = []) ->
  allPrefixed prefix true lines = false.
Proof.
  intros Hp (line & Hin & Hblank).
  destruct (allPrefixed prefix true lines) eqn:E; [|reflexivity].
  unfold allPrefixed in E. cbn [andb] in E.
  rewrite forallb_forall in E. specialize (E line Hin).
  rewrite Hblank in E. destruct (trim prefix); [congruence | discriminate].
Qed.

End Toggle.

(** C1, as the code has it.  With [toggleable = true], [prefixLines]
    takes the removal branch precisely when every line of the selected line
    block, blank lines included, starts with [prefix.trim()] after its
    leading white space; a blank line in the block therefore rules the
    removal out whenever [prefix.trim()] is not empty, and the prefix is then
    added to the non-blank lines.  In the removal branch every line loses
    exactly [length(prefix.trim())] code units after its leading white space,
    whose length is kept; leading spaces are kept as they are. *)
Theorem prefixLines_toggle_decision (ta : textarea) (prefix : jsstr) :
  validSelection ta ->
  let v := value ta in
  let ls := lineStartOf v (selectionStart ta) in
  let le := lineEndOf v (selectionEnd ta) in
  let lines := blockLines ta in
  let rewritten (newLines : list jsstr) :=
    mkTextarea (firstn (Z.to_nat ls) v ++ join nl newLines
                ++ skipn (Z.to_nat le) v)
      ls (ls + len (join nl newLines)) in
  (allPrefixed prefix true lines = true <->
   Forall (fun line => startsWith (trimStart line) (trim prefix) = true) lines)
  /\ (allPrefixed prefix true lines = true ->
      prefixLines ta prefix true = rewritten (map (stripped prefix) lines))
  /\ (allPrefixed prefix true lines = false ->
      prefixLines ta prefix true = rewritten (map (addPrefix prefix) lines))
  /\ (trim prefix <> [] ->
      (exists line, In line lines /\ trim line = []) ->
      allPrefixed prefix true lines = false)
  /\ (forall ws rest,
        trim prefix <> [] -> Forall (eq SP) ws ->
        stripped prefix (ws ++ trim prefix ++ rest) = ws ++ rest).
Proof.
  intros Hvalid v ls le lines rewritten.
  pose proof (prefixLines_block ta prefix true Hvalid) as Hblock.
  cbv zeta in Hblock. fold v ls le lines in Hblock.
  split; [apply allPrefixed_spec|].
  split; [|split; [|split]].
  - intros Hall. rewrite Hblock, Hall. unfold rewritten.
    assert (Hmap : map (removePrefix prefix) lines
                   = map (stripped prefix) lines).
    { apply map_ext_in. intros line Hin.
      apply removePrefix_stripped.
      apply allPrefixed_spec in Hall. rewrite Forall_forall in Hall.
      exact (Hall line Hin). }
    rewrite Hmap. reflexivity.
  - intros Hnot. rewrite Hblock, Hnot. reflexivity.
  - apply blank_line_blocks_removal.
  - intros ws rest. apply stripped_spaces.
Qed.

Lemma prefixLines_toggle_decision_witness :
  let ta := mkTextarea (lit "  > a" ++ nl ++ lit "> b") 0 9 in
  prefixLines ta (lit "> ") true
  = mkTextarea (lit "   a" ++ nl ++ lit " b") 0 7.
Proof.
  intros ta.
  destruct (prefixLines_toggle_decision ta (lit "> ")) as (_ & H & _).
  - vm_compute. repeat split; discriminate.
  - rewrite H; reflexivity.
Defined.

(** C1 as it is stated fails on a block with a blank line: every
    non-blank line of ["> a\n\n> b"] starts with [">"], yet [prefixLines]
    with the prefix ["> "] adds the prefix again. *)
Lemma prefixLines_blank_line_counterexample :
  let ta := mkTextarea (lit "> a" ++ nl ++ nl ++ lit "> b") 0 8 in
  validSelection ta
  /\ everyNonBlankLinePrefixed (lit "> ") (blockLines ta) = true
  /\ allPrefixed (lit "> ") true (blockLines ta) = false
  /\ prefixLines ta (lit "> ") true
     = mkTextarea (lit "> > a" ++ nl ++ nl ++ lit "> > b") 0 12.
Proof.
  vm_compute. repeat split; discriminate.
Qed.

(** ** Headings *)

Section Heading.

Lemma len_hashes (n : nat) : len (repeatStr (lit "#") n) = Z.of_nat n.
Proof.
  induction n as [|n IH]; [reflexivity|].
  cbn [repeatStr]. rewrite len_app, IH. change (len (lit "#")) with 1. lia.
Qed.

Lemma insertHeading_level (ta : textarea) (level : Z) :
  0 <= level < maxStringLength ->
  insertHeading ta (Some level)
  = Some (prefixLines ta (headingPrefix level) false).
Proof.
  intros H. unfold insertHeading, repeatZ, concatZ, headingPrefix.
  change (len (lit "#")) with 1. rewrite Z.mul_1_r.
  destruct (level <? 0) eqn:E; [apply Z.ltb_lt in E; lia|].
  destruct (maxStringLength <? level) eqn:E'; [apply Z.ltb_lt in E'; lia|].
  cbn [orb]. rewrite len_hashes. change (len (lit " ")) with 1.
  destruct (maxStringLength <? Z.of_nat (Z.to_nat level) + 1) eqn:E'';
    [apply Z.ltb_lt in E''; lia | reflexivity].
Qed.

Lemma insertHeading_throws (ta : textarea) (level : Z) :
  level < 0 \/ maxStringLength <= level ->
  insertHeading ta (Some level) = None.
Proof.
  intros H. unfold insertHeading, repeatZ, concatZ.
  change (len (lit "#")) with 1. rewrite Z.mul_1_r.
  destruct (level <? 0) eqn:E; [reflexivity|].
  destruct (maxStringLength <? level) eqn:E'; [reflexivity|].
  apply Z.ltb_ge in E, E'. cbn [orb].
  rewrite len_hashes. change (len (lit " ")) with 1.
  destruct (maxStringLength <? Z.of_nat (Z.to_nat level) + 1) eqn:E'';
    [reflexivity | apply Z.ltb_ge in E''; lia].
Qed.

Lemma maxStringLength_value : maxStringLength = 536870888.
Proof. reflexivity. Qed.

Lemma defaultLevel_range (headingLevel : option Z) :
  1 <= defaultLevel headingLevel <= 6.
Proof. unfold defaultLevel. lia. Qed.

Lemma defaultLevel_inside (level : Z) :
  1 <= level <= 6 -> defaultLevel (Some level) = level.
Proof.
  intros H.
  assert (level = 1 \/ level = 2 \/ level = 3 \/ level = 4 \/ level = 5
          \/ level = 6) as Hcases by lia.
  repeat (destruct Hcases as [-> | Hcases]; [reflexivity|]).
  subst level. reflexivity.
Qed.

End Heading.

(** C6, as the code has it.  For a level in [1,6], [insertHeading]
    prefixes the selected lines with ["#"] repeated [level] times and a
    space, with [toggleable = false]; [insertHeading] itself does not clamp.
    The clamp is in the heading handler of the toolbar, which passes
    [max(1, min(6, (headingLevel | 0) || 3))]: that level is always in
    [1,6] (a level in [1,6] is passed as it is, 0 and a missing setting
    become 3, 10 becomes 6).  The string [val] typed into the prompt is
    clamped the same way: the heading gets the level
    [max(1, min(6, parseInt(val, 10) || default))], which is the typed
    number when that is in [1,6], 6 above, 1 below 0, and the default level
    for 0 and for text that is no number; a cancelled prompt changes
    nothing.  So a heading made through the toolbar has between one and six
    ["#"]. *)
Theorem heading_prefix_levels (ta : textarea) (headingLevel : option Z)
    (level : Z) :
  1 <= level <= 6 ->
  insertHeading ta (Some level)
  = Some (prefixLines ta (headingPrefix level) false)
  /\ defaultLevel (Some level) = level
  /\ 1 <= defaultLevel headingLevel <= 6
  /\ headingAction ta headingLevel false
     = Ran (Some (prefixLines ta
                    (headingPrefix (defaultLevel headingLevel)) false))
  /\ (forall val live,
        let n := Z.max 1 (Z.min 6 (orElse (parseInt10 val)
                                     (defaultLevel headingLevel))) in
        match headingAction ta headingLevel true with
        | Prompted request =>
            callback request (Some val) live
            = Some (prefixLines live (headingPrefix n) false)
            /\ callback request None live = Some live
        | Ran _ => False
        end
        /\ 1 <= n <= 6
        /\ (forall k, parseInt10 val = Some k -> 1 <= k <= 6 -> n = k)
        /\ (forall k, parseInt10 val = Some k -> 6 < k -> n = 6)
        /\ (forall k, parseInt10 val = Some k -> k < 0 -> n = 1)
        /\ (parseInt10 val = Some 0 \/ parseInt10 val = None ->
            n = defaultLevel headingLevel))
  /\ parseInt10 (lit "2") = Some 2
  /\ parseInt10 (lit "10") = Some 10
  /\ parseInt10 (lit "abc") = None
  /\ defaultLevel (Some 0) = 3
  /\ defaultLevel None = 3
  /\ defaultLevel (Some 10) = 6.
Proof.
  intros Hlevel.
  pose proof (defaultLevel_range headingLevel) as Hd.
  pose proof maxStringLength_value as Hmax.
  split; [apply insertHeading_level; lia|].
  split; [apply defaultLevel_inside; exact Hlevel|].
  split; [exact Hd|].
  split.
  { unfold headingAction. rewrite insertHeading_level by lia. reflexivity. }
  split.
  { intros val live n.
    assert (Hn : 1 <= n <= 6) by (subst n; lia).
    split.
    { cbn [headingAction callback]. fold n.
      rewrite insertHeading_level by lia. split; reflexivity. }
    split; [exact Hn|].
    split; [intros k Hk Hin; subst n; rewrite Hk; destruct k; cbn [orElse]; lia|].
    split; [intros k Hk Hin; subst n; rewrite Hk; destruct k; cbn [orElse]; lia|].
    split; [intros k Hk Hin; subst n; rewrite Hk; destruct k; cbn [orElse]; lia|].
    intros [Hk | Hk]; subst n; rewrite Hk; cbn [orElse]; lia. }
  repeat split; reflexivity.
Qed.

Lemma heading_prefix_levels_witness :
  insertHeading (mkTextarea (lit "x") 0 0) (Some 2)
  = Some (mkTextarea (lit "## x") 0 4).
Proof.
  destruct (heading_prefix_levels (mkTextarea (lit "x") 0 0) None 2)
    as (H & _).
  - lia.
  - rewrite H. reflexivity.
Defined.

(** C6 as it is stated fails: [insertHeading] with level 10 prefixes ten
    ["#"] and with level 0 none, and the toolbar handler turns a configured
    level 0 into three ["#"], not into one. *)
Lemma heading_clamp_counterexample :
  insertHeading (mkTextarea (lit "x") 0 0) (Some 10)
  = Some (mkTextarea (lit "########## x") 0 12)
  /\ insertHeading (mkTextarea (lit "x") 0 0) (Some 0)
     = Some (mkTextarea (lit " x") 0 2)
  /\ headingAction (mkTextarea (lit "x") 0 0) (Some 0) false
     = Ran (Some (mkTextarea (lit "### x") 0 5)).
Proof. repeat split; reflexivity. Qed.

(** ** Link prompt *)

(** C9.  A cancelled prompt changes nothing: the callback of
    [insertLink] run with [null] returns the textarea as it found it, buffer
    and selection alike, and so does the callback of the URL prompt run with
    a string that is empty once trimmed. *)
Theorem insertLink_cancel_no_change (ta live : textarea) (url : jsstr) :
  callback (insertLink ta) None live = Some live
  /\ (test false urlRegex
        (trim (substring (value ta) (selectionStart ta) (selectionEnd ta)))
      = false ->
      trim url = [] ->
      callback (insertLink ta) (Some url) live = Some live).
Proof.
  unfold insertLink.
  destruct (test false urlRegex
              (trim (substring (value ta) (selectionStart ta) (selectionEnd ta))));
    cbn [callback]; split; try reflexivity.
  - discriminate.
  - intros _ ->. reflexivity.
Qed.

Lemma insertLink_cancel_no_change_witness :
  let ta := mkTextarea (lit "hello world") 0 5 in
  callback (insertLink ta) (Some (lit "   ")) ta = Some ta.
Proof.
  intros ta.
  destruct (insertLink_cancel_no_change ta ta (lit "   ")) as (_ & H).
  apply H; reflexivity.
Defined.

(** ** Worked examples *)

(** C4.  On the buffer ["a\nb\nc"] with all three lines selected,
    [insertNumberedList] gives ["1. a\n2. b\n3. c"] with the new block
    selected, and [insertNumberedList] on that result gives back
    ["a\nb\nc"]. *)
Theorem numberedList_example :
  let abc := lit "a" ++ nl ++ lit "b" ++ nl ++ lit "c" in
  let numbered := lit "1. a" ++ nl ++ lit "2. b" ++ nl ++ lit "3. c" in
  insertNumberedList (mkTextarea abc 0 5) = mkTextarea numbered 0 14
  /\ insertNumberedList (insertNumberedList (mkTextarea abc 0 5))
     = mkTextarea abc 0 5.
Proof. split; vm_compute; reflexivity. Qed.

(** C7.  On the buffer ["abc"] with the caret at offset 3,
    [insertHorizontalRule] gives exactly ["abc\n\n---\n"]: two line feeds
    before the rule, one after it, and the caret after the insertion. *)
Theorem horizontalRule_example :
  insertHorizontalRule (mkTextarea (lit "abc") 3 3)
  = mkTextarea (lit "abc" ++ nl ++ nl ++ lit "---" ++ nl) 9 9.
Proof. vm_compute. reflexivity. Qed.

(** C5.  [clearFormatting] on the selected text
    ["**bold** and `code` and [x](http://e)"] replaces the selection by
    exactly ["bold and code and x"], whatever surrounds the selection, and
    leaves the surrounding text as it is.  Its passes run in the order of
    the source, and the order shows in what they do.  The first pass peels
    a code fence and leaves inline code alone, the second removes inline
    code: a fenced block with inline code in it is cleared to its content,
    while the second pass alone, or the two passes exchanged, take one
    backtick of each fence delimiter for a delimiter of inline code and
    leave the other two.  The third pass strips bold and leaves italic alone, the fourth
    strips italic: ["**x**"] is cleared to ["x"], while the fourth pass
    alone, or the two exchanged, leave ["*x*"]. *)
Theorem clearFormatting_example (before after : jsstr) :
  let selected := lit "**bold** and `code` and [x](http://e)" in
  let cleared := lit "bold and code and x" in
  let fenced := lit "```js" ++ nl ++ lit "a `b` c" ++ nl ++ lit "```" in
  let garbled := lit "``js" ++ nl ++ lit "a b c" ++ nl ++ lit "``" in
  clearFormatting
    (mkTextarea (before ++ selected ++ after)
       (len before) (len before + len selected))
  = mkTextarea (before ++ cleared ++ after)
      (len before) (len before + len cleared)
  /\ match clearPasses with
     | fence :: inlineCode :: boldPass :: italicPass :: others =>
         (applyPass fenced fence = lit "a `b` c"
          /\ applyPass (lit "a `b` c") fence = lit "a `b` c"
          /\ applyPass (lit "a `b` c") inlineCode = lit "a b c"
          /\ applyPass fenced inlineCode = garbled
          /\ clearText fenced = lit "a b c"
          /\ fold_left applyPass
               (inlineCode :: fence :: boldPass :: italicPass :: others)
               fenced
             = garbled)
         /\ (applyPass (lit "**x**") boldPass = lit "x"
             /\ applyPass (lit "*x*") boldPass = lit "*x*"
             /\ applyPass (lit "*x*") italicPass = lit "x"
             /\ applyPass (lit "**x**") italicPass = lit "*x*"
             /\ clearText (lit "**x**") = lit "x"
             /\ fold_left applyPass
                  (fence :: inlineCode :: italicPass :: boldPass :: others)
                  (lit "**x**")
                = lit "*x*")
         /\ length others = 7%nat
     | _ => False
     end
  /\ map source clearPasses
     = [ "/```[^\n]*\n([\s\S]*?)\n```/g"; "/`([^`]+)`/g";
         "/\*\*([^*]+)\*\*/g"; "/\*([^*\n]+)\*/g"; "/~~([^~]+)~~/g";
         "/>!([\s\S]*?)!</g"; "/\[([^\]]+)\]\(([^)]+)\)/g";
         "/^(\s*)#{1,6}\s+/gm"; "/^(\s*)>\s+/gm"; "/^(\s*)-\s+/gm";
         "/^(\s*)\d+\.\s+/gm" ].
Proof.
  intros selected cleared fenced garbled.
  split; [|split; [|reflexivity]].
  - unfold clearFormatting. cbn [value selectionStart selectionEnd].
    rewrite substring_middle.
    assert (Hclear : clearText selected = cleared) by (vm_compute; reflexivity).
    rewrite Hclear.
    assert (Hsel : selected = 42%N :: tl selected) by reflexivity.
    rewrite Hsel at 1.
    apply (replaceSelection_pieces before selected after cleared true).
  - unfold clearPasses.
    split; [|split; [|reflexivity]];
      repeat split; vm_compute; reflexivity.
Qed.

(** ** Table *)

Section Table.

Lemma clampInt_range (lo hi x : Z) : lo <= hi -> lo <= clampInt lo hi x <= hi.
Proof. unfold clampInt. lia. Qed.

Lemma tableShapeOk_clamped (cols rows : Z) :
  tableShapeOk cols rows
  = tableShapeOk (clampInt 2 6 cols) (clampInt 2 10 rows).
Proof.
  assert (Hidem : forall lo hi x, lo <= hi -> 0 <= lo ->
                    hi < 2147483648 ->
                    clampInt lo hi (clampInt lo hi x) = clampInt lo hi x).
  { intros lo hi x H1 H2 H3. pose proof (clampInt_range lo hi x H1) as Hr.
    unfold clampInt at 1. unfold toInt32.
    rewrite Z.mod_small by lia.
    destruct (clampInt lo hi x <? 2147483648) eqn:E.
    - lia.
    - apply Z.ltb_ge in E. lia. }
  unfold tableShapeOk, tableLines.
  rewrite !Hidem by lia. reflexivity.
Qed.

Lemma tableShapeOk_all (cols rows : Z) : tableShapeOk cols rows = true.
Proof.
  rewrite tableShapeOk_clamped.
  pose proof (clampInt_range 2 6 cols ltac:(lia)) as Hc.
  pose proof (clampInt_range 2 10 rows ltac:(lia)) as Hr.
  generalize dependent (clampInt 2 10 rows).
  generalize dependent (clampInt 2 6 cols).
  intros c Hc r Hr.
  assert (c = 2 \/ c = 3 \/ c = 4 \/ c = 5 \/ c = 6) as Hcs by lia.
  assert (r = 2 \/ r = 3 \/ r = 4 \/ r = 5 \/ r = 6 \/ r = 7 \/ r = 8
          \/ r = 9 \/ r = 10) as Hrs by lia.
  clear Hc Hr.
  repeat (destruct Hcs as [-> | Hcs]);
    repeat (destruct Hrs as [-> | Hrs]);
    subst; vm_compute; reflexivity.
Qed.

Lemma toInt32_small (x : Z) :
  -2147483648 <= x < 2147483648 -> toInt32 x = x.
Proof.
  intros H. unfold toInt32.
  destruct (Z_lt_le_dec x 0) as [Hneg | Hpos].
  - assert (Hmod : x mod 4294967296 = x + 4294967296).
    { symmetry. apply Z.mod_unique with (q := -1); lia. }
    rewrite Hmod.
    destruct (x + 4294967296 <? 2147483648) eqn:E;
      [apply Z.ltb_lt in E; lia | lia].
  - rewrite Z.mod_small by lia.
    destruct (x <? 2147483648) eqn:E;
      [reflexivity | apply Z.ltb_ge in E; lia].
Qed.

End Table.

(** C8.  Whatever [cols] and [rows] are, [insertTable] clamps them into
    [2,6] and [2,10]: the number [c] of columns is
    [max(2, min(6, cols | 0))], which for a 32-bit [cols] is [cols] itself
    when it lies in [2,6], 2 below and 6 above, and the number [r] of rows
    is [max(2, min(10, rows | 0))] likewise.  The selection is replaced by
    a block of exactly [2 + r] lines: a line of ["Header i"] cells, a line
    of ["---"] cells and [r] lines of ["Cell r.c"] cells, each line holding
    exactly [c] cells between pipes; the block stays selected.  With
    [cols = 2] and [rows = 2] these are four lines of two cells. *)
Theorem insertTable_shape (cols rows : Z) (before selected after : jsstr) :
  let c := clampInt 2 6 cols in
  let r := clampInt 2 10 rows in
  let lines := tableLines cols rows in
  let block := join nl lines in
  (2 <= c <= 6 /\ 2 <= r <= 10)
  /\ (c = Z.max 2 (Z.min 6 (toInt32 cols))
      /\ r = Z.max 2 (Z.min 10 (toInt32 rows)))
  /\ (-2147483648 <= cols < 2147483648 ->
      c = Z.max 2 (Z.min 6 cols)
      /\ (2 <= cols <= 6 -> c = cols)
      /\ (cols < 2 -> c = 2) /\ (6 < cols -> c = 6))
  /\ (-2147483648 <= rows < 2147483648 ->
      r = Z.max 2 (Z.min 10 rows)
      /\ (2 <= rows <= 10 -> r = rows)
      /\ (rows < 2 -> r = 2) /\ (10 < rows -> r = 10))
  /\ clampInt 2 6 (4294967296 + 3) = 3
  /\ insertTable
       (mkTextarea (before ++ selected ++ after)
          (len before) (len before + len selected)) cols rows
     = mkTextarea (before ++ block ++ after)
         (len before) (len before + len block)
  /\ split block nl = lines
  /\ Z.of_nat (length lines) = 2 + r
  /\ map (fun line => split line (lit "|")) lines
     = map pipePieces (tableCells (Z.to_nat c) (Z.to_nat r))
  /\ Forall (fun cells => Z.of_nat (length cells) = c)
       (tableCells (Z.to_nat c) (Z.to_nat r))
  /\ tableLines 2 2
     = [ lit "| Header 1 | Header 2 |"; lit "| --- | --- |";
         lit "| Cell 1.1 | Cell 1.2 |"; lit "| Cell 2.1 | Cell 2.2 |" ].
Proof.
  intros c r lines block.
  pose proof (clampInt_range 2 6 cols ltac:(lia)) as Hc.
  pose proof (clampInt_range 2 10 rows ltac:(lia)) as Hr.
  fold c in Hc. fold r in Hr.
  pose proof (tableShapeOk_all cols rows) as Hok.
  unfold tableShapeOk in Hok. fold c r lines in Hok.
  apply andb_true_iff in Hok. destruct Hok as [Hok Hcells].
  apply andb_true_iff in Hok. destruct Hok as [Hok Hpipes].
  apply andb_true_iff in Hok. destruct Hok as [Hlen Hsplit].
  split; [split; assumption|].
  split; [split; reflexivity|].
  split.
  { intros Hint. subst c. unfold clampInt.
    rewrite toInt32_small by exact Hint. lia. }
  split.
  { intros Hint. subst r. unfold clampInt.
    rewrite toInt32_small by exact Hint. lia. }
  split; [reflexivity|].
  split; [apply replaceSelection_pieces|].
  split.
  { fold block in Hsplit.
    destruct (list_eq_dec (list_eq_dec N.eq_dec) (split block nl) lines);
      [assumption | discriminate]. }
  split.
  { apply Nat.eqb_eq in Hlen. lia. }
  split.
  { destruct (list_eq_dec (list_eq_dec (list_eq_dec N.eq_dec))
                (map (fun line => split line (lit "|")) lines)
                (map pipePieces (tableCells (Z.to_nat c) (Z.to_nat r))));
      [assumption | discriminate]. }
  split; [|reflexivity].
  apply Forall_forall. intros cells Hin.
  rewrite forallb_forall in Hcells. specialize (Hcells cells Hin).
  apply Nat.eqb_eq in Hcells. lia.
Qed.

Lemma insertTable_shape_witness :
  clampInt 2 6 3 = 3 /\ clampInt 2 10 40 = 10
  /\ Z.of_nat (length (tableLines 3 40)) = 12.
Proof.
  destruct (insertTable_shape 3 40 [] [] [])
    as (_ & _ & Hc & Hr & _ & _ & _ & Hlen & _).
  destruct Hc as (_ & Hc & _); [lia|].
  destruct Hr as (_ & _ & _ & Hr); [lia|].
  split; [apply Hc; lia|]. split; [apply Hr; lia|].
  rewrite Hlen, Hr by lia. reflexivity.
Defined.

(** * Further properties of the engine *)

(** ** Lines: searching for line feeds, splitting and joining *)

Section Lines.

Lemma startsWith_nl (s : jsstr) :
  startsWith s nl = match s with
                    | c :: _ => N.eqb LF c
                    | [] => false
                    end.
Proof.
  destruct s as [|c s]; cbn; [reflexivity|]. apply andb_true_r.
Qed.

(** [indexOf('\n')]: -1 when there is no line feed, else the length of the
    text before the first one. *)
Lemma indexOfFrom_nl (s : jsstr) (i : Z) :
  0 <= i ->
  (indexOfFrom nl s i = -1 /\ ~ In LF s) \/
  (exists x y, s = x ++ LF :: y /\ ~ In LF x
               /\ indexOfFrom nl s i = i + len x).
Proof.
  revert i. induction s as [|c s IH]; intros i Hi.
  - left. split; [reflexivity | intros []].
  - cbn [indexOfFrom]. rewrite startsWith_nl.
    destruct (N.eqb LF c) eqn:E.
    + apply N.eqb_eq in E. subst c. right. exists [], s.
      repeat split; [intros [] | rewrite len_nil; lia].
    + apply N.eqb_neq in E.
      destruct (IH (i + 1)) as [[H1 H2] | (x & y & Hs & Hx & Hr)]; [lia| |].
      * left. split; [exact H1|]. intros [Hc | Hin]; [congruence | tauto].
      * right. exists (c :: x), y. subst s. repeat split.
        -- intros [Hc | Hin]; [congruence | tauto].
        -- rewrite Hr, len_cons. lia.
Qed.

(** [lastIndexOf('\n')]: nothing when there is no line feed, else the
    length of the text before the last one. *)
Lemma lastIndexOfFrom_nl (s : jsstr) (i : Z) :
  (lastIndexOfFrom nl s i = None /\ ~ In LF s) \/
  (exists x y, s = x ++ LF :: y /\ ~ In LF y
               /\ lastIndexOfFrom nl s i = Some (i + len x)).
Proof.
  revert i. induction s as [|c s IH]; intros i.
  - left. split; [reflexivity | intros []].
  - cbn [lastIndexOfFrom].
    destruct (IH (i + 1)) as [[H1 H2] | (x & y & Hs & Hy & Hr)].
    + rewrite H1, startsWith_nl.
      destruct (N.eqb LF c) eqn:E.
      * apply N.eqb_eq in E. subst c. right. exists [], s.
        repeat split; [exact H2 | rewrite len_nil; f_equal; lia].
      * apply N.eqb_neq in E. left. split; [reflexivity|].
        intros [Hc | Hin]; [congruence | tauto].
    + right. exists (c :: x), y. subst s. repeat split; [exact Hy|].
      rewrite Hr, len_cons. f_equal. lia.
Qed.

Lemma splitGo_nonempty (sep s : jsstr) (skip : nat) (cur : jsstr) :
  splitGo sep s skip cur <> [].
Proof.
  revert skip cur. induction s as [|c s IH]; intros skip cur; cbn.
  - discriminate.
  - destruct skip; [|apply IH].
    destruct (startsWith (c :: s) sep); [discriminate | apply IH].
Qed.

Lemma join_cons (sep p : jsstr) (rest : list jsstr) :
  rest <> [] -> join sep (p :: rest) = p ++ sep ++ join sep rest.
Proof. destruct rest; [congruence | reflexivity]. Qed.

(** Joining the pieces of a split gives the text back. *)
Lemma join_splitGo_nl (s cur : jsstr) :
  join nl (splitGo nl s 0 cur) = rev cur ++ s.
Proof.
  revert cur. induction s as [|c s IH]; intros cur.
  - cbn. rewrite app_nil_r. reflexivity.
  - cbn [splitGo]. rewrite startsWith_nl.
    destruct (N.eqb LF c) eqn:E.
    + apply N.eqb_eq in E. subst c. cbn [length nl Nat.sub].
      rewrite join_cons by apply splitGo_nonempty.
      rewrite IH. reflexivity.
    + rewrite IH. cbn [rev]. rewrite <- app_assoc. reflexivity.
Qed.

Lemma join_split_nl (s : jsstr) : join nl (split s nl) = s.
Proof. apply (join_splitGo_nl s []). Qed.

(** No piece of a split holds a line feed. *)
Lemma splitGo_nl_free (s cur : jsstr) :
  ~ In LF cur -> Forall (fun line => ~ In LF line) (splitGo nl s 0 cur).
Proof.
  revert cur. induction s as [|c s IH]; intros cur Hcur.
  - cbn. constructor; [|constructor]. rewrite <- in_rev. exact Hcur.
  - cbn [splitGo]. rewrite startsWith_nl.
    destruct (N.eqb LF c) eqn:E.
    + cbn [length nl Nat.sub]. constructor.
      * rewrite <- in_rev. exact Hcur.
      * apply IH. intros [].
    + apply N.eqb_neq in E. apply IH.
      intros [Hc | Hin]; [congruence | tauto].
Qed.

Lemma split_nl_free (s : jsstr) :
  Forall (fun line => ~ In LF line) (split s nl).
Proof. apply (splitGo_nl_free s []). intros []. Qed.

Lemma splitGo_nl_line (line rest cur : jsstr) :
  ~ In LF line ->
  splitGo nl (line ++ rest) 0 cur = splitGo nl rest 0 (rev line ++ cur).
Proof.
  revert cur. induction line as [|c line IH]; intros cur Hline.
  - reflexivity.
  - cbn [app splitGo]. rewrite startsWith_nl.
    destruct (N.eqb LF c) eqn:E.
    + apply N.eqb_eq in E. subst c. exfalso. apply Hline. left. reflexivity.
    + rewrite IH by (intros Hin; apply Hline; right; exact Hin).
      cbn [rev]. rewrite <- app_assoc. reflexivity.
Qed.

(** Splitting the join of lines without line feeds gives the lines back. *)
Lemma split_join_nl (lines : list jsstr) :
  lines <> [] -> Forall (fun line => ~ In LF line) lines ->
  split (join nl lines) nl = lines.
Proof.
  intros Hne Hfree. unfold split. cbn [nl].
  change (splitGo [LF] (join nl lines) 0 []) with (splitGo nl (join nl lines) 0 []).
  induction lines as [|l lines IH]; [congruence|].
  inversion Hfree as [|? ? Hl Hrest]; subst.
  destruct lines as [|l2 lines].
  - cbn [join]. rewrite <- (app_nil_r l) at 1.
    rewrite splitGo_nl_line by exact Hl. cbn [splitGo].
    rewrite app_nil_r, rev_involutive. reflexivity.
  - rewrite join_cons by discriminate.
    rewrite splitGo_nl_line by exact Hl.
    cbn [nl app splitGo]. rewrite startsWith_nl, N.eqb_refl.
    cbn [length Nat.sub]. rewrite app_nil_r, rev_involutive.
    f_equal. apply IH; [discriminate | exact Hrest].
Qed.

End Lines.

(** ** The line block *)

Section Block.

Lemma lastIndexOfFrom_ends_nl (x : jsstr) (i : Z) :
  lastIndexOfFrom nl (x ++ [LF]) i = Some (i + len x).
Proof.
  revert i. induction x as [|c x IH]; intros i.
  - cbn. f_equal. lia.
  - cbn [app lastIndexOfFrom]. rewrite IH, len_cons. f_equal. lia.
Qed.

(** A block that starts the buffer or follows a line feed, and that ends
    the buffer or is followed by a line feed, is the line block of the
    selection that covers it. *)
Lemma block_of_whole_lines (head blk tail : jsstr) :
  (head = [] \/ exists x, head = x ++ [LF]) ->
  (tail = [] \/ exists z, tail = LF :: z) ->
  let ta := mkTextarea (head ++ blk ++ tail) (len head) (len head + len blk) in
  lineStartOf (value ta) (selectionStart ta) = len head
  /\ lineEndOf (value ta) (selectionEnd ta) = len head + len blk
  /\ blockLines ta = split blk nl.
Proof.
  intros Hhead Htail ta.
  assert (Hls : lineStartOf (value ta) (selectionStart ta) = len head).
  { unfold lineStartOf, ta. cbn [value selectionStart].
    rewrite substring_before. unfold lastIndexOf.
    destruct Hhead as [-> | [x ->]].
    - reflexivity.
    - rewrite lastIndexOfFrom_ends_nl, len_app. reflexivity. }
  assert (Hle : lineEndOf (value ta) (selectionEnd ta) = len head + len blk).
  { unfold lineEndOf, ta. cbn [value selectionEnd].
    rewrite substringFrom_after2.
    destruct Htail as [-> | [z ->]].
    - cbn [indexOf indexOfFrom startsWith nl].
      replace (len head + len blk + -1 =? len head + len blk - 1) with true
        by (symmetry; apply Z.eqb_eq; lia).
      rewrite !len_app, len_nil. lia.
    - unfold indexOf. cbn [indexOfFrom]. rewrite startsWith_nl, N.eqb_refl.
      replace (len head + len blk + 0 =? len head + len blk - 1) with false
        by (symmetry; apply Z.eqb_neq; lia).
      lia. }
  repeat split; [exact Hls | exact Hle |].
  unfold blockLines. rewrite Hls, Hle. unfold ta. cbn [value].
  rewrite substring_middle. reflexivity.
Qed.

(** Every valid selection sits in such a block: the text from the start of
    its first line to the end of its last line. *)
Lemma block_pieces (ta : textarea) :
  validSelection ta ->
  exists head y s y' tail,
    ta = mkTextarea (head ++ (y ++ s ++ y') ++ tail)
           (len head + len y) (len head + len y + len s)
    /\ (head = [] \/ exists x, head = x ++ [LF])
    /\ (tail = [] \/ exists z, tail = LF :: z)
    /\ ~ In LF y /\ ~ In LF y'
    /\ lineStartOf (value ta) (selectionStart ta) = len head
    /\ lineEndOf (value ta) (selectionEnd ta) = len head + len (y ++ s ++ y').
Proof.
  intros Hvalid.
  destruct (textarea_split ta Hvalid) as (b & s & t & ->).
  assert (Hb : exists head y, b = head ++ y
                 /\ (head = [] \/ exists x, head = x ++ [LF])
                 /\ ~ In LF y
                 /\ lastIndexOf b nl + 1 = len head).
  { unfold lastIndexOf.
    destruct (lastIndexOfFrom_nl b 0) as [[H1 H2] | (x & y & Hs & Hy & Hr)].
    - exists [], b. rewrite H1. repeat split; [left; reflexivity | exact H2].
    - exists (x ++ [LF]), y. rewrite Hr, Hs, <- app_assoc, len_app.
      repeat split; [right; exists x; reflexivity | exact Hy]. }
  assert (Ht : exists y' tail, t = y' ++ tail
                 /\ (tail = [] \/ exists z, tail = LF :: z)
                 /\ ~ In LF y'
                 /\ (let pos := len b + len s + indexOf t nl in
                     if pos =? len b + len s - 1
                     then len (b ++ s ++ t) else pos)
                    = len b + len s + len y').
  { unfold indexOf.
    destruct (indexOfFrom_nl t 0) as [[H1 H2] | (x & y & Hs & Hx & Hr)]; [lia| |].
    - exists t, []. rewrite H1, app_nil_r. cbv zeta.
      replace (len b + len s + -1 =? len b + len s - 1) with true
        by (symmetry; apply Z.eqb_eq; lia).
      rewrite !len_app. repeat split; [left; reflexivity | exact H2 | lia].
    - exists x, (LF :: y). rewrite Hr. cbv zeta.
      pose proof (len_nonneg x).
      replace (len b + len s + (0 + len x) =? len b + len s - 1) with false
        by (symmetry; apply Z.eqb_neq; lia).
      split; [exact Hs|]. split; [right; exists y; reflexivity|].
      split; [exact Hx | lia]. }
  destruct Hb as (head & y & -> & Hhead & Hy & Hls).
  destruct Ht as (y' & tail & -> & Htail & Hy' & Hle).
  exists head, y, s, y', tail.
  split.
  { rewrite <- !app_assoc, len_app. f_equal; lia. }
  split; [exact Hhead|]. split; [exact Htail|].
  split; [exact Hy|]. split; [exact Hy'|].
  split.
  - unfold lineStartOf. cbn [value selectionStart].
    rewrite substring_before. exact Hls.
  - unfold lineEndOf. cbn [value selectionEnd].
    rewrite substringFrom_after2. cbv zeta in Hle. rewrite Hle.
    rewrite !len_app. lia.
Qed.

(** The pieces, read back from the buffer. *)
Lemma block_pieces_read (head blk tail : jsstr) :
  firstn (Z.to_nat (len head)) (head ++ blk ++ tail) = head
  /\ skipn (Z.to_nat (len head + len blk)) (head ++ blk ++ tail) = tail
  /\ substring (head ++ blk ++ tail) (len head) (len head + len blk) = blk.
Proof.
  repeat split.
  - unfold len. rewrite Nat2Z.id. apply firstn_len_app.
  - replace (Z.to_nat (len head + len blk)) with (length (head ++ blk))
      by (rewrite length_app; unfold len; lia).
    rewrite app_assoc. apply skipn_len_app.
  - apply substring_middle.
Qed.

End Block.

(** X1.  The line block of a valid selection is made of whole lines: it
    starts at the beginning of the buffer or just after a line feed, it ends
    at the end of the buffer or just before a line feed, there is no line
    feed between its start and the selection start nor between the selection
    end and its end, and its lines, none of which holds a line feed, joined
    by line feeds, are its text. *)
Theorem line_block_whole_lines (ta : textarea) :
  validSelection ta ->
  let v := value ta in
  let ls := lineStartOf v (selectionStart ta) in
  let le := lineEndOf v (selectionEnd ta) in
  (ls = 0 \/ nth_error v (Z.to_nat (ls - 1)) = Some LF)
  /\ (le = len v \/ nth_error v (Z.to_nat le) = Some LF)
  /\ ~ In LF (substring v ls (selectionStart ta))
  /\ ~ In LF (substring v (selectionEnd ta) le)
  /\ join nl (blockLines ta) = substring v ls le
  /\ Forall (fun line => ~ In LF line) (blockLines ta).
Proof.
  intros Hvalid v ls le.
  destruct (block_pieces ta Hvalid)
    as (head & y & s & y' & tail & Hta & Hhead & Htail & Hy & Hy' & Hls & Hle).
  subst v ls le. rewrite Hls, Hle.
  unfold blockLines. rewrite Hls, Hle.
  rewrite Hta. cbn [value selectionStart selectionEnd].
  pose proof (len_nonneg head). pose proof (len_nonneg y).
  pose proof (len_nonneg s). pose proof (len_nonneg y').
  split.
  { destruct Hhead as [-> | [x ->]]; [left; reflexivity | right].
    rewrite len_app. change (len [LF]) with 1.
    replace (Z.to_nat (len x + 1 - 1)) with (length x) by (unfold len; lia).
    rewrite <- !app_assoc. rewrite nth_error_app2 by lia.
    rewrite Nat.sub_diag. reflexivity. }
  split.
  { destruct Htail as [-> | [z ->]].
    - left. rewrite !len_app, len_nil. lia.
    - right.
      replace (Z.to_nat (len head + len (y ++ s ++ y')))
        with (length (head ++ y ++ s ++ y'))
        by (rewrite length_app; unfold len; lia).
      rewrite app_assoc. rewrite nth_error_app2 by lia.
      rewrite Nat.sub_diag. reflexivity. }
  split.
  { rewrite <- (app_assoc y). rewrite substring_middle. exact Hy. }
  split.
  { replace (head ++ (y ++ s ++ y') ++ tail)
      with ((head ++ y ++ s) ++ y' ++ tail)
      by (rewrite <- !app_assoc; reflexivity).
    replace (len head + len y + len s) with (len (head ++ y ++ s))
      by (rewrite !len_app; lia).
    replace (len head + len (y ++ s ++ y'))
      with (len (head ++ y ++ s) + len y')
      by (rewrite !len_app; lia).
    rewrite substring_middle. exact Hy'. }
  rewrite substring_middle.
  split; [apply join_split_nl | apply split_nl_free].
Qed.

Lemma line_block_whole_lines_witness :
  let ta := mkTextarea (lit "x" ++ nl ++ lit "ab" ++ nl ++ lit "y") 3 4 in
  join nl (blockLines ta) = lit "ab".
Proof.
  intros ta.
  destruct (line_block_whole_lines ta) as (_ & _ & _ & _ & H & _).
  - vm_compute. repeat split; discriminate.
  - rewrite H. reflexivity.
Defined.

(** ** Re-invoking a line operation *)

Section Reinvoke.

(** The buffer of a valid selection, seen as the text before the line
    block, the block and the text after it. *)
Lemma block_view (ta : textarea) :
  validSelection ta ->
  exists head blk tail,
    (head = [] \/ exists x, head = x ++ [LF])
    /\ (tail = [] \/ exists z, tail = LF :: z)
    /\ value ta = head ++ blk ++ tail
    /\ lineStartOf (value ta) (selectionStart ta) = len head
    /\ lineEndOf (value ta) (selectionEnd ta) = len head + len blk
    /\ blockLines ta = split blk nl
    /\ firstn (Z.to_nat (len head)) (value ta) = head
    /\ skipn (Z.to_nat (len head + len blk)) (value ta) = tail.
Proof.
  intros Hvalid.
  destruct (block_pieces ta Hvalid)
    as (head & y & s & y' & tail & Hta & Hhead & Htail & _ & _ & Hls & Hle).
  exists head, (y ++ s ++ y'), tail.
  destruct (block_pieces_read head (y ++ s ++ y') tail) as (Hf & Hs & Hm).
  assert (Hv : value ta = head ++ (y ++ s ++ y') ++ tail)
    by (rewrite Hta; reflexivity).
  split; [exact Hhead|]. split; [exact Htail|]. split; [exact Hv|].
  split; [exact Hls|]. split; [exact Hle|].
  split.
  - unfold blockLines. rewrite Hls, Hle, Hv, Hm. reflexivity.
  - rewrite Hv. split; assumption.
Qed.

Lemma in_skipn_in (c : codeunit) (n : nat) (s : jsstr) :
  In c (skipn n s) -> In c s.
Proof.
  revert s. induction n as [|n IH]; intros s H; [exact H|].
  destruct s as [|d s]; [exact H|]. right. apply IH. exact H.
Qed.

Lemma in_trimStart (c : codeunit) (s : jsstr) : In c (trimStart s) -> In c s.
Proof.
  destruct (trimStart_split s) as (w & Hs & _). intros H.
  rewrite Hs. apply in_or_app. right. exact H.
Qed.

Lemma in_repeatStr_space (c : codeunit) (n : nat) :
  In c (repeatStr [SP] n) -> c = SP.
Proof.
  induction n as [|n IH]; cbn; [intros [] | intros [H | H]];
    [symmetry; exact H | apply IH; exact H].
Qed.

Lemma addPrefix_nl_free (prefix line : jsstr) :
  ~ In LF prefix -> ~ In LF line -> ~ In LF (addPrefix prefix line).
Proof.
  intros Hp Hl. unfold addPrefix. destruct (trim line); [exact Hl|].
  intros H. apply in_app_or in H. tauto.
Qed.

Lemma removePrefix_nl_free (prefix line : jsstr) :
  ~ In LF line -> ~ In LF (removePrefix prefix line).
Proof.
  intros Hl. unfold removePrefix.
  destruct (startsWith (trimStart line) (trim prefix)); [|exact Hl].
  intros H. apply in_app_or in H. destruct H as [H | H].
  - apply in_repeatStr_space in H. discriminate H.
  - unfold substringFrom in H. apply in_skipn_in in H.
    apply Hl. apply in_trimStart. exact H.
Qed.

(** What a line operation commits is again a block of whole lines, whose
    lines are the lines it wrote. *)
Lemma rewritten_block (head tail : jsstr) (newLines : list jsstr) :
  (head = [] \/ exists x, head = x ++ [LF]) ->
  (tail = [] \/ exists z, tail = LF :: z) ->
  newLines <> [] -> Forall (fun line => ~ In LF line) newLines ->
  let nb := join nl newLines in
  let ta' := mkTextarea (head ++ nb ++ tail) (len head) (len head + len nb) in
  lineStartOf (value ta') (selectionStart ta') = len head
  /\ lineEndOf (value ta') (selectionEnd ta') = len head + len nb
  /\ blockLines ta' = newLines.
Proof.
  intros Hhead Htail Hne Hfree nb ta'.
  destruct (block_of_whole_lines head nb tail Hhead Htail) as (H1 & H2 & H3).
  repeat split; [exact H1 | exact H2 |].
  fold ta' in H3. rewrite H3. apply split_join_nl; assumption.
Qed.

Lemma split_nonempty (s : jsstr) : split s nl <> [].
Proof. apply (splitGo_nonempty nl s 0 []). Qed.

Lemma map_nonempty {A B : Type} (f : A -> B) (l : list A) :
  l <> [] -> map f l <> [].
Proof. destruct l; [congruence | discriminate]. Qed.

End Reinvoke.

(** X2.  [prefixLines] with a prefix that holds no line feed hands back
    a selection that is exactly the line block a further line operation
    works on: the block boundaries computed from the returned selection are
    the selection itself, and the lines of that block are the lines just
    written. *)
Theorem prefixLines_selects_rewritten_block (ta : textarea) (prefix : jsstr)
    (toggleable : bool) :
  validSelection ta -> ~ In LF prefix ->
  let ta' := prefixLines ta prefix toggleable in
  lineStartOf (value ta') (selectionStart ta') = selectionStart ta'
  /\ lineEndOf (value ta') (selectionEnd ta') = selectionEnd ta'
  /\ blockLines ta'
     = (if allPrefixed prefix toggleable (blockLines ta)
        then map (removePrefix prefix) (blockLines ta)
        else map (addPrefix prefix) (blockLines ta)).
Proof.
  intros Hvalid Hprefix ta'.
  destruct (block_view ta Hvalid)
    as (head & blk & tail & Hhead & Htail & Hv & Hls & Hle & Hlines & Hf & Hs).
  pose proof (prefixLines_block ta prefix toggleable Hvalid) as Hblock.
  cbv zeta in Hblock. rewrite Hls, Hle, Hf, Hs in Hblock.
  subst ta'. rewrite Hblock.
  set (newLines := if allPrefixed prefix toggleable (blockLines ta)
                   then map (removePrefix prefix) (blockLines ta)
                   else map (addPrefix prefix) (blockLines ta)).
  assert (Hne : newLines <> []).
  { subst newLines. rewrite Hlines.
    destruct (allPrefixed prefix toggleable (split blk nl));
      apply map_nonempty, split_nonempty. }
  assert (Hfree : Forall (fun line => ~ In LF line) newLines).
  { subst newLines. rewrite Hlines.
    pose proof (split_nl_free blk) as Hsplit.
    destruct (allPrefixed prefix toggleable (split blk nl));
      apply Forall_map; eapply Forall_impl; try exact Hsplit; intros line Hl.
    - apply removePrefix_nl_free. exact Hl.
    - apply addPrefix_nl_free; assumption. }
  destruct (rewritten_block head tail newLines Hhead Htail Hne Hfree)
    as (H1 & H2 & H3).
  cbn [selectionStart selectionEnd]. repeat split; assumption.
Qed.

Lemma prefixLines_selects_rewritten_block_witness :
  let ta' := prefixLines
               (mkTextarea (lit "x" ++ nl ++ lit "ab" ++ nl ++ lit "y") 3 4)
               (lit "> ") true in
  blockLines ta' = [lit "> ab"].
Proof.
  intros ta'.
  destruct (prefixLines_selects_rewritten_block
              (mkTextarea (lit "x" ++ nl ++ lit "ab" ++ nl ++ lit "y") 3 4)
              (lit "> ") true) as (_ & _ & H).
  - vm_compute. repeat split; discriminate.
  - vm_compute. intros [H | [H | []]]; discriminate H.
  - exact H.
Defined.

Section ToggleTwice.

Lemma nonblank_addPrefix (prefix line : jsstr) :
  trim line <> [] -> addPrefix prefix line = prefix ++ line.
Proof. unfold addPrefix. destruct (trim line); [congruence | reflexivity]. Qed.

(** A line that was given the prefix is recognised, and the removal branch
    takes off the trimmed prefix only: the white space that ends the prefix
    stays in front of the line. *)
Lemma removePrefix_after_add (prefix w line : jsstr) :
  trim prefix <> [] -> prefix = trim prefix ++ w ->
  startsWith (trimStart (prefix ++ line)) (trim prefix) = true
  /\ removePrefix prefix (prefix ++ line) = w ++ line.
Proof.
  intros Hq Hp.
  assert (Hts : trimStart (prefix ++ line) = trim prefix ++ w ++ line).
  { rewrite Hp at 1. rewrite <- app_assoc.
    destruct (trim prefix) as [|c t] eqn:E; [congruence|].
    cbn [app]. apply trimStart_fixed. apply (trim_head prefix c t E). }
  assert (Hsw : startsWith (trimStart (prefix ++ line)) (trim prefix) = true)
    by (rewrite Hts; apply startsWith_app).
  split; [exact Hsw|].
  rewrite removePrefix_stripped by exact Hsw.
  pose proof (stripped_spaces prefix [] (w ++ line) Hq (Forall_nil _)) as H.
  cbn [app] in H. rewrite <- H. f_equal.
  rewrite Hp at 1. rewrite <- app_assoc. reflexivity.
Qed.

End ToggleTwice.

(** X3.  Toggling a prefix on and off does not in general give the text
    back: on a block without blank lines to which the prefix is first added,
    the second [prefixLines] removes [prefix.trim()] only, so every line
    comes back with the white space that ends the prefix in front of it (one
    space for the quote and bullet prefixes).  When the prefix ends with no
    white space the buffer is restored exactly. *)
Theorem prefixLines_toggle_twice (ta : textarea) (prefix w : jsstr) :
  validSelection ta -> ~ In LF prefix ->
  trim prefix <> [] -> prefix = trim prefix ++ w ->
  Forall (fun line => trim line <> []) (blockLines ta) ->
  allPrefixed prefix true (blockLines ta) = false ->
  let v := value ta in
  let ls := lineStartOf v (selectionStart ta) in
  let le := lineEndOf v (selectionEnd ta) in
  let back := join nl (map (fun line => w ++ line) (blockLines ta)) in
  prefixLines (prefixLines ta prefix true) prefix true
  = mkTextarea (firstn (Z.to_nat ls) v ++ back ++ skipn (Z.to_nat le) v)
      ls (ls + len back)
  /\ (w = [] ->
      prefixLines (prefixLines ta prefix true) prefix true
      = mkTextarea v ls le).
Proof.
  intros Hvalid Hfree Hq Hp Hnonblank Hfirst v ls le back.
  destruct (block_view ta Hvalid)
    as (head & blk & tail & Hhead & Htail & Hv & Hls & Hle & Hlines & Hf & Hs).
  pose proof (prefixLines_block ta prefix true Hvalid) as H1.
  cbv zeta in H1. rewrite Hfirst in H1.
  fold v ls le in H1. fold v in Hls, Hle, Hf, Hs, Hv.
  assert (Hadd : map (addPrefix prefix) (blockLines ta)
                 = map (fun line => prefix ++ line) (blockLines ta)).
  { apply map_ext_in. intros line Hin. apply nonblank_addPrefix.
    rewrite Forall_forall in Hnonblank. exact (Hnonblank line Hin). }
  rewrite Hadd in H1.
  set (lines1 := map (fun line => prefix ++ line) (blockLines ta)) in *.
  assert (Hne1 : lines1 <> []).
  { subst lines1. rewrite Hlines. apply map_nonempty, split_nonempty. }
  assert (Hfree1 : Forall (fun line => ~ In LF line) lines1).
  { subst lines1. rewrite Hlines. apply Forall_map.
    eapply Forall_impl; [|apply split_nl_free].
    intros line Hl. cbn beta in *. intros Hin.
    apply in_app_or in Hin. destruct Hin as [Hin | Hin]; [exact (Hfree Hin) | exact (Hl Hin)]. }
  destruct (rewritten_block head tail lines1 Hhead Htail Hne1 Hfree1)
    as (Hls1 & Hle1 & Hlines1).
  assert (Hta1 : prefixLines ta prefix true
                 = mkTextarea (head ++ join nl lines1 ++ tail)
                     (len head) (len head + len (join nl lines1))).
  { rewrite H1. subst ls le. rewrite Hls, Hle, Hf, Hs. reflexivity. }
  assert (Hall : allPrefixed prefix true lines1 = true).
  { apply allPrefixed_spec. subst lines1. apply Forall_map.
    apply Forall_forall. intros line _.
    apply (removePrefix_after_add prefix w line Hq Hp). }
  assert (Hrem : map (removePrefix prefix) lines1
                 = map (fun line => w ++ line) (blockLines ta)).
  { subst lines1. rewrite map_map. apply map_ext. intros line.
    apply (removePrefix_after_add prefix w line Hq Hp). }
  assert (Hres : prefixLines (prefixLines ta prefix true) prefix true
                 = mkTextarea (head ++ back ++ tail)
                     (len head) (len head + len back)).
  { pose proof (prefixLines_block (prefixLines ta prefix true) prefix true
                  (prefixLines_valid ta prefix true)) as H2.
    cbv zeta in H2. rewrite Hta1 in H2 |- *.
    rewrite Hls1, Hle1, Hlines1, Hall, Hrem in H2.
    destruct (block_pieces_read head (join nl lines1) tail) as (Hf1 & Hs1 & _).
    cbn [value] in H2. rewrite Hf1, Hs1 in H2. exact H2. }
  split.
  - rewrite Hres. subst ls le. rewrite Hls, Hle, Hf, Hs. reflexivity.
  - intros ->. rewrite Hres. subst back.
    cbn [app]. rewrite map_id, Hlines, join_split_nl.
    subst ls le. rewrite Hls, Hle, Hv. reflexivity.
Qed.

Lemma prefixLines_toggle_twice_witness :
  quote (quote (mkTextarea (lit "a" ++ nl ++ lit "b") 0 3))
  = mkTextarea (lit " a" ++ nl ++ lit " b") 0 5.
Proof.
  destruct (prefixLines_toggle_twice
              (mkTextarea (lit "a" ++ nl ++ lit "b") 0 3) (lit "> ") (lit " "))
    as (H & _).
  - vm_compute. repeat split; discriminate.
  - vm_compute. intros [H | [H | []]]; discriminate H.
  - vm_compute. discriminate.
  - reflexivity.
  - repeat constructor; vm_compute; discriminate.
  - reflexivity.
  - exact H.
Defined.

(** ** Numbering *)

Lemma numberLines_length (counter : nat) (lines : list jsstr) :
  length (numberLines counter lines) = length lines.
Proof.
  revert counter. induction lines as [|l lines IH]; intros counter;
    cbn [numberLines]; [reflexivity|].
  destruct (trim l); cbn [length]; rewrite IH; reflexivity.
Qed.

(** X4.  [insertNumberedList] numbers the non-blank lines 1, 2, 3, ... in
    order and leaves blank lines as they are without using up a number: the
    line at index [i] of the block, if it is not blank, gets the number
    [counter] plus the count of non-blank lines before it. *)
Theorem numberLines_sequential (counter : nat) (lines : list jsstr)
    (i : nat) (line : jsstr) :
  nth_error lines i = Some line ->
  length (numberLines counter lines) = length lines
  /\ nth_error (numberLines counter lines) i
     = Some (match trim line with
             | [] => line
             | _ => ofNat (counter + nonBlankCount (firstn i lines))
                    ++ lit ". " ++ line
             end).
Proof.
  intros Hnth. split; [apply numberLines_length|].
  revert counter i Hnth.
  induction lines as [|l lines IH]; intros counter i Hnth.
  - destruct i; discriminate.
  - destruct i as [|i].
    + cbn in Hnth. injection Hnth as ->.
      cbn [numberLines firstn]. unfold nonBlankCount. cbn [filter length].
      rewrite Nat.add_0_r. destruct (trim line); reflexivity.
    + cbn [nth_error] in Hnth. cbn [numberLines firstn].
      unfold nonBlankCount. cbn [filter].
      destruct (trim l) eqn:E; cbn [nth_error length].
      * rewrite (IH counter i Hnth). reflexivity.
      * rewrite (IH (S counter) i Hnth). unfold nonBlankCount.
        rewrite Nat.add_succ_r. reflexivity.
Qed.

Lemma numberLines_sequential_witness :
  nth_error (numberLines 1 [lit "a"; lit "  "; lit "b"]) 2
  = Some (lit "2. b").
Proof.
  destruct (numberLines_sequential 1 [lit "a"; lit "  "; lit "b"] 2 (lit "b"))
    as (_ & H).
  - reflexivity.
  - rewrite H. reflexivity.
Defined.

(** ** The matcher on digits *)

Section RegexFacts.

Lemma run_Star (ml greedy : bool) (r : regex) (k : mstate -> option mstate)
    (st : mstate) :
  run ml (Star greedy r) k st
  = starLoop ml r k greedy (S (length (rest st))) st.
Proof. reflexivity. Qed.

Lemma run_Seq (ml : bool) (r1 r2 : regex) (k : mstate -> option mstate)
    (st : mstate) :
  run ml (Seq r1 r2) k st = run ml r1 (fun st' => run ml r2 k st') st.
Proof. reflexivity. Qed.

Lemma run_Chr (ml : bool) (cls : codeunit -> bool)
    (k : mstate -> option mstate) (p : nat) (c : codeunit) (s : jsstr)
    (pv : option codeunit) (cs : list (nat * jsstr)) :
  run ml (Chr cls) k (mkState p (c :: s) pv cs)
  = if cls c then k (mkState (S p) s (Some c) cs) else None.
Proof. reflexivity. Qed.

Lemma run_Bol_start (ml : bool) (k : mstate -> option mstate) (p : nat)
    (s : jsstr) (cs : list (nat * jsstr)) :
  run ml Bol k (mkState p s None cs) = k (mkState p s None cs).
Proof. reflexivity. Qed.

(** A greedy iteration of a class takes the whole run of code units of the
    class when what follows the iteration matches after that run. *)
Lemma starLoop_greedy_class (ml : bool) (cls : codeunit -> bool)
    (k : mstate -> option mstate) (ds tail : jsstr)
    (cs : list (nat * jsstr)) (out : mstate) :
  forall (fuel p : nat) (pv : option codeunit),
    (length ds <= fuel)%nat ->
    forallb cls ds = true ->
    match tail with [] => True | c :: _ => cls c = false end ->
    k (mkState (p + length ds) tail (prevAfter pv ds) cs) = Some out ->
    starLoop ml (Chr cls) k true fuel (mkState p (ds ++ tail) pv cs)
    = Some out.
Proof.
  induction ds as [|d ds IH]; intros fuel p pv Hfuel Hds Htail Hk.
  - cbn [app length prevAfter fold_left] in *. rewrite Nat.add_0_r in Hk.
    destruct fuel as [|fuel]; cbn [starLoop]; [exact Hk|].
    destruct tail as [|c tail].
    + cbn. exact Hk.
    + rewrite run_Chr, Htail. exact Hk.
  - destruct fuel as [|fuel]; [cbn in Hfuel; lia|].
    cbn [forallb] in Hds. apply andb_true_iff in Hds. destruct Hds as [Hd Hds].
    cbn [starLoop app]. rewrite run_Chr, Hd. cbn [pos].
    replace (p <? S p)%nat with true by (symmetry; apply Nat.ltb_lt; lia).
    rewrite (IH fuel (S p) (Some d)).
    + reflexivity.
    + cbn [length] in Hfuel. lia.
    + exact Hds.
    + exact Htail.
    + cbn [length prevAfter fold_left] in Hk.
      replace (S p + length ds)%nat with (p + S (length ds))%nat by lia.
      exact Hk.
Qed.

Lemma digit_not_white (c : codeunit) : isDigit c = true -> isWhite c = false.
Proof.
  unfold isDigit, isWhite. intros H.
  apply andb_true_iff in H. destruct H as [H1 H2].
  apply N.leb_le in H1. apply N.leb_le in H2.
  repeat match goal with
         | |- context [N.leb ?a ?b] =>
             destruct (N.leb_spec a b); try lia
         | |- context [N.eqb ?a ?b] =>
             destruct (N.eqb_spec a b); try lia
         end;
    try reflexivity.
Qed.

(** [/^\s*\d+\.\s/] on a number, a dot, a space and a line: the match is
    the number, the dot and the space. *)
Lemma leadingNumber_match (D line : jsstr) :
  D <> [] -> forallb isDigit D = true ->
  exists st,
    matchAt false reLeadingNumber 0 None (D ++ 46%N :: 32%N :: line) = Some st
    /\ rest st = line.
Proof.
  intros Hne HD. destruct D as [|d D]; [congruence|].
  cbn [forallb] in HD. apply andb_true_iff in HD. destruct HD as [Hd HD].
  eexists. split.
  - unfold matchAt, reLeadingNumber. rewrite run_Seq, run_Bol_start.
    rewrite run_Seq, run_Star.
    apply (starLoop_greedy_class false isWhite _ [] _ [] _ _ 0%nat None).
    + cbn. lia.
    + reflexivity.
    + cbn [app]. apply digit_not_white. exact Hd.
    + cbn [app length prevAfter fold_left Nat.add].
      unfold plus, digit. rewrite !run_Seq. rewrite run_Chr, Hd.
      rewrite run_Star. cbn [rest].
      apply (starLoop_greedy_class false isDigit _ D (46%N :: 32%N :: line)).
      * rewrite length_app. lia.
      * exact HD.
      * reflexivity.
      * unfold one, white. rewrite run_Seq, run_Chr. cbn [N.eqb Pos.eqb].
        rewrite run_Chr. cbn [isWhite]. reflexivity.
  - reflexivity.
Qed.

(** [/^\d+\.\s/] matches a number, a dot and a space. *)
Lemma numbered_test (D tail : jsstr) :
  D <> [] -> forallb isDigit D = true ->
  test false reNumbered (D ++ 46%N :: 32%N :: tail) = true.
Proof.
  intros Hne HD. destruct D as [|d D]; [congruence|].
  cbn [forallb] in HD. apply andb_true_iff in HD. destruct HD as [Hd HD].
  unfold test.
  assert (H : exists st,
             matchAt false reNumbered 0 None ((d :: D) ++ 46%N :: 32%N :: tail)
             = Some st).
  { eexists. unfold matchAt, reNumbered. rewrite run_Seq, run_Bol_start.
    cbn [app]. unfold plus, digit. rewrite !run_Seq. rewrite run_Chr, Hd.
    rewrite run_Star. cbn [rest].
    apply (starLoop_greedy_class false isDigit _ D (46%N :: 32%N :: tail)).
    - rewrite length_app. lia.
    - exact HD.
    - reflexivity.
    - unfold one, white. rewrite run_Seq, run_Chr. cbn [N.eqb Pos.eqb].
      rewrite run_Chr. cbn [isWhite]. reflexivity. }
  destruct H as [st Hst].
  destruct ((d :: D) ++ 46%N :: 32%N :: tail) eqn:E;
    cbn [search]; rewrite Hst; reflexivity.
Qed.

End RegexFacts.

(** ** Numbered list round trip *)

Section NumberedRoundTrip.

Lemma uint_digits (u : Decimal.uint) :
  forallb isDigit (lit (DecimalString.NilEmpty.string_of_uint u)) = true.
Proof. induction u; cbn; try reflexivity; exact IHu. Qed.

Lemma ofNat_digits (n : nat) :
  ofNat n <> [] /\ forallb isDigit (ofNat n) = true.
Proof.
  unfold ofNat, DecimalString.NilZero.string_of_uint.
  destruct (Nat.to_uint n) eqn:E;
    (split; [cbn; discriminate | try reflexivity; rewrite <- E at 1]).
  all: try (rewrite E; apply (uint_digits _)).
Qed.

Lemma nonblank_trimEnd (line : jsstr) : trim line <> [] -> trimEnd line <> [].
Proof.
  intros H. destruct (trimStart line) as [|c t] eqn:E.
  - exfalso. apply H. unfold trim. rewrite E. reflexivity.
  - destruct (trimStart_split line) as (w & Hs & _). rewrite E in Hs.
    pose proof (trimStart_head line c t E) as Hc.
    unfold trimEnd. rewrite Hs, rev_app_distr. cbn [rev].
    rewrite <- app_assoc. cbn [app].
    destruct (trimStart_stops (rev t) (rev w) c Hc) as (a' & ->).
    intros Hnil. apply (f_equal (@length _)) in Hnil.
    rewrite length_rev, length_app in Hnil. cbn in Hnil. lia.
Qed.

Lemma trimEnd_app_nonblank (a b : jsstr) :
  trimEnd b <> [] -> trimEnd (a ++ b) = a ++ trimEnd b.
Proof.
  intros H. unfold trimEnd in *. rewrite rev_app_distr.
  destruct (trimStart (rev b)) as [|c t] eqn:E; [cbn in H; congruence|].
  destruct (trimStart_split (rev b)) as (w & Hs & Hw). rewrite E in Hs.
  rewrite Hs, <- app_assoc, trimStart_white_prefix by exact Hw.
  cbn [app]. rewrite trimStart_fixed by apply (trimStart_head _ _ _ E).
  change (c :: t ++ rev a) with ((c :: t) ++ rev a).
  rewrite rev_app_distr, rev_involutive. reflexivity.
Qed.

(** A numbered non-blank line, once trimmed, still starts with its number,
    a dot and a space. *)
Lemma trim_numbered (D line : jsstr) :
  D <> [] -> forallb isDigit D = true -> trim line <> [] ->
  trim (D ++ 46%N :: 32%N :: line) = D ++ 46%N :: 32%N :: trimEnd line.
Proof.
  intros Hne HD Hline. unfold trim.
  destruct D as [|d D]; [congruence|].
  cbn [forallb] in HD. apply andb_true_iff in HD. destruct HD as [Hd _].
  cbn [app]. rewrite trimStart_fixed by (apply digit_not_white; exact Hd).
  replace (d :: D ++ 46%N :: 32%N :: line)
    with ((d :: D ++ [46%N; 32%N]) ++ line)
    by (cbn [app]; rewrite <- app_assoc; reflexivity).
  rewrite trimEnd_app_nonblank by (apply nonblank_trimEnd; exact Hline).
  cbn [app]. rewrite <- app_assoc. reflexivity.
Qed.

Lemma numbered_line_facts (n : nat) (line : jsstr) :
  trim line <> [] -> ~ In LF line ->
  let numbered := ofNat n ++ lit ". " ++ line in
  test false reNumbered (trim numbered) = true
  /\ replaceFirst false reLeadingNumber [] numbered = line
  /\ ~ In LF numbered
  /\ numbered <> [].
Proof.
  intros Hline Hfree numbered.
  destruct (ofNat_digits n) as [Hne HD].
  change (lit ". " ++ line) with (46%N :: 32%N :: line) in numbered.
  subst numbered. repeat split.
  - rewrite trim_numbered by assumption. apply numbered_test; assumption.
  - destruct (leadingNumber_match (ofNat n) line Hne HD) as (st & Hst & Hrest).
    unfold replaceFirst.
    destruct (ofNat n ++ 46%N :: 32%N :: line) eqn:E;
      cbn [search]; rewrite Hst; cbn [firstn expand map concat app];
      exact Hrest.
  - intros Hin. apply in_app_or in Hin. destruct Hin as [Hin | Hin].
    + rewrite forallb_forall in HD. apply HD in Hin. discriminate Hin.
    + destruct Hin as [H | [H | H]]; [discriminate H | discriminate H | tauto].
  - destruct (ofNat n); [congruence | discriminate].
Qed.

(** The numbering of a block without blank lines is recognised as numbered
    and is undone by the removal. *)
Lemma numberLines_undo (counter : nat) (lines : list jsstr) :
  Forall (fun line => trim line <> []) lines ->
  Forall (fun line => ~ In LF line) lines ->
  forallb (fun line => test false reNumbered (trim line))
    (numberLines counter lines) = true
  /\ map (replaceFirst false reLeadingNumber []) (numberLines counter lines)
     = lines
  /\ Forall (fun line => ~ In LF line) (numberLines counter lines)
  /\ (lines <> [] -> join nl (numberLines counter lines) <> []).
Proof.
  intros Hnb. revert counter.
  induction Hnb as [|line lines Hline _ IH]; intros counter Hfree.
  - cbn. repeat split; [constructor | congruence].
  - inversion Hfree as [|? ? Hl Hrest]; subst.
    destruct (IH (S counter) Hrest) as (H1 & H2 & H3 & _).
    destruct (numbered_line_facts counter line Hline Hl) as (F1 & F2 & F3 & F4).
    cbn [numberLines]. destruct (trim line) eqn:E; [congruence|].
    rewrite <- E in *. cbn [forallb map].
    rewrite F1, H1, F2, H2. repeat split.
    + constructor; assumption.
    + intros _.
      destruct (numberLines (S counter) lines) as [|l2 rest2];
        [exact F4|].
      rewrite join_cons by discriminate.
      destruct (ofNat counter ++ lit ". " ++ line); [congruence | discriminate].
Qed.

End NumberedRoundTrip.

(** X5.  Numbering and un-numbering is a round trip on the text: on a
    non-empty selection whose line block has no blank line and is not
    already numbered, [insertNumberedList] followed by [insertNumberedList]
    on the selection it returned gives back the buffer, with the whole line
    block selected. *)
Theorem insertNumberedList_round_trip (ta : textarea) :
  validSelection ta ->
  substring (value ta) (selectionStart ta) (selectionEnd ta) <> [] ->
  Forall (fun line => trim line <> []) (blockLines ta) ->
  forallb (fun line => test false reNumbered (trim line)) (blockLines ta)
  = false ->
  insertNumberedList (insertNumberedList ta)
  = mkTextarea (value ta)
      (lineStartOf (value ta) (selectionStart ta))
      (lineEndOf (value ta) (selectionEnd ta)).
Proof.
  intros Hvalid Hsel Hnonblank Hfirst.
  destruct (block_view ta Hvalid)
    as (head & blk & tail & Hhead & Htail & Hv & Hls & Hle & Hlines & Hf & Hs).
  pose proof (insertNumberedList_block ta Hvalid Hsel) as H1.
  cbv zeta in H1. rewrite Hfirst, Hls, Hle, Hf, Hs in H1.
  set (lines1 := numberLines 1 (blockLines ta)) in *.
  assert (Hfree : Forall (fun line => ~ In LF line) (blockLines ta))
    by (rewrite Hlines; apply split_nl_free).
  destruct (numberLines_undo 1 (blockLines ta) Hnonblank Hfree)
    as (Htest & Hundo & Hfree1 & Hjoin).
  fold lines1 in Htest, Hundo, Hfree1, Hjoin.
  assert (Hne : blockLines ta <> [])
    by (rewrite Hlines; apply split_nonempty).
  assert (Hne1 : lines1 <> []).
  { intros Hnil. apply (f_equal (@length _)) in Hnil.
    subst lines1. rewrite numberLines_length in Hnil.
    destruct (blockLines ta); [congruence | discriminate]. }
  destruct (rewritten_block head tail lines1 Hhead Htail Hne1 Hfree1)
    as (Hls1 & Hle1 & Hlines1).
  rewrite H1.
  set (ta1 := mkTextarea (head ++ join nl lines1 ++ tail)
                (len head) (len head + len (join nl lines1))) in *.
  assert (Hvalid1 : validSelection ta1).
  { unfold validSelection, ta1. cbn [value selectionStart selectionEnd].
    rewrite !len_app. pose proof (len_nonneg head).
    pose proof (len_nonneg (join nl lines1)). pose proof (len_nonneg tail).
    lia. }
  destruct (block_pieces_read head (join nl lines1) tail) as (Hf1 & Hs1 & Hm1).
  assert (Hsel1 : substring (value ta1) (selectionStart ta1) (selectionEnd ta1)
                  <> []).
  { unfold ta1. cbn [value selectionStart selectionEnd]. rewrite Hm1.
    apply Hjoin. exact Hne. }
  pose proof (insertNumberedList_block ta1 Hvalid1 Hsel1) as H2.
  cbv zeta in H2. rewrite Hls1, Hle1, Hlines1, Htest, Hundo in H2.
  unfold ta1 in H2 at 2 3. cbn [value] in H2. rewrite Hf1, Hs1 in H2.
  rewrite H2, Hlines, join_split_nl, Hls, Hle, Hv. reflexivity.
Qed.

Lemma insertNumberedList_round_trip_witness :
  let ta := mkTextarea (lit "x" ++ nl ++ lit "ab" ++ nl ++ lit "cd") 3 6 in
  insertNumberedList (insertNumberedList ta)
  = mkTextarea (lit "x" ++ nl ++ lit "ab" ++ nl ++ lit "cd") 2 7.
Proof.
  intros ta.
  rewrite (insertNumberedList_round_trip ta).
  - reflexivity.
  - vm_compute. repeat split; discriminate.
  - vm_compute. discriminate.
  - repeat constructor; vm_compute; discriminate.
  - reflexivity.
Defined.

(** ** Horizontal rule *)

(** X6.  [insertHorizontalRule] replaces the selection by ["---"] with at
    most two line feeds on either side, chosen so that the rule is never
    glued to text: what precedes the rule in the new buffer is empty or ends
    with a blank line, what follows it is a single line feed at the end of
    the buffer or begins with a blank line; the caret is put after the
    inserted text and the selected text is gone. *)
Theorem insertHorizontalRule_padding (before selected after : jsstr) :
  exists pre post,
    insertHorizontalRule
      (mkTextarea (before ++ selected ++ after)
         (len before) (len before + len selected))
    = mkTextarea (before ++ (pre ++ lit "---" ++ post) ++ after)
        (len before + len (pre ++ lit "---" ++ post))
        (len before + len (pre ++ lit "---" ++ post))
    /\ (pre = [] \/ pre = nl \/ pre = nl ++ nl)
    /\ (post = [] \/ post = nl \/ post = nl ++ nl)
    /\ (before ++ pre = [] \/ endsWith (before ++ pre) (nl ++ nl) = true)
    /\ (post ++ after = nl \/ startsWith (post ++ after) (nl ++ nl) = true).
Proof.
  set (pre := if negb (endsWith before (nl ++ nl)) && (0 <? len before)
              then (if endsWith before nl then nl else nl ++ nl) else []).
  set (post := if negb (startsWith after (nl ++ nl)) && (0 <? len after)
               then (if startsWith after nl then nl else nl ++ nl)
               else if len after =? 0 then nl else []).
  exists pre, post.
  split.
  { unfold insertHorizontalRule. cbn [value selectionStart selectionEnd].
    rewrite substring_before, substringFrom_after2.
    rewrite replaceSelection_pieces. fold pre.
    assert (Hins :
      (if negb (startsWith after (nl ++ nl)) && (0 <? len after)
       then (if negb (endsWith before (nl ++ nl)) && (0 <? len before)
             then (if endsWith before nl then nl else nl ++ nl) ++ lit "---"
             else lit "---")
            ++ (if startsWith after nl then nl else nl ++ nl)
       else if len after =? 0
            then (if negb (endsWith before (nl ++ nl)) && (0 <? len before)
                  then (if endsWith before nl then nl else nl ++ nl)
                       ++ lit "---"
                  else lit "---") ++ nl
            else (if negb (endsWith before (nl ++ nl)) && (0 <? len before)
                  then (if endsWith before nl then nl else nl ++ nl)
                       ++ lit "---"
                  else lit "---"))
      = pre ++ lit "---" ++ post).
    { subst pre post.
      destruct (negb (endsWith before (nl ++ nl)) && (0 <? len before));
        destruct (negb (startsWith after (nl ++ nl)) && (0 <? len after));
        destruct (len after =? 0);
        rewrite <- ?app_assoc, ?app_nil_r; reflexivity. }
    rewrite Hins. reflexivity. }
  split.
  { subst pre.
    destruct (negb (endsWith before (nl ++ nl)) && (0 <? len before));
      [destruct (endsWith before nl)|]; tauto. }
  split.
  { subst post.
    destruct (negb (startsWith after (nl ++ nl)) && (0 <? len after));
      [destruct (startsWith after nl) | destruct (len after =? 0)]; tauto. }
  split.
  - subst pre.
    destruct (endsWith before (nl ++ nl)) eqn:E2; cbn [negb andb].
    + right. rewrite app_nil_r. exact E2.
    + destruct (0 <? len before) eqn:E0.
      * right. destruct (endsWith before nl) eqn:E1.
        -- destruct (endsWith_split _ _ E1) as [b' ->].
           rewrite <- app_assoc. apply endsWith_app.
        -- apply endsWith_app.
      * left. apply Z.ltb_ge in E0. destruct before; [reflexivity|].
        rewrite len_cons in E0. pose proof (len_nonneg before). lia.
  - subst post.
    destruct (startsWith after (nl ++ nl)) eqn:E2; cbn [negb andb].
    + right. destruct (len after =? 0) eqn:E0.
      * apply Z.eqb_eq in E0. destruct after; [discriminate E2|].
        rewrite len_cons in E0. pose proof (len_nonneg after). lia.
      * exact E2.
    + destruct (0 <? len after) eqn:E0.
      * right. destruct (startsWith after nl) eqn:E1.
        -- destruct (startsWith_split _ _ E1) as [t' ->]. reflexivity.
        -- reflexivity.
      * left. apply Z.ltb_ge in E0.
        destruct after as [|c after]; [reflexivity|].
        rewrite len_cons in E0. pose proof (len_nonneg after). lia.
Qed.

(** ** Wrapping *)

Section Wrap.

Lemma eqb_neq (s t : jsstr) : s <> t -> JS.eqb s t = false.
Proof. unfold JS.eqb. destruct (list_eq_dec N.eq_dec s t); congruence. Qed.

(** The toggle-off branch on the pieces: both markers are taken away. *)
Lemma wrapText_toggle_off (b s t m ph : jsstr) :
  s <> [] -> m <> [] ->
  endsWith b m && startsWith t m = true ->
  exists b' t',
    b = b' ++ m /\ t = m ++ t'
    /\ wrapText (mkTextarea (b ++ s ++ t) (len b) (len b + len s)) m m ph
       = mkTextarea (b' ++ s ++ t') (len b') (len b' + len s).
Proof.
  intros Hs Hm H. apply andb_true_iff in H. destruct H as [H1 H2].
  destruct (endsWith_split _ _ H1) as [b' ->].
  destruct (startsWith_split _ _ H2) as [t' ->].
  exists b', t'. repeat split. apply wrapText_unwrap; assumption.
Qed.

End Wrap.

(** X7.  Whatever [wrapText] does, the payload is what is selected
    afterwards and not the markers: with a non-empty selection the selected
    text after the call is the selected text before it (wrapped or
    unwrapped), and with a caret it is the placeholder.  This holds as soon
    as one of the two markers is not empty. *)
Theorem wrapText_keeps_payload_selected (ta : textarea)
    (prefix suffix ph : jsstr) :
  validSelection ta -> prefix <> [] \/ suffix <> [] ->
  let ta' := wrapText ta prefix suffix ph in
  substring (value ta') (selectionStart ta') (selectionEnd ta')
  = match substring (value ta) (selectionStart ta) (selectionEnd ta) with
    | [] => ph
    | selected => selected
    end.
Proof.
  intros Hvalid Hmark.
  destruct (textarea_split ta Hvalid) as (b & s & t & ->).
  cbn [value selectionStart selectionEnd]. rewrite substring_middle.
  destruct s as [|c s].
  - cbn [app]. rewrite len_nil, Z.add_0_r. rewrite wrapText_caret.
    cbn [value selectionStart selectionEnd].
    replace (b ++ prefix ++ ph ++ suffix ++ t)
      with ((b ++ prefix) ++ ph ++ suffix ++ t)
      by (rewrite <- app_assoc; reflexivity).
    rewrite <- len_app. apply substring_middle.
  - destruct (endsWith b prefix && startsWith t suffix && JS.eqb prefix suffix)
      eqn:E.
    + apply andb_true_iff in E. destruct E as [E Eeq].
      apply eqb_eq in Eeq. subst suffix.
      assert (Hm : prefix <> []) by tauto.
      destruct (wrapText_toggle_off b (c :: s) t prefix ph
                  ltac:(discriminate) Hm E) as (b' & t' & _ & _ & ->).
      cbn [value selectionStart selectionEnd]. apply substring_middle.
    + rewrite wrapText_wrap by (discriminate || exact E).
      cbn [value selectionStart selectionEnd].
      replace (b ++ prefix ++ (c :: s) ++ suffix ++ t)
        with ((b ++ prefix) ++ (c :: s) ++ suffix ++ t)
        by (rewrite <- app_assoc; reflexivity).
      replace (len b + len (c :: s) + len prefix)
        with (len (b ++ prefix) + len (c :: s))
        by (rewrite len_app; lia).
      rewrite <- len_app. apply substring_middle.
Qed.

Lemma wrapText_keeps_payload_selected_witness :
  let ta' := spoiler (mkTextarea (lit "hello world") 0 5) in
  substring (value ta') (selectionStart ta') (selectionEnd ta') = lit "hello".
Proof.
  intros ta'.
  refine (wrapText_keeps_payload_selected
            (mkTextarea (lit "hello world") 0 5)
            (lit ">!") (lit "!<") (lit "spoiler") _ _).
  - vm_compute. repeat split; discriminate.
  - left. discriminate.
Defined.

(** X8.  Markers that differ are never taken off: with [prefix] different
    from [suffix] (spoiler, code block) [wrapText] always inserts, even when
    the selection is already surrounded by the markers, so the buffer grows
    by both markers each time. *)
Theorem wrapText_asymmetric_always_wraps (ta : textarea)
    (prefix suffix ph : jsstr) :
  validSelection ta -> prefix <> suffix ->
  let v := value ta in
  let before := substring v 0 (selectionStart ta) in
  let selected := substring v (selectionStart ta) (selectionEnd ta) in
  let after := substringFrom v (selectionEnd ta) in
  let payload := match selected with [] => ph | _ => selected end in
  wrapText ta prefix suffix ph
  = mkTextarea (before ++ prefix ++ payload ++ suffix ++ after)
      (selectionStart ta + len prefix)
      (selectionStart ta + len prefix + len payload).
Proof.
  intros Hvalid Hneq.
  destruct (textarea_split ta Hvalid) as (b & s & t & ->).
  cbn [value selectionStart selectionEnd].
  rewrite substring_before, substring_middle, substringFrom_after2.
  destruct s as [|c s].
  - cbn [app]. rewrite len_nil, Z.add_0_r. apply wrapText_caret.
  - rewrite wrapText_wrap.
    + f_equal. lia.
    + discriminate.
    + rewrite (eqb_neq _ _ Hneq). apply andb_false_r.
Qed.

Lemma wrapText_asymmetric_always_wraps_witness :
  spoiler (spoiler (mkTextarea (lit "hello world") 0 5))
  = mkTextarea (lit ">!>!hello!<!< world") 4 9.
Proof.
  unfold spoiler.
  rewrite (wrapText_asymmetric_always_wraps
             (mkTextarea (lit "hello world") 0 5)).
  - rewrite wrapText_asymmetric_always_wraps.
    + reflexivity.
    + vm_compute. repeat split; discriminate.
    + discriminate.
  - vm_compute. repeat split; discriminate.
  - discriminate.
Defined.

(** X9.  Toggling off and on again: when the selection is surrounded by
    a non-empty symmetric marker [m], [wrapText] removes both markers and
    keeps the payload selected; when what is left around the payload is not
    again a pair of markers, a second [wrapText] puts the markers back and
    restores the buffer and the selection. *)
Theorem wrapText_unwrap_then_wrap (ta : textarea) (m ph : jsstr) :
  validSelection ta -> m <> [] ->
  substring (value ta) (selectionStart ta) (selectionEnd ta) <> [] ->
  endsWith (substring (value ta) 0 (selectionStart ta)) m = true ->
  startsWith (substringFrom (value ta) (selectionEnd ta)) m = true ->
  let v := value ta in
  let outer := substring v 0 (selectionStart ta - len m) in
  let selected := substring v (selectionStart ta) (selectionEnd ta) in
  let rest := substringFrom v (selectionEnd ta + len m) in
  wrapText ta m m ph
  = mkTextarea (outer ++ selected ++ rest)
      (selectionStart ta - len m) (selectionEnd ta - len m)
  /\ (endsWith outer m && startsWith rest m = false ->
      wrapText (wrapText ta m m ph) m m ph = ta).
Proof.
  intros Hvalid Hm Hsel Hb Ht.
  destruct (textarea_split ta Hvalid) as (b & s & t & ->).
  cbn [value selectionStart selectionEnd] in *.
  rewrite substring_middle in *.
  rewrite substring_before in Hb. rewrite substringFrom_after2 in Ht.
  destruct (wrapText_toggle_off b s t m ph Hsel Hm) as (b' & t' & -> & -> & H).
  { rewrite Hb, Ht. reflexivity. }
  assert (Houter : substring ((b' ++ m) ++ s ++ m ++ t') 0
                     (len (b' ++ m) - len m) = b').
  { rewrite len_app. replace (len b' + len m - len m) with (len b') by lia.
    rewrite <- app_assoc. apply substring_before. }
  assert (Hrest : substringFrom ((b' ++ m) ++ s ++ m ++ t')
                    (len (b' ++ m) + len s + len m) = t').
  { replace ((b' ++ m) ++ s ++ m ++ t') with (((b' ++ m) ++ s ++ m) ++ t')
      by (rewrite <- !app_assoc; reflexivity).
    replace (len (b' ++ m) + len s + len m) with (len ((b' ++ m) ++ s ++ m))
      by (rewrite !len_app; lia).
    apply substringFrom_after. }
  rewrite Houter, Hrest, H. split.
  - f_equal; rewrite len_app; lia.
  - intros Hfree. rewrite wrapText_wrap.
    + rewrite <- !app_assoc, len_app. f_equal. lia.
    + exact Hsel.
    + rewrite Hfree. reflexivity.
Qed.

Lemma wrapText_unwrap_then_wrap_witness :
  let ta := mkTextarea (lit "a **bold** b") 4 8 in
  bold ta = mkTextarea (lit "a bold b") 2 6 /\ bold (bold ta) = ta.
Proof.
  intros ta.
  destruct (wrapText_unwrap_then_wrap ta (lit "**") (lit "bold text"))
    as (H1 & H2).
  - vm_compute. repeat split; discriminate.
  - discriminate.
  - vm_compute. discriminate.
  - reflexivity.
  - reflexivity.
  - unfold bold. split; [rewrite H1; reflexivity | apply H2; reflexivity].
Defined.

(** ** Snippets *)

Section Snippet.

Lemma startsWith_other_head (c c0 : codeunit) (s t : jsstr) :
  c <> c0 -> startsWith (c :: s) (c0 :: t) = false.
Proof.
  intros H. cbn. destruct (N.eqb_spec c0 c); [congruence | reflexivity].
Qed.

(** Text without the first code unit of the separator holds no separator. *)
Lemma splitGo_no_head (c0 : codeunit) (t a rest cur : jsstr) :
  ~ In c0 a ->
  splitGo (c0 :: t) (a ++ rest) 0 cur
  = splitGo (c0 :: t) rest 0 (rev a ++ cur).
Proof.
  revert cur. induction a as [|c a IH]; intros cur Ha; [reflexivity|].
  cbn [app splitGo].
  rewrite startsWith_other_head
    by (intros ->; apply Ha; left; reflexivity).
  rewrite IH by (intros Hin; apply Ha; right; exact Hin).
  cbn [rev]. rewrite <- app_assoc. reflexivity.
Qed.

Lemma splitGo_skip (sep x rest cur : jsstr) :
  splitGo sep (x ++ rest) (length x) cur = splitGo sep rest 0 cur.
Proof.
  induction x as [|c x IH]; [reflexivity|]. cbn [app length splitGo]. exact IH.
Qed.

(** At an occurrence of the separator the piece ends and the separator is
    stepped over. *)
Lemma splitGo_at_sep (c0 : codeunit) (t rest cur : jsstr) :
  splitGo (c0 :: t) ((c0 :: t) ++ rest) 0 cur
  = rev cur :: splitGo (c0 :: t) rest 0 [].
Proof.
  cbn [app splitGo].
  change (c0 :: t ++ rest) with ((c0 :: t) ++ rest).
  rewrite startsWith_app. cbn [length Nat.sub].
  rewrite Nat.sub_0_r, splitGo_skip. reflexivity.
Qed.

Lemma splitGo_end (sep cur : jsstr) : splitGo sep [] 0 cur = [rev cur].
Proof. reflexivity. Qed.

Lemma split_one_token (c0 : codeunit) (t a b : jsstr) :
  ~ In c0 a -> ~ In c0 b ->
  split (a ++ (c0 :: t) ++ b) (c0 :: t) = [a; b].
Proof.
  intros Ha Hb. unfold split.
  rewrite splitGo_no_head by exact Ha.
  rewrite splitGo_at_sep.
  rewrite <- (app_nil_r b). rewrite splitGo_no_head by exact Hb.
  rewrite splitGo_end. rewrite !app_nil_r, !rev_involutive. reflexivity.
Qed.

Lemma split_no_token (c0 : codeunit) (t a : jsstr) :
  ~ In c0 a -> split a (c0 :: t) = [a].
Proof.
  intros Ha. unfold split.
  rewrite <- (app_nil_r a) at 1. rewrite splitGo_no_head by exact Ha.
  rewrite splitGo_end. rewrite app_nil_r, rev_involutive. reflexivity.
Qed.

Lemma insertSnippet_nonempty (ta : textarea) (template : jsstr) :
  template <> [] ->
  insertSnippet ta template
  = replaceSelection ta
      (join (substring (value ta) (selectionStart ta) (selectionEnd ta))
         (split template (lit "{selection}"))) true.
Proof. intros H. destruct template; [congruence | reflexivity]. Qed.

End Snippet.

(** X10.  [insertSnippet] puts the selected text where the template has
    ["{selection}"]: for a template with one token between texts that hold
    no brace, the selection is replaced by the text before the token, the
    selected text and the text after the token, and the result is selected;
    a template without any brace is inserted as it is, in place of the
    selected text. *)
Theorem insertSnippet_substitution (a b before selected after : jsstr) :
  ~ In 123%N a -> ~ In 123%N b ->
  let ta := mkTextarea (before ++ selected ++ after)
              (len before) (len before + len selected) in
  insertSnippet ta (a ++ lit "{selection}" ++ b)
  = mkTextarea (before ++ (a ++ selected ++ b) ++ after)
      (len before) (len before + len (a ++ selected ++ b))
  /\ (a <> [] ->
      insertSnippet ta a
      = mkTextarea (before ++ a ++ after) (len before) (len before + len a)).
Proof.
  intros Ha Hb ta. split.
  - rewrite insertSnippet_nonempty by (destruct a; discriminate).
    change (lit "{selection}") with (123%N :: lit "selection}").
    rewrite split_one_token by assumption.
    cbn [join]. subst ta.
    cbn [value selectionStart selectionEnd]. rewrite substring_middle.
    apply replaceSelection_pieces.
  - intros Hne. rewrite insertSnippet_nonempty by exact Hne.
    change (lit "{selection}") with (123%N :: lit "selection}").
    rewrite split_no_token by exact Ha.
    cbn [join]. subst ta. apply replaceSelection_pieces.
Qed.

Lemma insertSnippet_substitution_witness :
  insertSnippet (mkTextarea (lit "hello world") 0 5)
    (lit "<sup>{selection}</sup>")
  = mkTextarea (lit "<sup>hello</sup> world") 0 16.
Proof.
  destruct (insertSnippet_substitution (lit "<sup>") (lit "</sup>")
              [] (lit "hello") (lit " world")) as (H & _).
  - vm_compute. intuition discriminate.
  - vm_compute. intuition discriminate.
  - exact H.
Defined.

(** ** What a match reads and captures *)

Section MatchFacts.

Lemma Segment_refl (s : jsstr) : Segment s s.
Proof. exists [], []. rewrite app_nil_r. reflexivity. Qed.

Lemma Segment_app_l (text a b : jsstr) : Segment text a -> Segment text (a ++ b).
Proof.
  intros (l & r & ->). exists l, (r ++ b). rewrite <- !app_assoc. reflexivity.
Qed.

Lemma Segment_app_r (text a b : jsstr) : Segment text b -> Segment text (a ++ b).
Proof.
  intros (l & r & ->). exists (a ++ l), r. rewrite <- !app_assoc. reflexivity.
Qed.

Lemma Ext_refl (st : mstate) : Ext st st.
Proof.
  exists []. split; [reflexivity|]. split; [cbn [length]; lia|].
  intros n text H. left. exact H.
Qed.

Lemma Ext_trans (st1 st2 st3 : mstate) : Ext st1 st2 -> Ext st2 st3 -> Ext st1 st3.
Proof.
  intros (p1 & R1 & P1 & C1) (p2 & R2 & P2 & C2).
  exists (p1 ++ p2). repeat split.
  - rewrite R1, R2, app_assoc. reflexivity.
  - rewrite P2, P1, length_app. lia.
  - intros n text H. destruct (C2 n text H) as [H2 | H2].
    + destruct (C1 n text H2) as [H1 | H1]; [left; exact H1 | right].
      apply Segment_app_l. exact H1.
    + right. apply Segment_app_r. exact H2.
Qed.

Lemma starLoop_ext (ml : bool) (r : regex) (k : mstate -> option mstate)
    (greedy : bool) (out : mstate) :
  (forall k0 st, run ml r k0 st = Some out ->
                 exists st', Ext st st' /\ k0 st' = Some out) ->
  forall fuel st,
    starLoop ml r k greedy fuel st = Some out ->
    exists st', Ext st st' /\ k st' = Some out.
Proof.
  intros IHr. induction fuel as [|fuel IH]; intros st H.
  - exists st. split; [apply Ext_refl | exact H].
  - cbn [starLoop] in H.
    assert (Hmore :
      run ml r (fun st' => if (pos st <? pos st')%nat
                           then starLoop ml r k greedy fuel st' else None) st
      = Some out -> exists st', Ext st st' /\ k st' = Some out).
    { intros Hrun. destruct (IHr _ _ Hrun) as (st1 & E1 & K1).
      destruct (pos st <? pos st1)%nat; [|discriminate].
      destruct (IH st1 K1) as (st2 & E2 & K2).
      exists st2. split; [eapply Ext_trans; eassumption | exact K2]. }
    destruct greedy.
    + destruct (run ml r _ st) as [o|] eqn:E.
      * injection H as ->. apply Hmore. reflexivity.
      * exists st. split; [apply Ext_refl | exact H].
    + destruct (k st) as [o|] eqn:E.
      * injection H as ->. exists st. split; [apply Ext_refl | exact E].
      * apply Hmore. exact H.
Qed.

(** A successful run hands a later position of the same match to its
    continuation. *)
Lemma run_ext (ml : bool) (r : regex) :
  forall k st out,
    run ml r k st = Some out ->
    exists st', Ext st st' /\ k st' = Some out.
Proof.
  induction r as [|cls|r1 IH1 r2 IH2|r1 IH1 r2 IH2|greedy r IH|n r IH|];
    intros k st out H.
  - exists st. split; [apply Ext_refl | exact H].
  - destruct st as [p s pv cs]. destruct s as [|c s]; [discriminate|].
    rewrite run_Chr in H. destruct (cls c); [|discriminate].
    eexists. split; [|exact H].
    exists [c]. cbn [rest pos caps length app].
    split; [reflexivity|]. split; [lia|].
    intros n text Hin. left. exact Hin.
  - rewrite run_Seq in H.
    destruct (IH1 _ _ _ H) as (st1 & E1 & K1).
    destruct (IH2 _ _ _ K1) as (st2 & E2 & K2).
    exists st2. split; [eapply Ext_trans; eassumption | exact K2].
  - cbn [run] in H. destruct (run ml r1 k st) as [o|] eqn:E.
    + injection H as ->. apply IH1. exact E.
    + apply IH2. exact H.
  - rewrite run_Star in H.
    apply (starLoop_ext ml r k greedy out) in H; [exact H|].
    intros k0 st0. apply IH.
  - cbn [run] in H. destruct (IH _ _ _ H) as (st1 & E1 & K1).
    eexists. split; [|exact K1].
    destruct E1 as (pre & R1 & P1 & C1).
    exists pre. cbn [setCap rest pos caps].
    split; [exact R1|]. split; [exact P1|].
    intros m text [Hin | Hin].
    + injection Hin as <- <-. right.
      rewrite P1, R1.
      replace (pos st + length pre - pos st)%nat with (length pre) by lia.
      rewrite firstn_len_app. apply Segment_refl.
    + apply C1. exact Hin.
  - cbn [run] in H. destruct (atLineStart ml st); [|discriminate].
    exists st. split; [apply Ext_refl | exact H].
Qed.

Lemma Needs_sound (P : codeunit -> bool) (ml : bool) (r : regex) :
  Needs P r ->
  forall k st out, run ml r k st = Some out -> existsb P (rest st) = true.
Proof.
  induction 1 as [cls Hcls|r1 r2 _ IH|r1 r2 _ IH|r1 r2 _ IH1 _ IH2|n r _ IH];
    intros k st out H.
  - destruct st as [p s pv cs]. destruct s as [|c s]; [discriminate|].
    rewrite run_Chr in H. destruct (cls c) eqn:E; [|discriminate].
    cbn [rest existsb]. rewrite (Hcls c E). reflexivity.
  - rewrite run_Seq in H. exact (IH _ _ _ H).
  - rewrite run_Seq in H.
    destruct (run_ext ml r1 _ _ _ H) as (st1 & (pre & R1 & _) & K1).
    rewrite R1, existsb_app, (IH _ _ _ K1). apply orb_true_r.
  - cbn [run] in H. destruct (run ml r1 k st) as [o|] eqn:E.
    + exact (IH1 _ _ _ E).
    + exact (IH2 _ _ _ H).
  - cbn [run] in H. exact (IH _ _ _ H).
Qed.

(** A global replace leaves alone a text in which the pattern cannot
    match. *)
Lemma replaceGo_no_match (P : codeunit -> bool) (ml : bool) (r : regex)
    (repl : list rpiece) :
  Needs P r ->
  forall s p pv, existsb P s = false -> replaceGo ml r repl p pv s 0 = s.
Proof.
  intros Hneeds. induction s as [|c s IH]; intros p pv Hs.
  - cbn [replaceGo]. destruct (matchAt ml r p pv []) as [st|] eqn:E;
      [|reflexivity].
    apply (Needs_sound P ml r Hneeds) in E. discriminate E.
  - cbn [replaceGo]. destruct (matchAt ml r p pv (c :: s)) as [st|] eqn:E.
    + apply (Needs_sound P ml r Hneeds) in E. cbn [rest] in E. congruence.
    + f_equal. apply IH. cbn [existsb] in Hs.
      apply orb_false_iff in Hs. tauto.
Qed.

End MatchFacts.

(** ** Clear formatting *)

Section ClearFacts.

Ltac needs_chr :=
  let c := fresh "c" in
  let Hc := fresh "Hc" in
  intros c Hc;
  first [ exact Hc | apply N.eqb_eq in Hc; subst c; reflexivity ].

Ltac needs :=
  first [ apply NeedsChr; needs_chr
        | apply NeedsSeqL; needs
        | apply NeedsSeqR; needs
        | apply NeedsGroup; needs ].

Ltac expose :=
  cbn [pattern];
  repeat match goal with
         | |- context [lit ?s] =>
             let x := eval vm_compute in (lit s) in change (lit s) with x
         end;
  unfold plus, between, one, digit, white;
  cbn [str times upTo Nat.sub]; unfold one.

(** Each of the first ten passes can only match where there is a markup
    code unit; the last one needs a digit, and a dot. *)
Lemma passes_need_markup :
  Forall (fun p => Needs isMarkup (pattern p)) (firstn 10 clearPasses).
Proof.
  cbn [firstn clearPasses].
  repeat (apply Forall_cons; [expose; needs|]). constructor.
Qed.

Lemma last_pass_needs :
  Forall (fun p => Needs isDigit (pattern p) /\ Needs (N.eqb 46) (pattern p))
    (skipn 10 clearPasses).
Proof.
  cbn [skipn clearPasses].
  apply Forall_cons; [split; expose; needs | constructor].
Qed.

Lemma applyPass_no_match (P : codeunit -> bool) (p : pass) (s : jsstr) :
  Needs P (pattern p) -> existsb P s = false -> applyPass s p = s.
Proof.
  intros Hneeds Hs. unfold applyPass, replaceAll.
  apply (replaceGo_no_match P); assumption.
Qed.

Lemma fold_applyPass_id (passes : list pass) (s : jsstr) :
  Forall (fun p => applyPass s p = s) passes ->
  fold_left applyPass passes s = s.
Proof.
  induction 1 as [|p passes Hp _ IH]; cbn [fold_left]; [reflexivity|].
  rewrite Hp. exact IH.
Qed.

Lemma clearText_plain (s : jsstr) :
  existsb isMarkup s = false ->
  existsb isDigit s = false \/ existsb (N.eqb 46) s = false ->
  clearText s = s.
Proof.
  intros Hmarkup Hnum. unfold clearText.
  rewrite <- (firstn_skipn 10 clearPasses).
  apply fold_applyPass_id. apply Forall_app. split.
  - eapply Forall_impl; [|apply passes_need_markup].
    intros p Hp. apply (applyPass_no_match isMarkup); assumption.
  - eapply Forall_impl; [|apply last_pass_needs].
    intros p [Hd Hdot]. destruct Hnum as [Hnum | Hnum].
    + apply (applyPass_no_match isDigit); assumption.
    + apply (applyPass_no_match (N.eqb 46)); assumption.
Qed.

Lemma Subseq_refl (s : jsstr) : Subseq s s.
Proof. induction s; constructor; assumption. Qed.

Lemma Subseq_nil (s : jsstr) : Subseq [] s.
Proof. induction s; constructor; assumption. Qed.

Lemma Subseq_app (t1 s1 t2 s2 : jsstr) :
  Subseq t1 s1 -> Subseq t2 s2 -> Subseq (t1 ++ t2) (s1 ++ s2).
Proof.
  induction 1; intros H2; cbn [app]; try constructor; auto.
Qed.

Lemma Subseq_trans (a b c : jsstr) : Subseq a b -> Subseq b c -> Subseq a c.
Proof.
  intros Hab Hbc. revert a Hab.
  induction Hbc as [|x b c _ IH|x b c _ IH]; intros a Hab.
  - exact Hab.
  - inversion Hab; subst.
    + constructor. apply IH. assumption.
    + constructor. apply IH. assumption.
  - constructor. apply IH. exact Hab.
Qed.

Lemma Subseq_length (t s : jsstr) : Subseq t s -> (length t <= length s)%nat.
Proof. induction 1; cbn [length]; lia. Qed.

Lemma Subseq_in (t s : jsstr) (c : codeunit) : Subseq t s -> In c t -> In c s.
Proof.
  induction 1 as [|x t s _ IH|x t s _ IH]; intros Hin.
  - exact Hin.
  - destruct Hin as [-> | Hin]; [left; reflexivity | right; apply IH; exact Hin].
  - right. apply IH. exact Hin.
Qed.

Lemma Segment_Subseq (text s : jsstr) : Segment text s -> Subseq text s.
Proof.
  intros (l & r & ->).
  apply (Subseq_app [] l); [apply Subseq_nil|].
  rewrite <- (app_nil_r text) at 1.
  apply Subseq_app; [apply Subseq_refl | apply Subseq_nil].
Qed.

(** A match reads a prefix of the input, and what it captures are runs of
    what it reads. *)
Lemma matchAt_shape (ml : bool) (r : regex) (p : nat)
    (pv : option codeunit) (s : jsstr) (st : mstate) :
  matchAt ml r p pv s = Some st ->
  exists consumed,
    s = consumed ++ rest st
    /\ pos st = (p + length consumed)%nat
    /\ forall n, Subseq (getCap n (caps st)) consumed.
Proof.
  unfold matchAt. intros H.
  destruct (run_ext ml r _ _ _ H) as (st' & (pre & R & P & C) & K).
  injection K as ->. cbn [rest pos caps] in R, P, C.
  exists pre. repeat split; [exact R | exact P |].
  intros n. induction (caps st) as [|[m text] cs IH]; cbn [getCap].
  - apply Subseq_nil.
  - destruct (Nat.eqb n m).
    + destruct (C m text (or_introl eq_refl)) as [[] | Hseg].
      apply Segment_Subseq. exact Hseg.
    + apply IH. intros n' text' Hin. apply C. right. exact Hin.
Qed.

(** A global replace by [$1] only deletes code units. *)
Lemma replaceGo_subseq (ml : bool) (r : regex) :
  forall s p pv skip,
    Subseq (replaceGo ml r [RGroup 1] p pv s skip) (skipn skip s).
Proof.
  induction s as [|c s IH]; intros p pv skip.
  - destruct skip as [|skip]; cbn [replaceGo skipn]; [|constructor].
    destruct (matchAt ml r p pv []) as [st|] eqn:E; [|constructor].
    destruct (matchAt_shape _ _ _ _ _ _ E) as (consumed & Hs & _ & Hcap).
    destruct consumed; [|discriminate Hs].
    unfold expand. cbn [map concat].
    destruct ((pos st - p)%nat); rewrite !app_nil_r; apply Hcap.
  - destruct skip as [|skip]; cbn [replaceGo skipn]; [|apply IH].
    destruct (matchAt ml r p pv (c :: s)) as [st|] eqn:E.
    + destruct (matchAt_shape _ _ _ _ _ _ E) as (consumed & Hs & Hp & Hcap).
      unfold expand. cbn [map concat]. rewrite app_nil_r.
      replace (pos st - p)%nat with (length consumed) by lia.
      destruct consumed as [|d consumed]; cbn [length].
      * specialize (Hcap 1%nat). inversion Hcap as [H0| |]. cbn [app].
        constructor. apply (IH (S p) (Some c) 0%nat).
      * cbn [app] in Hs. injection Hs as <- Hs.
        specialize (IH (S p) (Some c) (length consumed)).
        subst s. rewrite skipn_len_app in IH.
        change (c :: consumed ++ rest st) with ((c :: consumed) ++ rest st).
        apply Subseq_app; [apply Hcap | exact IH].
    + constructor. apply (IH (S p) (Some c) 0%nat).
Qed.

Lemma clearText_subseq (s : jsstr) : Subseq (clearText s) s.
Proof.
  unfold clearText. generalize clearPasses. intros passes.
  assert (H : forall t, Subseq t s -> Subseq (fold_left applyPass passes t) s).
  { induction passes as [|p passes IH]; intros t Ht; cbn [fold_left];
      [exact Ht|].
    apply IH. eapply Subseq_trans; [|exact Ht].
    unfold applyPass, replaceAll.
    apply (replaceGo_subseq (multiline p) (pattern p) t 0%nat None 0%nat). }
  apply H. apply Subseq_refl.
Qed.

End ClearFacts.

(** X11.  [clearFormatting] leaves plain text alone: when the selected
    text holds none of the code units backtick, star, tilde, greater-than,
    opening bracket, hash and hyphen, and holds no digit or no dot, the
    buffer and the selection come back unchanged. *)
Theorem clearFormatting_plain_text (ta : textarea) :
  validSelection ta ->
  let selected := substring (value ta) (selectionStart ta) (selectionEnd ta) in
  existsb isMarkup selected = false ->
  existsb isDigit selected = false \/ existsb (N.eqb 46) selected = false ->
  clearFormatting ta = ta.
Proof.
  intros Hvalid.
  destruct (textarea_split ta Hvalid) as (b & s & t & ->).
  cbn [value selectionStart selectionEnd]. rewrite substring_middle.
  intros Hmarkup Hnum. unfold clearFormatting.
  cbn [value selectionStart selectionEnd]. rewrite substring_middle.
  destruct s as [|c s]; [reflexivity|].
  rewrite clearText_plain by assumption.
  apply replaceSelection_pieces.
Qed.

Lemma clearFormatting_plain_text_witness :
  let ta := mkTextarea (lit "Hello, world. Bye") 0 13 in
  clearFormatting ta = ta.
Proof.
  intros ta. apply (clearFormatting_plain_text ta).
  - vm_compute. repeat split; discriminate.
  - reflexivity.
  - left. reflexivity.
Defined.

(** X12.  [clearFormatting] only deletes: the text that replaces the
    selection is the selected text with some code units taken out, in the
    same order, so it is never longer and brings in no code unit of its own;
    the text around the selection is kept and the cleared text is what is
    selected afterwards. *)
Theorem clearFormatting_only_deletes (before selected after : jsstr) :
  exists cleared,
    clearFormatting
      (mkTextarea (before ++ selected ++ after)
         (len before) (len before + len selected))
    = mkTextarea (before ++ cleared ++ after)
        (len before) (len before + len cleared)
    /\ Subseq cleared selected
    /\ len cleared <= len selected
    /\ (forall c, In c cleared -> In c selected).
Proof.
  exists (clearText selected).
  pose proof (clearText_subseq selected) as Hsub.
  split.
  - unfold clearFormatting. cbn [value selectionStart selectionEnd].
    rewrite substring_middle.
    destruct selected as [|c s] eqn:E.
    + inversion Hsub as [H0| |]. reflexivity.
    + apply replaceSelection_pieces.
  - split; [exact Hsub|]. split.
    + apply Subseq_length in Hsub. unfold len. lia.
    + intros c. apply Subseq_in. exact Hsub.
Qed.

(** ** Link insertion *)

(** X13.  A confirmed link prompt, run on the buffer the prompt was
    opened on, replaces the selection by the link and keeps the text around
    it.  When the trimmed selection is a URL the answer becomes the link
    text, whatever it is (an empty answer gives ["[](url)"]), and the whole
    link is selected; otherwise the selection becomes the link text, the
    trimmed answer the URL, and the whole link is selected; with a caret the
    link text is ["link text"] and only these nine code units are selected. *)
Theorem insertLink_confirm (before selected after answer : jsstr) :
  let ta := mkTextarea (before ++ selected ++ after)
              (len before) (len before + len selected) in
  let link text url := lit "[" ++ text ++ lit "](" ++ url ++ lit ")" in
  let spliced md := mkTextarea (before ++ md ++ after)
                      (len before) (len before + len md) in
  (test false urlRegex (trim selected) = true ->
   callback (insertLink ta) (Some answer) ta
   = Some (spliced (link answer (trim selected))))
  /\ (test false urlRegex (trim selected) = false ->
      selected <> [] -> trim answer <> [] ->
      callback (insertLink ta) (Some answer) ta
      = Some (spliced (link selected (trim answer))))
  /\ (selected = [] -> trim answer <> [] ->
      callback (insertLink ta) (Some answer) ta
      = Some (mkTextarea
                (before ++ link (lit "link text") (trim answer) ++ after)
                (len before + 1) (len before + 10))).
Proof.
  intros ta link spliced.
  assert (Hcommit : forall md a e,
             0 <= a -> a <= e -> e <= len before + len md ->
             setSelectionRange
               (setValue ta
                  (substring (value ta) 0 (len before) ++ md
                   ++ substringFrom (value ta) (len before + len selected)))
               a e
             = mkTextarea (before ++ md ++ after) a e).
  { intros md a e Ha Hae He. subst ta. cbn [value].
    rewrite substring_before, substringFrom_after2.
    apply setSelectionRange_inside; unfold setValue; cbn [value];
      rewrite ?len_app; pose proof (len_nonneg after); lia. }
  assert (Hwhole : forall md,
             setSelectionRange
               (setValue ta
                  (substring (value ta) 0 (len before) ++ md
                   ++ substringFrom (value ta) (len before + len selected)))
               (len before) (len before + len md)
             = spliced md).
  { intros md. pose proof (len_nonneg before). pose proof (len_nonneg md).
    apply Hcommit; lia. }
  assert (Hsel : substring (value ta) (selectionStart ta) (selectionEnd ta)
                 = selected) by (subst ta; apply substring_middle).
  unfold insertLink. rewrite Hsel. cbn [selectionStart selectionEnd ta].
  split; [|split].
  - intros Hurl. rewrite Hurl. cbn [callback]. f_equal. apply Hwhole.
  - intros Hurl Hne Hans. rewrite Hurl. cbn [callback].
    destruct (trim answer) as [|c u] eqn:E; [congruence|]. rewrite <- E.
    destruct selected as [|d s]; [congruence|].
    f_equal. apply Hwhole.
  - intros -> Hans.
    replace (test false urlRegex (trim [])) with false by reflexivity.
    cbn [callback].
    destruct (trim answer) as [|c u] eqn:E; [congruence|]. rewrite <- E.
    f_equal.
    change (len (lit "link text")) with 9.
    replace (len before + 1 + 9) with (len before + 10) by lia.
    pose proof (len_nonneg before). pose proof (len_nonneg (trim answer)).
    apply Hcommit; try lia.
    subst link. cbv beta. rewrite !len_app.
    change (len (lit "link text")) with 9. change (len (lit "[")) with 1.
    change (len (lit "](")) with 2. change (len (lit ")")) with 1.
    lia.
Qed.

Lemma insertLink_confirm_witness :
  let ta := mkTextarea (lit "see docs here") 4 8 in
  callback (insertLink ta) (Some (lit " http://e ")) ta
  = Some (mkTextarea (lit "see [docs](http://e) here") 4 20).
Proof.
  intros ta.
  destruct (insertLink_confirm (lit "see ") (lit "docs") (lit " here")
              (lit " http://e ")) as (_ & H & _).
  exact (H eq_refl ltac:(discriminate) ltac:(vm_compute; discriminate)).
Defined.

(** ** Heading prompt *)

(** X14.  The level prompt of the heading button proposes the default
    level, and confirming the proposal as it is makes a heading of that
    level; an answer in which [parseInt] finds no number, or finds 0, also
    falls back to the default level, and a cancelled prompt changes
    nothing. *)
Theorem heading_prompt_default (ta live : textarea) (headingLevel : option Z)
    (val : jsstr) :
  parseInt10 val = None \/ parseInt10 val = Some 0 ->
  match headingAction ta headingLevel true with
  | Prompted request =>
      defaultValue request = ofNat (Z.to_nat (defaultLevel headingLevel))
      /\ callback request (Some (defaultValue request)) live
         = insertHeading live (Some (defaultLevel headingLevel))
      /\ callback request (Some val) live
         = insertHeading live (Some (defaultLevel headingLevel))
      /\ callback request None live = Some live
  | Ran _ => False
  end.
Proof.
  intros Hval. cbn [headingAction defaultValue callback].
  pose proof (defaultLevel_range headingLevel) as Hd.
  set (d := defaultLevel headingLevel) in *.
  split; [reflexivity|]. split; [|split; [|reflexivity]].
  - assert (Hparse : orElse (parseInt10 (ofNat (Z.to_nat d))) d = d).
    { assert (d = 1 \/ d = 2 \/ d = 3 \/ d = 4 \/ d = 5 \/ d = 6) as Hc by lia.
      repeat (destruct Hc as [-> | Hc]; [reflexivity|]).
      rewrite Hc. reflexivity. }
    rewrite Hparse. f_equal. f_equal. lia.
  - assert (Hfall : orElse (parseInt10 val) d = d)
      by (destruct Hval as [-> | ->]; reflexivity).
    rewrite Hfall. f_equal. f_equal. lia.
Qed.

Lemma heading_prompt_default_witness :
  match headingAction (mkTextarea (lit "x") 0 0) (Some 2) true with
  | Prompted request =>
      callback request (Some (lit "two")) (mkTextarea (lit "x") 0 0)
      = Some (mkTextarea (lit "## x") 0 4)
  | Ran _ => False
  end.
Proof.
  pose proof (heading_prompt_default (mkTextarea (lit "x") 0 0)
                (mkTextarea (lit "x") 0 0) (Some 2) (lit "two")
                (or_introl eq_refl)) as H.
  cbn [headingAction] in H |- *.
  destruct H as (_ & _ & H & _). rewrite H. reflexivity.
Defined.

(** ** Numbers as text *)

Section Decimal.

Lemma lit_cons (a : Ascii.ascii) (s : String.string) :
  lit (String.String a s) = Ascii.N_of_ascii a :: lit s.
Proof. reflexivity. Qed.

Lemma digitsValue_digit (acc : Z) (c : codeunit) (s : jsstr) :
  isDigit c = true ->
  digitsValue acc (c :: s) = digitsValue (10 * acc + (Z.of_N c - 48)) s.
Proof. intros H. cbn [digitsValue]. rewrite H. reflexivity. Qed.

Ltac digit_case IH :=
  cbn [DecimalString.NilEmpty.string_of_uint Nat.of_uint_acc];
  rewrite lit_cons, digitsValue_digit by reflexivity;
  rewrite <- IH; f_equal;
  rewrite Nat.tail_mul_spec;
  match goal with
  | |- context [Ascii.N_of_ascii ?a] =>
      let v := eval vm_compute in (Z.of_N (Ascii.N_of_ascii a) - 48) in
      change (Z.of_N (Ascii.N_of_ascii a) - 48) with v
  end;
  lia.

(** Reading the decimal digits of a number gives the number. *)
Lemma digitsValue_uint (u : Decimal.uint) (acc : nat) :
  digitsValue (Z.of_nat acc) (lit (DecimalString.NilEmpty.string_of_uint u))
  = Z.of_nat (Nat.of_uint_acc u acc).
Proof.
  revert acc. induction u as [|u IH|u IH|u IH|u IH|u IH|u IH|u IH|u IH|u IH|u IH];
    intros acc; [reflexivity | digit_case IH ..].
Qed.

Lemma digitsValue_ofNat (n : nat) : digitsValue 0 (ofNat n) = Z.of_nat n.
Proof.
  unfold ofNat, DecimalString.NilZero.string_of_uint.
  rewrite <- (DecimalNat.Unsigned.of_to n) at 2. unfold Nat.of_uint.
  destruct (Nat.to_uint n) eqn:E; try apply (digitsValue_uint _ 0%nat).
  reflexivity.
Qed.

Lemma digit_cases (d : codeunit) :
  isDigit d = true ->
  (d = 48 \/ d = 49 \/ d = 50 \/ d = 51 \/ d = 52 \/ d = 53 \/ d = 54
   \/ d = 55 \/ d = 56 \/ d = 57)%N.
Proof.
  unfold isDigit. intros H. apply andb_true_iff in H. destruct H as [H1 H2].
  apply N.leb_le in H1. apply N.leb_le in H2. lia.
Qed.

(** [parseInt] on text that starts with a digit, with or without a minus
    sign in front. *)
Lemma parseInt10_digits (d : codeunit) (D : jsstr) :
  isDigit d = true ->
  parseInt10 (d :: D) = Some (1 * digitsValue 0 (d :: D))
  /\ parseInt10 (45%N :: d :: D) = Some (-1 * digitsValue 0 (d :: D)).
Proof.
  intros Hd. pose proof (digit_cases d Hd) as Hc.
  repeat (destruct Hc as [-> | Hc]; [split; reflexivity|]).
  subst d. split; reflexivity.
Qed.

Lemma parseInt10_ofNat (n : nat) : parseInt10 (ofNat n) = Some (Z.of_nat n).
Proof.
  destruct (ofNat_digits n) as [Hne HD].
  pose proof (digitsValue_ofNat n) as Hval.
  destruct (ofNat n) as [|d D]; [congruence|].
  cbn [forallb] in HD. apply andb_true_iff in HD. destruct HD as [Hd _].
  destruct (parseInt10_digits d D Hd) as [-> _].
  rewrite Hval. f_equal. lia.
Qed.

End Decimal.

(** X15.  Printing a safe integer (at most [2^53 - 1] in absolute value)
    and parsing it again gives the integer back: [parseInt(String(n), 10)]
    is [n].  Hence the heading level that the options page shows and stores
    again is the stored level when that level lies in [1,6]; a missing
    level or a level 0 is shown and stored as 3, and any other safe integer
    is stored clamped into [1,6]. *)
Theorem parseInt10_ofInt (z : Z) :
  Z.abs z <= maxSafeInteger ->
  exists text field,
    ofInt z = Some text
    /\ parseInt10 text = Some z
    /\ loadHeadingLevel (Some z) = Some field
    /\ saveHeadingLevel field = Z.max 1 (Z.min 6 (if z =? 0 then 3 else z))
    /\ loadHeadingLevel None = Some (lit "3")
    /\ saveHeadingLevel (lit "3") = 3.
Proof.
  intros Hsafe.
  assert (Hparse : forall x, parseInt10 (decimal x) = Some x).
  { intros x. unfold decimal. destruct (x <? 0) eqn:E.
    - apply Z.ltb_lt in E.
      destruct (ofNat_digits (Z.to_nat (- x))) as [Hne HD].
      pose proof (digitsValue_ofNat (Z.to_nat (- x))) as Hval.
      change (lit "-" ++ ofNat (Z.to_nat (- x)))
        with (45%N :: ofNat (Z.to_nat (- x))).
      destruct (ofNat (Z.to_nat (- x))) as [|d D]; [congruence|].
      cbn [forallb] in HD. apply andb_true_iff in HD. destruct HD as [Hd _].
      destruct (parseInt10_digits d D Hd) as [_ ->].
      rewrite Hval. f_equal. lia.
    - apply Z.ltb_ge in E. rewrite parseInt10_ofNat. f_equal. lia. }
  assert (Hprint : forall x, Z.abs x <= maxSafeInteger ->
                             ofInt x = Some (decimal x)).
  { intros x Hx. unfold ofInt.
    destruct (Z.abs x <=? maxSafeInteger) eqn:E; [reflexivity|].
    apply Z.leb_gt in E. lia. }
  exists (decimal z), (decimal (orElse (Some z) 3)).
  split; [apply Hprint; exact Hsafe|].
  split; [apply Hparse|].
  split.
  { unfold loadHeadingLevel. apply Hprint.
    destruct z; cbn [orElse]; [unfold maxSafeInteger; lia | exact Hsafe..]. }
  split.
  { unfold saveHeadingLevel. rewrite Hparse. destruct z; reflexivity. }
  split; reflexivity.
Qed.

Lemma parseInt10_ofInt_witness :
  exists text field,
    ofInt 10 = Some text
    /\ parseInt10 text = Some 10
    /\ loadHeadingLevel (Some 10) = Some field
    /\ saveHeadingLevel field = 6.
Proof.
  destruct (parseInt10_ofInt 10) as (text & field & H1 & H2 & H3 & H4 & _).
  - unfold maxSafeInteger. cbn. lia.
  - exists text, field. repeat split; assumption.
Defined.

(** ** Keyboard shortcuts and toolbar buttons *)

Section Toolbar.





End Toolbar.





(** ** Snippet buttons and saved settings *)

Section SnippetButtons.

Lemma trim_trim (s : jsstr) : trim (trim s) = trim s.
Proof.
  destruct (trim s) as [|c t] eqn:E; [reflexivity|].
  pose proof (trim_head s c t E) as Hc.
  destruct (trim_last s) as [H | (t' & c' & H & Hc')]; [congruence|].
  rewrite E in H. unfold trim at 1. rewrite trimStart_fixed by exact Hc.
  unfold trimEnd. rewrite H, rev_app_distr. cbn [rev app].
  rewrite trimStart_fixed by exact Hc'.
  change (c' :: rev t') with ([c'] ++ rev t').
  rewrite rev_app_distr, rev_involutive. reflexivity.
Qed.

Lemma icon_of_label (label : jsstr) :
  label <> [] ->
  let icon := if len label <=? 3 then label else slice label 0 3 in
  1 <= len icon <= 3 /\ startsWith label icon = true
  /\ icon = firstn 3 label.
Proof.
  intros Hne icon. subst icon.
  assert (Hpos : 1 <= len label).
  { destruct label; [congruence|]. rewrite len_cons.
    pose proof (len_nonneg label). lia. }
  destruct (len label <=? 3) eqn:E.
  - apply Z.leb_le in E. split; [lia|]. split.
    + rewrite <- (app_nil_r label) at 1. apply startsWith_app.
    + symmetry. apply firstn_all2. unfold len in E. lia.
  - apply Z.leb_gt in E.
    assert (Hslice : slice label 0 3 = firstn 3 label).
    { unfold slice, sliceIdx. cbn [Z.ltb Z.compare].
      replace (Z.to_nat (Z.min 0 (len label))) with 0%nat by lia.
      replace (Z.to_nat (Z.min 3 (len label))) with 3%nat by lia.
      reflexivity. }
    rewrite Hslice. split; [|split; [|reflexivity]].
    + unfold len in *. rewrite length_firstn. lia.
    + rewrite <- (firstn_skipn 3 label) at 1. apply startsWith_app.
Qed.

Lemma snippet_buttons_from (i : nat) (sns : list snippet) (b : button) :
  In b (buildSnippetButtonsFrom i sns) ->
  exists j sn,
    nth_error sns j = Some sn
    /\ snEnabled sn = true
    /\ trim (snLabel sn) <> []
    /\ snTemplate sn <> []
    /\ b = mkButton (lit "snippet-" ++ ofNat (i + j)) false (trim (snLabel sn))
             (if len (trim (snLabel sn)) <=? 3 then trim (snLabel sn)
              else slice (trim (snLabel sn)) 0 3)
             (lit "Snippet: " ++ trim (snLabel sn))
             (ran (fun ta => insertSnippet ta (snTemplate sn))).
Proof.
  revert i. induction sns as [|sn sns IH]; intros i Hin; [destruct Hin|].
  cbn [buildSnippetButtonsFrom] in Hin.
  assert (Hlater : In b (buildSnippetButtonsFrom (S i) sns) ->
                   exists j sn0,
                     nth_error (sn :: sns) j = Some sn0
                     /\ snEnabled sn0 = true
                     /\ trim (snLabel sn0) <> []
                     /\ snTemplate sn0 <> []
                     /\ b = mkButton (lit "snippet-" ++ ofNat (i + j)) false
                              (trim (snLabel sn0))
                              (if len (trim (snLabel sn0)) <=? 3
                               then trim (snLabel sn0)
                               else slice (trim (snLabel sn0)) 0 3)
                              (lit "Snippet: " ++ trim (snLabel sn0))
                              (ran (fun ta => insertSnippet ta (snTemplate sn0)))).
  { intros H. destruct (IH (S i) H) as (j & sn0 & Hnth & He & Hl & Ht & Hb).
    exists (S j), sn0. cbn [nth_error].
    replace (i + S j)%nat with (S i + j)%nat by lia. tauto. }
  destruct (snEnabled sn) eqn:Een; cbn [negb] in Hin; [|auto].
  destruct (trim (snLabel sn)) as [|c l] eqn:El; [auto|].
  destruct (snTemplate sn) as [|c' t] eqn:Et; [auto|].
  destruct Hin as [Hb | Hin]; [|auto].
  exists 0%nat, sn. cbn [nth_error]. rewrite Nat.add_0_r, El, Et, Een.
  repeat split; try discriminate. symmetry. exact Hb.
Qed.

End SnippetButtons.

(** X17.  Every snippet button of the toolbar stands for a snippet of
    the settings that is enabled and has a non-blank label and a non-empty
    template; its id names the position of the snippet in the settings, its
    label is the trimmed label, its icon is the label when that has at
    most three code units and else its first three code units, its title is
    the label after ["Snippet: "], and clicking it always inserts the
    template with the selection put in place of the token: the
    empty-template exit of [insertSnippet] is never taken from the
    toolbar. *)
Theorem snippet_buttons_sound (st : settings) (b : button) :
  In b (buildSnippetButtons st) ->
  exists i sn f,
    nth_error (sSnippets st) i = Some sn
    /\ snEnabled sn = true
    /\ snTemplate sn <> []
    /\ buttonId b = lit "snippet-" ++ ofNat i
    /\ isSeparator b = false
    /\ buttonLabel b = trim (snLabel sn) /\ buttonLabel b <> []
    /\ buttonIcon b
       = (if len (buttonLabel b) <=? 3 then buttonLabel b
          else slice (buttonLabel b) 0 3)
    /\ buttonIcon b = firstn 3 (buttonLabel b)
    /\ 1 <= len (buttonIcon b) <= 3
    /\ startsWith (buttonLabel b) (buttonIcon b) = true
    /\ buttonTitle b = lit "Snippet: " ++ buttonLabel b
    /\ action b = Some f
    /\ forall ta st' shift,
         f ta st' shift
         = Ran (Some (replaceSelection ta
                        (join (substring (value ta) (selectionStart ta)
                                 (selectionEnd ta))
                           (split (snTemplate sn) (lit "{selection}")))
                        true)).
Proof.
  intros Hin.
  destruct (snippet_buttons_from 0 (sSnippets st) b Hin)
    as (j & sn & Hnth & Hen & Hl & Ht & ->).
  destruct (icon_of_label (trim (snLabel sn)) Hl) as (Hicon & Hstarts & Hfirst).
  exists j, sn, (fun ta _ _ => Ran (Some (insertSnippet ta (snTemplate sn)))).
  cbn [buttonId isSeparator buttonLabel buttonIcon buttonTitle action Nat.add].
  repeat split; try assumption; try lia.
  intros ta st' shift. rewrite insertSnippet_nonempty by exact Ht.
  reflexivity.
Qed.

Lemma snippet_buttons_sound_witness :
  let st := mkSettings [] None
              [mkSnippet false (lit "x") (lit "y");
               mkSnippet true (lit " Sig ") (lit "-- {selection}")] in
  exists b, In b (buildSnippetButtons st)
            /\ buttonId b = lit "snippet-1" /\ buttonLabel b = lit "Sig".
Proof.
  intros st.
  assert (Hin : In (hd (separator []) (buildSnippetButtons st))
                  (buildSnippetButtons st)) by (left; reflexivity).
  destruct (snippet_buttons_sound st _ Hin)
    as (i & sn & f & _ & _ & _ & Hid & _ & Hlabel & _).
  exists (hd (separator []) (buildSnippetButtons st)).
  split; [exact Hin|]. split; reflexivity.
Defined.

(** X18.  What the options page stores fits what the toolbar reads: the
    stored heading level is always in [1,6] and the toolbar uses it as it
    is; at most one snippet is stored per row of the form, every stored
    snippet comes from a row whose trimmed label or whose template is not
    empty, and its label is stored trimmed, so that trimming it again in the
    toolbar changes nothing. *)
Theorem saved_settings_fit_toolbar (field : jsstr) (rows : list snippetRow) :
  let level := saveHeadingLevel field in
  (1 <= level <= 6 /\ defaultLevel (Some level) = level)
  /\ (length (saveSnippets rows) <= length rows)%nat
  /\ forall sn, In sn (saveSnippets rows) ->
       trim (snLabel sn) = snLabel sn
       /\ (snLabel sn <> [] \/ snTemplate sn <> [])
       /\ exists row, In row rows
            /\ sn = mkSnippet (rowEnabled row) (trim (rowLabel row))
                      (rowTemplate row).
Proof.
  intros level.
  assert (Hlevel : 1 <= level <= 6) by (subst level; unfold saveHeadingLevel; lia).
  split; [split; [exact Hlevel | apply defaultLevel_inside; exact Hlevel]|].
  split.
  - induction rows as [|row rows IH]; cbn [saveSnippets flat_map length];
      [lia|].
    rewrite length_app. fold (saveSnippets rows).
    destruct (trim (rowLabel row)), (rowTemplate row); cbn [length]; lia.
  - intros sn Hin. unfold saveSnippets in Hin. apply in_flat_map in Hin.
    destruct Hin as (row & Hrow & Hin).
    assert (Hsn : sn = mkSnippet (rowEnabled row) (trim (rowLabel row))
                         (rowTemplate row)
                  /\ (trim (rowLabel row) <> [] \/ rowTemplate row <> [])).
    { destruct (trim (rowLabel row)) eqn:El, (rowTemplate row) eqn:Et;
        cbn in Hin; try tauto;
        destruct Hin as [<- | []]; (split; [reflexivity|]);
        try (left; discriminate); right; discriminate. }
    destruct Hsn as [-> Hne]. cbn [snLabel snTemplate].
    split; [apply trim_trim|]. split; [exact Hne|].
    exists row. split; [exact Hrow | reflexivity].
Qed.

(** ** Injecting once *)

Section InjectOnce.

Lemma processTextarea_invariant (st : scanState) (id : nat) :
  NoDup (injected st) ->
  (forall x, In x (injected st) <-> In x (processed st)) ->
  let st' := processTextarea st id in
  NoDup (injected st')
  /\ (forall x, In x (injected st') <-> In x (processed st'))
  /\ (forall x, In x (injected st') <-> In x (injected st) \/ x = id).
Proof.
  intros Hnd Hsame st'. subst st'. unfold processTextarea, isProcessed.
  destruct (existsb (Nat.eqb id) (processed st)) eqn:E.
  - apply existsb_exists in E. destruct E as (y & Hy & Heq).
    apply Nat.eqb_eq in Heq. subst y.
    repeat split; try assumption; try apply Hsame.
    + intros H. left. exact H.
    + intros [H | ->]; [exact H | apply Hsame; exact Hy].
  - assert (Hnot : ~ In id (processed st)).
    { intros Hin. assert (existsb (Nat.eqb id) (processed st) = true).
      { apply existsb_exists. exists id. split; [exact Hin|].
        apply Nat.eqb_refl. }
      congruence. }
    cbn [injected processed]. repeat split.
    + apply NoDup_app; [exact Hnd | repeat constructor; intros [] |].
      intros x Hx [<- | []]. apply Hnot. apply Hsame. exact Hx.
    + intros H. apply in_app_or in H. destruct H as [H | [<- | []]].
      * right. apply Hsame. exact H.
      * left. reflexivity.
    + intros [<- | H]; apply in_or_app.
      * right. left. reflexivity.
      * left. apply Hsame. exact H.
    + intros H. apply in_app_or in H. destruct H as [H | [<- | []]]; tauto.
    + intros [H | ->]; apply in_or_app; [left; exact H | right; left; reflexivity].
Qed.

End InjectOnce.

(** X19.  However often the page is scanned, every textarea gets its
    toolbar once: after [processTextarea] has run on any sequence of
    textareas, with repetitions, no textarea was injected twice, and the
    textareas that were injected are exactly those that were met and exactly
    those that are marked as processed. *)
Theorem toolbar_injected_once (ids : list nat) :
  let st := fold_left processTextarea ids (mkScan [] []) in
  NoDup (injected st)
  /\ (forall id, In id (injected st) <-> In id ids)
  /\ (forall id, isProcessed st id = true <-> In id ids).
Proof.
  intros st.
  assert (H : forall l st0,
             NoDup (injected st0) ->
             (forall x, In x (injected st0) <-> In x (processed st0)) ->
             let st1 := fold_left processTextarea l st0 in
             NoDup (injected st1)
             /\ (forall x, In x (injected st1) <-> In x (processed st1))
             /\ (forall x, In x (injected st1)
                           <-> In x (injected st0) \/ In x l)).
  { induction l as [|id l IH]; intros st0 Hnd Hsame; cbn [fold_left].
    - repeat split; try assumption; try apply Hsame; cbn [In]; tauto.
    - destruct (processTextarea_invariant st0 id Hnd Hsame) as (H1 & H2 & H3).
      destruct (IH _ H1 H2) as (I1 & I2 & I3).
      repeat split; try assumption; try apply I2.
      + intros Hx. apply I3 in Hx. destruct Hx as [Hx | Hx].
        * apply H3 in Hx. cbn [In]. destruct Hx as [Hx | ->]; auto.
        * right. right. exact Hx.
      + intros Hx. apply I3. destruct Hx as [Hx | [<- | Hx]].
        * left. apply H3. left. exact Hx.
        * left. apply H3. right. reflexivity.
        * right. exact Hx. }
  destruct (H ids (mkScan [] []) (NoDup_nil _)) as (H1 & H2 & H3).
  { intros x. reflexivity. }
  fold st in H1, H2, H3.
  split; [exact H1|]. split.
  - intros id. rewrite H3. cbn [injected In]. tauto.
  - intros id. unfold isProcessed. rewrite existsb_exists. split.
    + intros (y & Hy & Heq). apply Nat.eqb_eq in Heq. subst y.
      apply H2 in Hy. apply H3 in Hy. cbn [injected In] in Hy. tauto.
    + intros Hin. exists id. split; [|apply Nat.eqb_refl].
      apply H2. apply H3. right. exact Hin.
Qed.

(** ** Headings stack *)

Section HeadingStack.

Lemma trimStart_white (s : jsstr) : forallb isWhite s = true -> trimStart s = [].
Proof.
  intros H. rewrite <- (app_nil_r s). rewrite trimStart_white_prefix by exact H.
  reflexivity.
Qed.

(** A line is blank exactly when all its code units are white space. *)
Lemma trim_nil_iff (s : jsstr) : trim s = [] <-> forallb isWhite s = true.
Proof.
  split.
  - intros H. unfold trim, trimEnd in H.
    destruct (trimStart_split s) as (w & Hs & Hw).
    destruct (trimStart s) as [|c t] eqn:E.
    + rewrite Hs, app_nil_r. exact Hw.
    + exfalso. pose proof (trimStart_head s c t E) as Hc.
      cbn [rev] in H.
      destruct (trimStart_stops (rev t) [] c Hc) as (a' & Ha).
      rewrite Ha in H. apply (f_equal (@length _)) in H.
      rewrite length_rev, length_app in H. cbn in H. lia.
  - intros H. unfold trim. rewrite (trimStart_white s H). reflexivity.
Qed.

Lemma nonblank_app (p line : jsstr) : trim line <> [] -> trim (p ++ line) <> [].
Proof.
  intros H Hnil. apply H. apply trim_nil_iff. apply trim_nil_iff in Hnil.
  rewrite forallb_app in Hnil. apply andb_true_iff in Hnil. tauto.
Qed.

Lemma repeatStr_nl_free (c : codeunit) (n : nat) :
  c <> LF -> ~ In LF (repeatStr [c] n).
Proof.
  intros Hc. induction n as [|n IH]; cbn; [tauto|].
  intros [H | H]; [congruence | tauto].
Qed.

(** Two additions in a row, on the pieces. *)
Lemma prefixLines_add_twice (ta : textarea) (p1 p2 : jsstr) :
  validSelection ta -> ~ In LF p1 ->
  let v := value ta in
  let ls := lineStartOf v (selectionStart ta) in
  let le := lineEndOf v (selectionEnd ta) in
  let both := join nl (map (fun line => addPrefix p2 (addPrefix p1 line))
                         (blockLines ta)) in
  prefixLines (prefixLines ta p1 false) p2 false
  = mkTextarea (firstn (Z.to_nat ls) v ++ both ++ skipn (Z.to_nat le) v)
      ls (ls + len both).
Proof.
  intros Hvalid Hfree v ls le both.
  destruct (block_view ta Hvalid)
    as (head & blk & tail & Hhead & Htail & Hv & Hls & Hle & Hlines & Hf & Hs).
  pose proof (prefixLines_block ta p1 false Hvalid) as H1.
  cbv zeta in H1. cbn [allPrefixed andb] in H1.
  rewrite Hls, Hle, Hf, Hs in H1.
  set (lines1 := map (addPrefix p1) (blockLines ta)) in *.
  assert (Hne1 : lines1 <> []).
  { subst lines1. rewrite Hlines. apply map_nonempty, split_nonempty. }
  assert (Hfree1 : Forall (fun line => ~ In LF line) lines1).
  { subst lines1. rewrite Hlines. apply Forall_map.
    eapply Forall_impl; [|apply split_nl_free].
    intros line Hl. apply addPrefix_nl_free; assumption. }
  destruct (rewritten_block head tail lines1 Hhead Htail Hne1 Hfree1)
    as (Hls1 & Hle1 & Hlines1).
  pose proof (prefixLines_block (prefixLines ta p1 false) p2 false
                (prefixLines_valid ta p1 false)) as H2.
  cbv zeta in H2. cbn [allPrefixed andb] in H2.
  rewrite H1 in H2 |- *. rewrite Hls1, Hle1, Hlines1 in H2.
  destruct (block_pieces_read head (join nl lines1) tail) as (Hf1 & Hs1 & _).
  cbn [value] in H2. rewrite Hf1, Hs1 in H2. rewrite H2.
  subst lines1 both ls le v. rewrite map_map, Hls, Hle, Hf, Hs. reflexivity.
Qed.

End HeadingStack.

(** X20.  Headings are never toggled or replaced: a second heading on
    the same lines stacks its marker in front of the first one.  For levels
    [a] and [b] from 0 to 6, which include every level the toolbar passes,
    after [insertHeading] with level [a] and then with level [b] on the
    returned selection, every non-blank line of the block reads the [b]
    marker, the [a] marker and then the line; blank lines stay as they
    are.  A level below 0 and a level from the length of the longest
    string on make ['#'.repeat(level) + ' '] throw, and [insertHeading]
    with it. *)
Theorem headings_stack (ta : textarea) (a b : Z) :
  validSelection ta -> 0 <= a <= 6 -> 0 <= b <= 6 ->
  let v := value ta in
  let ls := lineStartOf v (selectionStart ta) in
  let le := lineEndOf v (selectionEnd ta) in
  let stacked line :=
    match trim line with
    | [] => line
    | _ => headingPrefix b ++ headingPrefix a ++ line
    end in
  let both := join nl (map stacked (blockLines ta)) in
  (exists ta1,
     insertHeading ta (Some a) = Some ta1
     /\ insertHeading ta1 (Some b)
        = Some (mkTextarea
                  (firstn (Z.to_nat ls) v ++ both ++ skipn (Z.to_nat le) v)
                  ls (ls + len both)))
  /\ (forall l, l < 0 \/ maxStringLength <= l ->
                insertHeading ta (Some l) = None).
Proof.
  intros Hvalid Ha Hb v ls le stacked both.
  split; [|intros l Hl; apply insertHeading_throws; exact Hl].
  exists (prefixLines ta (headingPrefix a) false).
  pose proof maxStringLength_value as Hmax.
  split; [apply insertHeading_level; lia|].
  rewrite insertHeading_level by lia. f_equal.
  assert (Hfree : ~ In LF (headingPrefix a)).
  { unfold headingPrefix. intros Hin. apply in_app_or in Hin.
    destruct Hin as [Hin | [Hin | []]]; [|discriminate Hin].
    revert Hin. apply (repeatStr_nl_free 35%N). discriminate. }
  rewrite (prefixLines_add_twice ta (headingPrefix a) (headingPrefix b)
             Hvalid Hfree).
  assert (Hmap : map (fun line => addPrefix (headingPrefix b)
                                    (addPrefix (headingPrefix a) line))
                   (blockLines ta)
                 = map stacked (blockLines ta)).
  { apply map_ext. intros line. subst stacked. cbv beta.
    destruct (trim line) as [|c t] eqn:E.
    - unfold addPrefix. rewrite E. rewrite E. reflexivity.
    - rewrite (nonblank_addPrefix (headingPrefix a) line) by congruence.
      rewrite nonblank_addPrefix; [reflexivity|].
      apply nonblank_app. congruence. }
  rewrite Hmap. reflexivity.
Qed.

Lemma headings_stack_witness :
  exists ta1,
    insertHeading (mkTextarea (lit "x") 0 0) (Some 3) = Some ta1
    /\ insertHeading ta1 (Some 2)
       = Some (mkTextarea (lit "## ### x") 0 8).
Proof.
  destruct (headings_stack (mkTextarea (lit "x") 0 0) 3 2)
    as ((ta1 & H1 & H2) & _).
  - vm_compute. repeat split; discriminate.
  - lia.
  - lia.
  - exists ta1. split; [exact H1 | exact H2].
Defined.

(** ** Replacing the selection *)

(** X21.  [replaceSelection] splices the replacement in place of the
    selected range and touches nothing else: the new buffer is the text
    before the selection, the replacement and the text after the selection,
    its length is the old length minus the selected length plus the length
    of the replacement, and the selection afterwards is the replacement, or
    a caret right after it when the replacement is not to be selected. *)
Theorem replaceSelection_splices (ta : textarea) (replacement : jsstr)
    (selectReplacement : bool) :
  validSelection ta ->
  let v := value ta in
  let start := selectionStart ta in
  let end_ := selectionEnd ta in
  let ta' := replaceSelection ta replacement selectReplacement in
  value ta' = firstn (Z.to_nat start) v ++ replacement ++ skipn (Z.to_nat end_) v
  /\ len (value ta') = len v - (end_ - start) + len replacement
  /\ selectionEnd ta' = start + len replacement
  /\ selectionStart ta'
     = (if selectReplacement then start else start + len replacement)
  /\ substring (value ta') start (start + len replacement) = replacement.
Proof.
  intros Hvalid.
  destruct (textarea_split ta Hvalid) as (b & s & t & ->).
  cbn [value selectionStart selectionEnd]. rewrite replaceSelection_pieces.
  destruct (block_pieces_read b s t) as (Hf & Hs & _).
  rewrite Hf, Hs.
  assert (Hmid : substring (b ++ replacement ++ t) (len b)
                   (len b + len replacement) = replacement)
    by apply substring_middle.
  destruct selectReplacement; cbn [value selectionStart selectionEnd];
    rewrite !len_app; repeat split; try exact Hmid; lia.
Qed.

Lemma replaceSelection_splices_witness :
  value (replaceSelection (mkTextarea (lit "hello world") 0 5) (lit "bye") true)
  = lit "bye world".
Proof.
  destruct (replaceSelection_splices (mkTextarea (lit "hello world") 0 5)
              (lit "bye") true) as (H & _).
  - vm_compute. repeat split; discriminate.
  - rewrite H. reflexivity.
Defined.
